(** * lidar_tracker: a shallow embedding of the tracking pipeline

    The Python package [lidar_tracker] (background model, grid DBSCAN,
    greedy tracker, trajectory store, engine) is embedded function by
    function.

    Numbers.  Python [int]s are [Z]; positions in a Python list produced by
    [range(len(..))] are [nat].  Python/numpy [float]s are idealised as exact
    rationals [Q]: rounding, overflow and NaN are outside the model.  The one
    non-finite float the code stores on purpose, [np.inf], is the constructor
    [Inf] of [xfloat].  The library functions [np.sqrt], [np.radians],
    [np.cos] and [np.sin] have no rational counterpart and are Section
    variables: every theorem holds for any implementation of them.

    Exceptions.  A Python function that can raise returns [option]; [None]
    stands for the raised exception (IndexError, ZeroDivisionError,
    ValueError of an empty reduction).

    The first part holds the embedding, module by module as the package;
    the second part the properties, with the invariants they rest on. *)

From Stdlib Require Import ZArith QArith Qround Qminmax Lia Lqa List.
From stdpp Require Import base option list gmap sorting.

Open Scope Z_scope.

(** ** Python helpers *)

(** [int(q)] on a float: truncation towards zero. *)
Definition py_int (q : Q) : Z := Z.quot (Qnum q) (Z.pos (Qden q)).

(** [a // b] on floats followed by [int(..)]: the floor of the quotient.
    The caller checks [b] against zero. *)
Definition py_floordiv (a b : Q) : Z := Qfloor (a / b).

(** [l[i]] for a Python int [i]: a negative index counts from the end,
    anything else out of range raises IndexError. *)
Definition py_index {A} (l : list A) (i : Z) : option nat :=
  let n := Z.of_nat (length l) in
  if (0 <=? i) && (i <? n) then Some (Z.to_nat i)
  else if (- n <=? i) && (i <? 0) then Some (Z.to_nat (n + i))
  else None.

Definition py_get {A} (l : list A) (i : Z) : option A :=
  k ← py_index l i; l !! k.

Definition py_set {A} (l : list A) (i : Z) (v : A) : option (list A) :=
  k ← py_index l i; Some (<[k := v]> l).

(** [x > y] and [x >= y] on floats, as booleans. *)
Definition Qgtb (a b : Q) : bool := negb (Qle_bool a b).
Definition Qgeb (a b : Q) : bool := Qle_bool b a.

(** A loop whose body can raise: [for a in l: s = f(s, a)]. *)
Fixpoint fold_opt {A S} (f : S -> A -> option S) (l : list A) (s : S)
    : option S :=
  match l with
  | [] => Some s
  | a :: l' => s' ← f s a; fold_opt f l' s'
  end.

(** ** types.py *)

Module PolarPoint.
Record t := mk { angle_deg : Q; distance_mm : Q }.
End PolarPoint.

Module CartesianPoint.
Record t := mk { x : Q; y : Q }.
End CartesianPoint.

Module Cluster.
Record t := mk {
  centroid : CartesianPoint.t;
  points : list CartesianPoint.t;
  bounding_radius_mm : Q }.
End Cluster.

Module TrackedObject.
Record t := mk {
  object_id : Z;
  centroid : CartesianPoint.t;
  velocity : CartesianPoint.t;
  bounding_radius_mm : Q;
  age : Z;
  points : list CartesianPoint.t }.
End TrackedObject.

Module TrajectoryPoint.
Record t := mk {
  x : Q; y : Q; frame_number : Z; timestamp : option Q }.
End TrajectoryPoint.

Module TrackingFrame.
Record t := mk {
  frame_number : Z;
  objects : list TrackedObject.t;
  timestamp : option Q }.
End TrackingFrame.

(** A float that may be [np.inf]. *)
Inductive xfloat := Inf | Fin (q : Q).

(** ** background.py *)

Module Background.

Record BackgroundModel := mkBackgroundModel {
  _num_bins : Z;
  _learning_rate : Q;
  _threshold : Q;
  _min_frames : Z;
  _bin_width : Q;
  _background : list xfloat;
  _bin_counts : list Z;
  _frame_count : Z }.

(** [BackgroundModel.__init__].  [360.0 / angle_bins] raises
    ZeroDivisionError for [angle_bins = 0] and [np.full] raises ValueError
    for a negative size. *)
Definition init (angle_bins : Z) (learning_rate foreground_threshold_mm : Q)
    (min_learning_frames : Z) : option BackgroundModel :=
  if angle_bins <=? 0 then None
  else Some {|
    _num_bins := angle_bins;
    _learning_rate := learning_rate;
    _threshold := foreground_threshold_mm;
    _min_frames := min_learning_frames;
    _bin_width := 360 / inject_Z angle_bins;
    _background := replicate (Z.to_nat angle_bins) Inf;
    _bin_counts := replicate (Z.to_nat angle_bins) 0;
    _frame_count := 0 |}.

(** [int(angle_deg / self._bin_width) % self._num_bins]; both the float
    division and the integer modulo raise on a zero divisor. *)
Definition _angle_to_bin (m : BackgroundModel) (angle_deg : Q) : option Z :=
  if Qeq_bool (_bin_width m) 0 then None
  else if _num_bins m =? 0 then None
  else Some (py_int (angle_deg / _bin_width m) mod _num_bins m).

(** The body of the [for p in points] loop of [update]. *)
Definition update_point (m : BackgroundModel) (p : PolarPoint.t)
    : option BackgroundModel :=
  b ← _angle_to_bin m (PolarPoint.angle_deg p);
  cnt ← py_get (_bin_counts m) b;
  bg ← (if cnt =? 0 then
          py_set (_background m) b (Fin (PolarPoint.distance_mm p))
        else
          cur ← py_get (_background m) b;
          match cur with
          | Inf => (* [d >= inf - T] is false *) Some (_background m)
          | Fin g =>
              if Qgeb (PolarPoint.distance_mm p) (g - _threshold m) then
                py_set (_background m) b
                  (Fin (g + _learning_rate m * (PolarPoint.distance_mm p - g)))
              else Some (_background m)
          end);
  cnts ← py_set (_bin_counts m) b (cnt + 1);
  Some {|
    _num_bins := _num_bins m;
    _learning_rate := _learning_rate m;
    _threshold := _threshold m;
    _min_frames := _min_frames m;
    _bin_width := _bin_width m;
    _background := bg;
    _bin_counts := cnts;
    _frame_count := _frame_count m |}.

Definition update_points (m : BackgroundModel) (points : list PolarPoint.t)
    : option BackgroundModel :=
  fold_opt update_point points m.

Definition bump_frame (m : BackgroundModel) : BackgroundModel :=
  {| _num_bins := _num_bins m;
     _learning_rate := _learning_rate m;
     _threshold := _threshold m;
     _min_frames := _min_frames m;
     _bin_width := _bin_width m;
     _background := _background m;
     _bin_counts := _bin_counts m;
     _frame_count := _frame_count m + 1 |}.

(** [BackgroundModel.update] *)
Definition update (m : BackgroundModel) (points : list PolarPoint.t)
    : option BackgroundModel :=
  m' ← update_points m points; Some (bump_frame m').

Definition is_ready (m : BackgroundModel) : bool :=
  _min_frames m <=? _frame_count m.

(** The [for p in points] loop of [classify]; [foreground.append(p)] keeps
    the order of [points]. *)
Fixpoint classify_points (m : BackgroundModel) (points : list PolarPoint.t)
    : option (list PolarPoint.t) :=
  match points with
  | [] => Some []
  | p :: ps =>
      b ← _angle_to_bin m (PolarPoint.angle_deg p);
      bg_dist ← py_get (_background m) b;
      rest ← classify_points m ps;
      match bg_dist with
      | Inf => Some rest
      | Fin g =>
          if Qgtb (g - PolarPoint.distance_mm p) (_threshold m)
          then Some (p :: rest) else Some rest
      end
  end.

(** [BackgroundModel.classify] *)
Definition classify (m : BackgroundModel) (points : list PolarPoint.t)
    : option (list PolarPoint.t) :=
  if negb (is_ready m) then Some [] else classify_points m points.

(** [BackgroundModel.reset] *)
Definition reset (m : BackgroundModel) : BackgroundModel :=
  {| _num_bins := _num_bins m;
     _learning_rate := _learning_rate m;
     _threshold := _threshold m;
     _min_frames := _min_frames m;
     _bin_width := _bin_width m;
     _background := replicate (length (_background m)) Inf;
     _bin_counts := replicate (length (_bin_counts m)) 0;
     _frame_count := 0 |}.

(** Feeding a sequence of scans, one [update] call each. *)
Definition run_updates (m : BackgroundModel) (scans : list (list PolarPoint.t))
    : option BackgroundModel :=
  fold_opt update scans m.

End Background.

(** ** clustering.py *)

Module Clustering.

(** The grid index: [dict[tuple[int, int], list[int]]]. *)
Abbreviation grid := (gmap (Z * Z) (list nat)).

(** [(int(x // cell_size), int(y // cell_size))]; numpy turns the division
    by a zero [cell_size] into inf or nan, on which [int] raises. *)
Definition cell_of (cell_size : Q) (p : Q * Q) : option (Z * Z) :=
  if Qeq_bool cell_size 0 then None
  else Some (py_floordiv p.1 cell_size, py_floordiv p.2 cell_size).

(** [cells.get(key, ())] *)
Definition cells_get (cells : grid) (key : Z * Z) : list nat :=
  default [] (cells !! key).

(** The loop [for i in range(n): cells[(cx, cy)].append(i)] over a
    [defaultdict(list)]. *)
Fixpoint build_cells (xy : list (Q * Q)) (cell_size : Q) (idxs : list nat)
    (cells : grid) : option grid :=
  match idxs with
  | [] => Some cells
  | i :: rest =>
      p ← xy !! i;
      key ← cell_of cell_size p;
      build_cells xy cell_size rest (<[key := cells_get cells key ++ [i]]> cells)
  end.

(** The nine offsets [(dx, dy)] in the order of the two nested loops. *)
Definition offsets : list (Z * Z) :=
  [(-1, -1); (-1, 0); (-1, 1); (0, -1); (0, 0); (0, 1); (1, -1); (1, 0); (1, 1)].

Definition dist_sq (p q : Q * Q) : Q :=
  ((q.1 - p.1) * (q.1 - p.1) + (q.2 - p.2) * (q.2 - p.2))%Q.

(** The innermost loop of [_range_query]: keep [j] when [dist_sq <= eps_sq]. *)
Fixpoint within (xy : list (Q * Q)) (p : Q * Q) (eps_sq : Q)
    (candidates : list nat) : option (list nat) :=
  match candidates with
  | [] => Some []
  | j :: js =>
      q ← xy !! j;
      rest ← within xy p eps_sq js;
      Some (if Qle_bool (dist_sq p q) eps_sq then j :: rest else rest)
  end.

(** [_range_query] *)
Definition _range_query (xy : list (Q * Q)) (idx : nat) (cells : grid)
    (cell_size eps_sq : Q) : option (list nat) :=
  p ← xy !! idx;
  c ← cell_of cell_size p;
  within xy p eps_sq
    (concat (map (fun d => cells_get cells (c.1 + d.1, c.2 + d.2)) offsets)).

Section Dbscan.
Variable xy : list (Q * Q).
Variable cells : grid.
Variables cell_size eps_sq : Q.
Variable min_samples : Z.

(** The loop [while j < len(seed_set)]; [seed_set] below is the part of
    the Python list from position [j] on, so [seed_set.extend] appends to
    it.  One unit of fuel is one iteration; without fuel the result is
    [None], which [ClusteringFacts.expand_total] shows not to happen with
    [expand_fuel]. *)
Fixpoint expand (fuel : nat) (cluster_id : Z) (labels : list Z)
    (seed_set : list nat) : option (list Z) :=
  match seed_set with
  | [] => Some labels
  | q :: rest =>
      match fuel with
      | O => None
      | S fuel' =>
          lq ← labels !! q;
          if lq =? -2 then
            expand fuel' cluster_id (<[q := cluster_id]> labels) rest
          else if negb (lq =? -1) then
            expand fuel' cluster_id labels rest
          else
            let labels' := <[q := cluster_id]> labels in
            q_neighbors ← _range_query xy q cells cell_size eps_sq;
            if min_samples <=? Z.of_nat (length q_neighbors) then
              expand fuel' cluster_id labels' (rest ++ q_neighbors)
            else
              expand fuel' cluster_id labels' rest
      end
  end.

(** Enough iterations for any expansion over [n] points. *)
Definition expand_fuel (n : nat) : nat := S (9 * n * S n).

(** The loop [for i in range(n)] of [_grid_dbscan], on the state
    [(labels, cluster_id)]. *)
Fixpoint dbscan_loop (idxs : list nat) (labels : list Z) (cluster_id : Z)
    : option (list Z) :=
  match idxs with
  | [] => Some labels
  | i :: rest =>
      li ← labels !! i;
      if negb (li =? -1) then dbscan_loop rest labels cluster_id
      else
        neighbors ← _range_query xy i cells cell_size eps_sq;
        if Z.of_nat (length neighbors) <? min_samples then
          dbscan_loop rest labels cluster_id
        else
          labels' ← expand (expand_fuel (length xy)) cluster_id
                      (<[i := cluster_id]> labels) neighbors;
          dbscan_loop rest labels' (cluster_id + 1)
  end.
End Dbscan.

(** [_grid_dbscan]: the labels, [-1] for noise. *)
Definition _grid_dbscan (xy : list (Q * Q)) (eps : Q) (min_samples : Z)
    : option (list Z) :=
  let n := length xy in
  cells ← build_cells xy eps (seq 0 n) ∅;
  dbscan_loop xy cells eps (eps * eps) min_samples (seq 0 n)
    (replicate n (-1)) 0.

(** [labels.max()]: ValueError on an empty array. *)
Definition labels_max (labels : list Z) : option Z :=
  match labels with
  | [] => None
  | l :: ls => Some (foldr Z.max l ls)
  end.

(** [a.max()] on a float array. *)
Definition floats_max (a : list Q) : option Q :=
  match a with
  | [] => None
  | d :: ds => Some (foldr Qmax d ds)
  end.

(** [range(k)] *)
Definition py_range (k : Z) : list Z := map Z.of_nat (seq 0 (Z.to_nat k)).

(** [xy[labels == label]] *)
Definition masked (xy : list (Q * Q)) (labels : list Z) (label : Z)
    : list (Q * Q) :=
  map fst (filter (fun pl => pl.2 = label) (zip xy labels)).

Definition Qsum (l : list Q) : Q := foldr Qplus 0%Q l.

Section WithSqrt.
Variable sqrt : Q -> Q.

(** The body of [for label in range(labels.max() + 1)]: [Some None] is
    [continue], [Some (Some c)] appends [c].  The mean of an empty
    selection is nan and its [max] raises. *)
Definition make_cluster (xy : list (Q * Q)) (labels : list Z)
    (max_cluster_radius_mm : Q) (label : Z) : option (option Cluster.t) :=
  let cluster_xy := masked xy labels label in
  let n := inject_Z (Z.of_nat (length cluster_xy)) in
  let cx := (Qsum (map fst cluster_xy) / n)%Q in
  let cy := (Qsum (map snd cluster_xy) / n)%Q in
  let dists_from_centroid :=
    map (fun p => sqrt ((p.1 - cx) * (p.1 - cx) + (p.2 - cy) * (p.2 - cy))%Q)
        cluster_xy in
  bounding_radius ← floats_max dists_from_centroid;
  if Qgtb bounding_radius max_cluster_radius_mm then Some None
  else Some (Some {|
    Cluster.centroid := CartesianPoint.mk cx cy;
    Cluster.points := map (fun row => CartesianPoint.mk row.1 row.2) cluster_xy;
    Cluster.bounding_radius_mm := bounding_radius |}).

(** The loop [for label in range(labels.max() + 1)] over the labels
    [todo]. *)
Fixpoint emit_clusters (xy : list (Q * Q)) (labels : list Z)
    (max_cluster_radius_mm : Q) (todo : list Z) : option (list Cluster.t) :=
  match todo with
  | [] => Some []
  | label :: rest =>
      c ← make_cluster xy labels max_cluster_radius_mm label;
      cs ← emit_clusters xy labels max_cluster_radius_mm rest;
      Some (match c with Some c => c :: cs | None => cs end)
  end.

(** [cluster_points] *)
Definition cluster_points (points : list CartesianPoint.t) (eps_mm : Q)
    (min_samples : Z) (max_cluster_radius_mm : Q) : option (list Cluster.t) :=
  if Z.of_nat (length points) <? min_samples then Some []
  else
    let xy := map (fun p => (CartesianPoint.x p, CartesianPoint.y p)) points in
    labels ← _grid_dbscan xy eps_mm min_samples;
    top ← labels_max labels;
    emit_clusters xy labels max_cluster_radius_mm (py_range (top + 1)).
End WithSqrt.

End Clustering.

(** ** tracker.py *)

Module Tracker.

Module _Track.
Record t := mk {
  track_id : Z;
  centroid : CartesianPoint.t;
  velocity : CartesianPoint.t;
  bounding_radius_mm : Q;
  points : list CartesianPoint.t;
  age : Z;
  missing_frames : Z;
  confirmed : bool }.
End _Track.

Record ObjectTracker := mkObjectTracker {
  _max_match_dist : Q;
  _max_missing : Z;
  _min_confirm : Z;
  _next_id : Z;
  _tracks : list _Track.t }.

(** [ObjectTracker.__init__] *)
Definition init (max_match_distance_mm : Q)
    (max_missing_frames min_confirm_frames : Z) : ObjectTracker :=
  {| _max_match_dist := max_match_distance_mm;
     _max_missing := max_missing_frames;
     _min_confirm := min_confirm_frames;
     _next_id := 1;
     _tracks := [] |}.

(** A cost triple [(cost, t, c)] of the list [pairs]. *)
Abbreviation triple := (Q * nat * nat)%type.

(** Python's [<] on the tuples [(cost, t, c)]: the first component that
    differs decides. *)
Definition triple_ltb (a b : triple) : bool :=
  let '(ca, ta, ka) := a in
  let '(cb, tb, kb) := b in
  if negb (Qeq_bool ca cb) then Qgtb cb ca
  else if negb (ta =? tb)%nat then (ta <? tb)%nat
  else (ka <? kb)%nat.

(** [pairs.sort()]: a stable sort by [<]; written as an insertion sort. *)
Fixpoint insert_sorted (a : triple) (l : list triple) : list triple :=
  match l with
  | [] => [a]
  | b :: l' => if triple_ltb b a then b :: insert_sorted a l' else a :: b :: l'
  end.

Definition py_sort (l : list triple) : list triple := foldr insert_sorted [] l.

(** The loop [for _, t, c in pairs] on [(matches, used_tracks,
    used_clusters)]. *)
Fixpoint greedy_walk (pairs : list triple) (matches : list (nat * nat))
    (used_tracks used_clusters : gset nat)
    : list (nat * nat) * gset nat * gset nat :=
  match pairs with
  | [] => (matches, used_tracks, used_clusters)
  | (_, t, c) :: rest =>
      if bool_decide (t ∉ used_tracks) && bool_decide (c ∉ used_clusters) then
        greedy_walk rest (matches ++ [(t, c)])
          ({[t]} ∪ used_tracks) ({[c]} ∪ used_clusters)
      else greedy_walk rest matches used_tracks used_clusters
  end.

(** The inner loop [for c in range(num_clusters)] of the second pair of
    loops, from column [c] on: [isfinite(cost[t, c])] selects the entries
    that were set. *)
Fixpoint row_pairs (t c : nat) (row : list xfloat) : list triple :=
  match row with
  | [] => []
  | Inf :: row' => row_pairs t (S c) row'
  | Fin d :: row' => (d, t, c) :: row_pairs t (S c) row'
  end.

(** The outer loop [for t in range(num_tracks)], from row [t] on. *)
Fixpoint all_pairs (t : nat) (cost : list (list xfloat)) : list triple :=
  match cost with
  | [] => []
  | row :: cost' => row_pairs t 0 row ++ all_pairs (S t) cost'
  end.

Section WithSqrt.
Variable sqrt : Q -> Q.

(** [np.sqrt(dx * dx + dy * dy)] *)
Definition distance (p : CartesianPoint.t) (k : Cluster.t) : Q :=
  let dx := (CartesianPoint.x p - CartesianPoint.x (Cluster.centroid k))%Q in
  let dy := (CartesianPoint.y p - CartesianPoint.y (Cluster.centroid k))%Q in
  sqrt (dx * dx + dy * dy)%Q.

(** [cost[t, c]] after the first pair of loops: the distance when it is
    within the gate, [np.inf] otherwise. *)
Definition cost_entry (gate : Q) (p : CartesianPoint.t) (k : Cluster.t)
    : xfloat :=
  let d := distance p k in
  if Qle_bool d gate then Fin d else Inf.

Definition cost_matrix (gate : Q) (predicted : list CartesianPoint.t)
    (clusters : list Cluster.t) : list (list xfloat) :=
  map (fun p => map (cost_entry gate p) clusters) predicted.

(** [ObjectTracker._assign] *)
Definition _assign (gate : Q) (predicted : list CartesianPoint.t)
    (clusters : list Cluster.t)
    : list (nat * nat) * list nat * list nat :=
  let num_tracks := length predicted in
  let num_clusters := length clusters in
  if (num_tracks =? 0)%nat then ([], [], seq 0 num_clusters)
  else if (num_clusters =? 0)%nat then ([], seq 0 num_tracks, [])
  else
    let cost := cost_matrix gate predicted clusters in
    let pairs := py_sort (all_pairs 0 cost) in
    let '(matches, used_tracks, used_clusters) :=
      greedy_walk pairs [] ∅ ∅ in
    (matches,
     filter (fun t => t ∉ used_tracks) (seq 0 num_tracks),
     filter (fun c => c ∉ used_clusters) (seq 0 num_clusters)).

Definition predict (t : _Track.t) : CartesianPoint.t :=
  CartesianPoint.mk
    (CartesianPoint.x (_Track.centroid t) + CartesianPoint.x (_Track.velocity t))
    (CartesianPoint.y (_Track.centroid t) + CartesianPoint.y (_Track.velocity t)).

(** The track [t] after the assignments of the loop body for a match with
    the cluster [c]. *)
Definition matched_track (min_confirm : Z) (t : _Track.t) (c : Cluster.t)
    : _Track.t :=
  let age' := _Track.age t + 1 in
  {| _Track.track_id := _Track.track_id t;
     _Track.centroid := Cluster.centroid c;
     _Track.velocity :=
       CartesianPoint.mk
         (CartesianPoint.x (Cluster.centroid c) - CartesianPoint.x (_Track.centroid t))
         (CartesianPoint.y (Cluster.centroid c) - CartesianPoint.y (_Track.centroid t));
     _Track.bounding_radius_mm := Cluster.bounding_radius_mm c;
     _Track.points := Cluster.points c;
     _Track.age := age';
     _Track.missing_frames := 0;
     _Track.confirmed :=
       if min_confirm <=? age' then true else _Track.confirmed t |}.

(** The body of [for track_idx, cluster_idx in matches]. *)
Definition apply_match (min_confirm : Z) (clusters : list Cluster.t)
    (tracks : list _Track.t) (m : nat * nat) : option (list _Track.t) :=
  t ← tracks !! m.1;
  c ← clusters !! m.2;
  Some (<[m.1 := matched_track min_confirm t c]> tracks).

(** An unmatched track after [missing_frames += 1] and [age += 1]. *)
Definition aged_track (t : _Track.t) : _Track.t :=
  {| _Track.track_id := _Track.track_id t;
     _Track.centroid := _Track.centroid t;
     _Track.velocity := _Track.velocity t;
     _Track.bounding_radius_mm := _Track.bounding_radius_mm t;
     _Track.points := _Track.points t;
     _Track.age := _Track.age t + 1;
     _Track.missing_frames := _Track.missing_frames t + 1;
     _Track.confirmed := _Track.confirmed t |}.

(** The body of [for track_idx in unmatched_tracks]. *)
Definition age_unmatched (tracks : list _Track.t) (track_idx : nat)
    : option (list _Track.t) :=
  t ← tracks !! track_idx;
  Some (<[track_idx := aged_track t]> tracks).

(** The [_Track(...)] built for an unmatched cluster. *)
Definition new_track (min_confirm : Z) (next_id : Z) (c : Cluster.t)
    : _Track.t :=
  {| _Track.track_id := next_id;
     _Track.centroid := Cluster.centroid c;
     _Track.velocity := CartesianPoint.mk 0 0;
     _Track.bounding_radius_mm := Cluster.bounding_radius_mm c;
     _Track.points := Cluster.points c;
     _Track.age := 1;
     _Track.missing_frames := 0;
     _Track.confirmed := min_confirm <=? 1 |}.

(** The body of [for cluster_idx in unmatched_clusters], on
    [(self._tracks, self._next_id)]. *)
Definition spawn (min_confirm : Z) (clusters : list Cluster.t)
    (st : list _Track.t * Z) (cluster_idx : nat)
    : option (list _Track.t * Z) :=
  c ← clusters !! cluster_idx;
  Some (st.1 ++ [new_track min_confirm st.2 c], st.2 + 1).

Definition to_object (t : _Track.t) : TrackedObject.t :=
  {| TrackedObject.object_id := _Track.track_id t;
     TrackedObject.centroid := _Track.centroid t;
     TrackedObject.velocity := _Track.velocity t;
     TrackedObject.bounding_radius_mm := _Track.bounding_radius_mm t;
     TrackedObject.age := _Track.age t;
     TrackedObject.points := _Track.points t |}.

(** The tracks after the three mutation loops and before the dead ones
    are removed, with the next id. *)
Definition update_tracks (tr : ObjectTracker) (clusters : list Cluster.t)
    : option (list _Track.t * Z) :=
  let predicted := map predict (_tracks tr) in
  let '(matches, unmatched_tracks, unmatched_clusters) :=
    _assign (_max_match_dist tr) predicted clusters in
  tracks1 ← fold_opt (apply_match (_min_confirm tr) clusters) matches (_tracks tr);
  tracks2 ← fold_opt age_unmatched unmatched_tracks tracks1;
  fold_opt (spawn (_min_confirm tr) clusters) unmatched_clusters
    (tracks2, _next_id tr).

(** [ObjectTracker.update] *)
Definition update (tr : ObjectTracker) (clusters : list Cluster.t)
    : option (ObjectTracker * list TrackedObject.t) :=
  st ← update_tracks tr clusters;
  let tracks :=
    filter (fun t => _Track.missing_frames t <= _max_missing tr) st.1 in
  Some ({| _max_match_dist := _max_match_dist tr;
           _max_missing := _max_missing tr;
           _min_confirm := _min_confirm tr;
           _next_id := st.2;
           _tracks := tracks |},
        map to_object
          (filter (fun t => _Track.confirmed t = true
                            /\ _Track.missing_frames t = 0) tracks)).

(** A session: one [update] per element of [frames]; the tracker after
    the last one and what each call returned. *)
Fixpoint run (tr : ObjectTracker) (frames : list (list Cluster.t))
    : option (ObjectTracker * list (list TrackedObject.t)) :=
  match frames with
  | [] => Some (tr, [])
  | clusters :: rest =>
      r ← update tr clusters;
      r' ← run r.1 rest;
      Some (r'.1, r.2 :: r'.2)
  end.
(** The tracks that the spawn loop of one [update] appends: the three
    loops before it mutate in place, so they are what follows the first
    [len(self._tracks)] entries. *)
Definition spawned (tr : ObjectTracker) (clusters : list Cluster.t)
    : list _Track.t :=
  match update_tracks tr clusters with
  | Some st => drop (length (_tracks tr)) st.1
  | None => []
  end.

(** All tracks created during a session, in creation order. *)
Fixpoint spawned_in_run (tr : ObjectTracker) (frames : list (list Cluster.t))
    : list _Track.t :=
  match frames with
  | [] => []
  | clusters :: rest =>
      spawned tr clusters ++
      match update tr clusters with
      | Some r => spawned_in_run r.1 rest
      | None => []
      end
  end.
End WithSqrt.

End Tracker.

(** ** trajectory.py *)

Module Trajectory.

(** [collections.deque] with its [maxlen]. *)
Record deque := mkDeque {
  maxlen : option Z;
  items : list TrajectoryPoint.t }.

(** [deque.append]: a full bounded deque drops its leftmost item; one of
    [maxlen] 0 stays empty. *)
Definition deque_append (d : deque) (p : TrajectoryPoint.t) : deque :=
  match maxlen d with
  | None => {| maxlen := None; items := items d ++ [p] |}
  | Some n =>
      if n =? 0 then d
      else if Z.of_nat (length (items d)) <? n
      then {| maxlen := Some n; items := items d ++ [p] |}
      else {| maxlen := Some n; items := drop 1 (items d) ++ [p] |}
  end.

Record TrajectoryStore := mkTrajectoryStore {
  _max_length : Z;
  _trajectories : gmap Z deque }.

(** [TrajectoryStore.__init__] *)
Definition init (max_trajectory_length : Z) : TrajectoryStore :=
  {| _max_length := max_trajectory_length; _trajectories := ∅ |}.

(** [TrajectoryStore.record] *)
Definition record (s : TrajectoryStore) (object_id : Z) (x y : Q)
    (frame_number : Z) (timestamp : option Q) : TrajectoryStore :=
  let trajectories :=
    match _trajectories s !! object_id with
    | Some _ => _trajectories s
    | None =>
        <[object_id :=
            {| maxlen := if 0 <? _max_length s then Some (_max_length s) else None;
               items := [] |}]> (_trajectories s)
    end in
  {| _max_length := _max_length s;
     _trajectories :=
       alter (fun d => deque_append d (TrajectoryPoint.mk x y frame_number timestamp))
             object_id trajectories |}.

(** [TrajectoryStore.get] *)
Definition get (s : TrajectoryStore) (object_id : Z) : list TrajectoryPoint.t :=
  match _trajectories s !! object_id with
  | None => []
  | Some d => items d
  end.

(** [TrajectoryStore.get_all] *)
Definition get_all (s : TrajectoryStore) : gmap Z (list TrajectoryPoint.t) :=
  items <$> _trajectories s.

(** The keys of the dict, for [for k in self._trajectories].  Python goes
    through them in insertion order and a [gmap] in the order of its
    representation; [prune_inactive] does not depend on the order. *)
Definition keys (m : gmap Z deque) : list Z := (map_to_list m).*1.

(** The body of [for k in to_remove], on [(pruned, self._trajectories)];
    [pop(k)] raises KeyError for a missing key. *)
Definition prune_step
    (st : gmap Z (list TrajectoryPoint.t) * gmap Z deque) (k : Z)
    : option (gmap Z (list TrajectoryPoint.t) * gmap Z deque) :=
  d ← st.2 !! k;
  Some (<[k := items d]> st.1, delete k st.2).

(** [TrajectoryStore.prune_inactive]: the returned dict and the store
    afterwards. *)
Definition prune_inactive (s : TrajectoryStore) (active_ids : gset Z)
    : option (gmap Z (list TrajectoryPoint.t) * TrajectoryStore) :=
  let to_remove :=
    filter (fun k => k ∉ active_ids) (keys (_trajectories s)) in
  st ← fold_opt prune_step to_remove (∅, _trajectories s);
  Some (st.1, {| _max_length := _max_length s; _trajectories := st.2 |}).

(** One [record] call: the id and the point. *)
Definition call := (Z * TrajectoryPoint.t)%type.

Definition record_call (s : TrajectoryStore) (c : call) : TrajectoryStore :=
  record s c.1 (TrajectoryPoint.x c.2) (TrajectoryPoint.y c.2)
    (TrajectoryPoint.frame_number c.2) (TrajectoryPoint.timestamp c.2).

Definition record_all (s : TrajectoryStore) (calls : list call)
    : TrajectoryStore :=
  foldl record_call s calls.

End Trajectory.

(** ** _math.py *)

Module Math.
Section WithTrig.
Variables radians cos sin : Q -> Q.

(** [polar_points_to_cartesian] *)
Definition polar_points_to_cartesian (points : list PolarPoint.t)
    : list CartesianPoint.t :=
  match points with
  | [] => []
  | _ =>
      map (fun p =>
             let rad := radians (PolarPoint.angle_deg p) in
             CartesianPoint.mk (PolarPoint.distance_mm p * cos rad)
                               (PolarPoint.distance_mm p * sin rad)) points
  end.
End WithTrig.
End Math.

(** ** engine.py *)

Module Engine.

Record TrackingEngine := mkTrackingEngine {
  _background : Background.BackgroundModel;
  _cluster_eps : Q;
  _cluster_min_samples : Z;
  _max_cluster_radius : Q;
  _tracker : Tracker.ObjectTracker;
  _trajectories : Trajectory.TrajectoryStore;
  _frame_count : Z }.

(** The keyword arguments of [TrackingEngine.__init__]. *)
Record Config := mkConfig {
  background_learning_rate : Q;
  foreground_threshold_mm : Q;
  min_learning_frames : Z;
  angle_bins : Z;
  cluster_eps_mm : Q;
  cluster_min_samples : Z;
  max_cluster_radius_mm : Q;
  max_match_distance_mm : Q;
  max_missing_frames : Z;
  min_confirm_frames : Z;
  max_trajectory_length : Z }.

(** The defaults of the signature. *)
Definition default_config : Config :=
  {| background_learning_rate := 2 # 100;
     foreground_threshold_mm := 150;
     min_learning_frames := 30;
     angle_bins := 720;
     cluster_eps_mm := 200;
     cluster_min_samples := 3;
     max_cluster_radius_mm := 500;
     max_match_distance_mm := 800;
     max_missing_frames := 10;
     min_confirm_frames := 2;
     max_trajectory_length := 0 |}.

(** [TrackingEngine.__init__] *)
Definition init (c : Config) : option TrackingEngine :=
  bg ← Background.init (angle_bins c) (background_learning_rate c)
         (foreground_threshold_mm c) (min_learning_frames c);
  Some {|
    _background := bg;
    _cluster_eps := cluster_eps_mm c;
    _cluster_min_samples := cluster_min_samples c;
    _max_cluster_radius := max_cluster_radius_mm c;
    _tracker := Tracker.init (max_match_distance_mm c) (max_missing_frames c)
                  (min_confirm_frames c);
    _trajectories := Trajectory.init (max_trajectory_length c);
    _frame_count := 0 |}.

(** An element of the input of [process_scan]: a [PolarPoint] or a tuple
    [(angle_deg, distance_mm)]. *)
Inductive scan_item :=
  | Point (p : PolarPoint.t)
  | Pair (angle_deg distance_mm : Q).

Definition normalize (p : scan_item) : PolarPoint.t :=
  match p with
  | Point p => p
  | Pair a d => PolarPoint.mk a d
  end.

Section WithFloatLib.
Variables sqrt radians cos sin : Q -> Q.

(** [TrackingEngine.process_scan] *)
Definition process_scan (e : TrackingEngine) (points : list scan_item)
    (timestamp : option Q) : option (TrackingEngine * TrackingFrame.t) :=
  let polar := map normalize points in
  let polar := filter (fun p => Qgtb (PolarPoint.distance_mm p) 0 = true) polar in
  bg ← Background.update (_background e) polar;
  foreground ← Background.classify bg polar;
  let cartesian := Math.polar_points_to_cartesian radians cos sin foreground in
  clusters ← Clustering.cluster_points sqrt cartesian (_cluster_eps e)
               (_cluster_min_samples e) (_max_cluster_radius e);
  r ← Tracker.update sqrt (_tracker e) clusters;
  let trajectories :=
    foldl (fun s obj =>
             Trajectory.record s (TrackedObject.object_id obj)
               (CartesianPoint.x (TrackedObject.centroid obj))
               (CartesianPoint.y (TrackedObject.centroid obj))
               (_frame_count e) timestamp)
          (_trajectories e) r.2 in
  let frame :=
    {| TrackingFrame.frame_number := _frame_count e;
       TrackingFrame.objects := r.2;
       TrackingFrame.timestamp := timestamp |} in
  Some ({| _background := bg;
           _cluster_eps := _cluster_eps e;
           _cluster_min_samples := _cluster_min_samples e;
           _max_cluster_radius := _max_cluster_radius e;
           _tracker := r.1;
           _trajectories := trajectories;
           _frame_count := _frame_count e + 1 |}, frame).

(** Successive [process_scan] calls; the engine after the last one and
    the frames returned. *)
Fixpoint process_scans (e : TrackingEngine)
    (scans : list (list scan_item * option Q))
    : option (TrackingEngine * list TrackingFrame.t) :=
  match scans with
  | [] => Some (e, [])
  | s :: rest =>
      r ← process_scan e s.1 s.2;
      r' ← process_scans r.1 rest;
      Some (r'.1, r.2 :: r'.2)
  end.
End WithFloatLib.

Definition frame_count (e : TrackingEngine) : Z := _frame_count e.

(** [TrackingEngine.get_trajectory] *)
Definition get_trajectory (e : TrackingEngine) (object_id : Z)
    : list TrajectoryPoint.t :=
  Trajectory.get (_trajectories e) object_id.

(** [TrackingEngine.get_all_trajectories] *)
Definition get_all_trajectories (e : TrackingEngine)
    : gmap Z (list TrajectoryPoint.t) :=
  Trajectory.get_all (_trajectories e).

Definition background_ready (e : TrackingEngine) : bool :=
  Background.is_ready (_background e).

(** [TrackingEngine.reset_background] *)
Definition reset_background (e : TrackingEngine) : TrackingEngine :=
  {| _background := Background.reset (_background e);
     _cluster_eps := _cluster_eps e;
     _cluster_min_samples := _cluster_min_samples e;
     _max_cluster_radius := _max_cluster_radius e;
     _tracker := _tracker e;
     _trajectories := _trajectories e;
     _frame_count := _frame_count e |}.

(** [TrackingEngine.reset] *)
Definition reset (e : TrackingEngine) : TrackingEngine :=
  {| _background := Background.reset (_background e);
     _cluster_eps := _cluster_eps e;
     _cluster_min_samples := _cluster_min_samples e;
     _max_cluster_radius := _max_cluster_radius e;
     _tracker :=
       Tracker.init (Tracker._max_match_dist (_tracker e))
         (Tracker._max_missing (_tracker e)) (Tracker._min_confirm (_tracker e));
     _trajectories :=
       Trajectory.init (Trajectory._max_length (_trajectories e));
     _frame_count := 0 |}.

End Engine.

(** ** Running the model *)

(** A computable square root on [Q]: exact on squares of rationals, rounded
    down to a multiple of [1 / Qden q] otherwise. *)
Definition Qsqrt (q : Q) : Q := Z.sqrt (Qnum q * Z.pos (Qden q)) # Qden q.

(** Rational stand-ins for [np.radians], [np.cos] and [np.sin], for running
    the model: 355/113 for pi and the Taylor polynomials of degree 4 and
    5. *)
Definition Qradians (deg : Q) : Q := (deg * (355 # 113) / 180)%Q.
Definition Qcos (r : Q) : Q := (1 - r * r / 2 + r * r * r * r / 24)%Q.
Definition Qsin (r : Q) : Q := (r - r * r * r / 6 + r * r * r * r * r / 120)%Q.

(** * Properties *)

(** ** The scenarios of tests/ on the model *)

(** The assertions of the repository's tests hold of the embedding; the
    room scans are shortened to 36 points and the learning to a few
    frames, since exact rationals grow where floats round. *)

Module RepoTests.

Definition row (start step : Z) (n : nat) : list CartesianPoint.t :=
  map (fun i => CartesianPoint.mk (inject_Z (start + step * Z.of_nat i)) 0)
      (seq 0 n).

Definition sizes (r : option (list Cluster.t)) : option (list nat) :=
  option_map (map (fun c => length (Cluster.points c))) r.

Example test_single_tight_cluster :
  sizes (Clustering.cluster_points Qsqrt (row 0 10 10) 50 3 500)
  = Some [10%nat].
Proof. vm_compute. reflexivity. Qed.

Example test_two_separated_clusters :
  sizes (Clustering.cluster_points Qsqrt (row 0 10 10 ++ row 2000 10 10) 50 3 500)
  = Some [10%nat; 10%nat].
Proof. vm_compute. reflexivity. Qed.

Example test_noise_points_discarded :
  sizes (Clustering.cluster_points Qsqrt
           (row 0 10 10 ++ [CartesianPoint.mk 5000 5000]) 50 3 500)
  = Some [10%nat].
Proof. vm_compute. reflexivity. Qed.

Example test_too_few_points_returns_empty :
  Clustering.cluster_points Qsqrt
    [CartesianPoint.mk 0 0; CartesianPoint.mk 10 0] 50 3 500 = Some [].
Proof. vm_compute. reflexivity. Qed.

Example test_oversized_cluster_rejected :
  Clustering.cluster_points Qsqrt (row 0 100 30) 150 3 500 = Some [].
Proof. vm_compute. reflexivity. Qed.

Example test_empty_input :
  Clustering.cluster_points Qsqrt [] 200 3 500 = Some [].
Proof. vm_compute. reflexivity. Qed.

Example test_centroid_is_mean_of_points :
  option_map (map (fun c => (Qred (CartesianPoint.x (Cluster.centroid c)),
                             Qred (CartesianPoint.y (Cluster.centroid c)))))
    (Clustering.cluster_points Qsqrt
       [CartesianPoint.mk 0 0; CartesianPoint.mk 100 0; CartesianPoint.mk 50 50]
       200 3 500)
  = Some [(50, 50 # 3)%Q].
Proof. vm_compute. reflexivity. Qed.

(** test_tracker.py: [_make_cluster] *)
Definition _make_cluster (x y : Q) : Cluster.t :=
  Cluster.mk (CartesianPoint.mk x y)
    (map (fun i => CartesianPoint.mk (x + inject_Z (Z.of_nat i))
                                     (y + inject_Z (Z.of_nat i))) (seq 0 5))
    100.

(** The ids and velocities published by each [update] of a session. *)
Definition published (r : option (Tracker.ObjectTracker * list (list TrackedObject.t)))
    : option (list (list (Z * Q * Q))) :=
  option_map
    (fun r => map (map (fun o =>
       (TrackedObject.object_id o,
        Qred (CartesianPoint.x (TrackedObject.velocity o)),
        Qred (CartesianPoint.y (TrackedObject.velocity o))))) r.2) r.

Example test_track_confirmed_after_min_frames :
  published (Tracker.run Qsqrt (Tracker.init 800 10 2)
               [[_make_cluster 1000 1000]; [_make_cluster 1000 1000]])
  = Some [[]; [(1, 0%Q, 0%Q)]].
Proof. vm_compute. reflexivity. Qed.

Example test_persistent_id_across_frames :
  published (Tracker.run Qsqrt (Tracker.init 800 10 1)
               [[_make_cluster 1000 1000]; [_make_cluster 1050 1050]])
  = Some [[(1, 0%Q, 0%Q)]; [(1, 50%Q, 50%Q)]].
Proof. vm_compute. reflexivity. Qed.

Example test_two_objects_get_different_ids :
  published (Tracker.run Qsqrt (Tracker.init 800 10 1)
               [[_make_cluster 1000 1000; _make_cluster 3000 3000]])
  = Some [[(1, 0%Q, 0%Q); (2, 0%Q, 0%Q)]].
Proof. vm_compute. reflexivity. Qed.

Example test_lost_track_disappears_after_max_missing :
  published (Tracker.run Qsqrt (Tracker.init 800 3 1)
               [[_make_cluster 1000 1000]; []; []; []; [];
                [_make_cluster 1000 1000]; [_make_cluster 1000 1000]])
  = Some [[(1, 0%Q, 0%Q)]; []; []; []; []; [(2, 0%Q, 0%Q)]; [(2, 0%Q, 0%Q)]].
Proof. vm_compute. reflexivity. Qed.

Example test_velocity_is_computed :
  published (Tracker.run Qsqrt (Tracker.init 800 10 1)
               [[_make_cluster 1000 1000]; [_make_cluster 1100 1000]])
  = Some [[(1, 0%Q, 0%Q)]; [(1, 100%Q, 0%Q)]].
Proof. vm_compute. reflexivity. Qed.

Example test_no_clusters_returns_empty :
  published (Tracker.run Qsqrt (Tracker.init 800 10 2) [[]]) = Some [[]].
Proof. vm_compute. reflexivity. Qed.

(** conftest.py: [make_room_scan], here with 36 points. *)
Definition make_room_scan (wall_distance_mm : Q) : list PolarPoint.t :=
  map (fun i => PolarPoint.mk (inject_Z (10 * Z.of_nat i)) wall_distance_mm)
      (seq 0 36).

Example test_not_ready_before_min_frames :
  option_map Background.is_ready
    (m ← Background.init 720 (2 # 100) 150 4;
     Background.run_updates m (replicate 3 (make_room_scan 5000))) = Some false /\
  option_map Background.is_ready
    (m ← Background.init 720 (2 # 100) 150 4;
     Background.run_updates m (replicate 4 (make_room_scan 5000))) = Some true.
Proof. split; vm_compute; reflexivity. Qed.

Example test_detects_person_as_foreground :
  (m ← Background.init 720 (2 # 100) 150 3;
   m ← Background.run_updates m (replicate 4 (make_room_scan 5000));
   Background.classify m (make_room_scan 5000 ++ [PolarPoint.mk 90 2000]))
  = Some [PolarPoint.mk 90 2000].
Proof. vm_compute. reflexivity. Qed.

Example test_frame_numbers_increment :
  option_map (fun r => (map TrackingFrame.frame_number r.2, Engine.frame_count r.1))
    (e ← Engine.init Engine.default_config;
     Engine.process_scans Qsqrt Qradians Qcos Qsin e
       (replicate 5 (map Engine.Point (make_room_scan 5000), None)))
  = Some ([0; 1; 2; 3; 4], 5).
Proof. vm_compute. reflexivity. Qed.

Example test_filters_zero_distance :
  option_map (fun r => TrackingFrame.objects r.2)
    (e ← Engine.init Engine.default_config;
     Engine.process_scan Qsqrt Qradians Qcos Qsin e [Engine.Pair 0 0] None)
  = Some [].
Proof. vm_compute. reflexivity. Qed.

End RepoTests.

(** ** Python helpers *)

Lemma Qgtb_true a b : Qgtb a b = true <-> (b < a)%Q.
Proof.
  unfold Qgtb. rewrite negb_true_iff. split.
  - intros H. apply Qnot_le_lt. intros Hle.
    apply Qle_bool_iff in Hle. congruence.
  - intros H. destruct (Qle_bool a b) eqn:E; [|done].
    apply Qle_bool_iff in E. lra.
Qed.

Lemma Qgtb_false a b : Qgtb a b = false <-> (a <= b)%Q.
Proof.
  unfold Qgtb. rewrite negb_false_iff. apply Qle_bool_iff.
Qed.

Lemma Qgeb_true a b : Qgeb a b = true <-> (b <= a)%Q.
Proof. apply Qle_bool_iff. Qed.

Lemma Qgeb_false a b : Qgeb a b = false <-> (a < b)%Q.
Proof.
  unfold Qgeb. split.
  - intros H. apply Qnot_le_lt. intros Hle.
    apply Qle_bool_iff in Hle. congruence.
  - intros H. destruct (Qle_bool b a) eqn:E; [|done].
    apply Qle_bool_iff in E. lra.
Qed.

Lemma py_index_lt {A} (l : list A) i k :
  py_index l i = Some k -> (k < length l)%nat.
Proof.
  unfold py_index. intros H.
  destruct ((0 <=? i) && (i <? Z.of_nat (length l))) eqn:E1.
  - apply andb_true_iff in E1 as [? ?]. inversion H; subst. lia.
  - destruct ((- Z.of_nat (length l) <=? i) && (i <? 0)) eqn:E2; [|done].
    apply andb_true_iff in E2 as [? ?]. inversion H; subst. lia.
Qed.

Lemma py_index_in_range {A} (l : list A) i :
  0 <= i < Z.of_nat (length l) -> py_index l i = Some (Z.to_nat i).
Proof.
  intros [H1 H2]. unfold py_index.
  assert ((0 <=? i) && (i <? Z.of_nat (length l)) = true) as ->; [|done].
  apply andb_true_iff. split; lia.
Qed.

Lemma py_get_in_range {A} (l : list A) i :
  0 <= i < Z.of_nat (length l) ->
  exists v, py_get l i = Some v /\ l !! Z.to_nat i = Some v.
Proof.
  intros H. unfold py_get. rewrite py_index_in_range by done. simpl.
  destruct (lookup_lt_is_Some_2 l (Z.to_nat i)) as [v Hv]; [lia|].
  exists v. by rewrite Hv.
Qed.

Lemma py_set_in_range {A} (l : list A) i v :
  0 <= i < Z.of_nat (length l) ->
  py_set l i v = Some (<[Z.to_nat i := v]> l).
Proof.
  intros H. unfold py_set. by rewrite py_index_in_range.
Qed.

Lemma map_is_fmap {A B} (f : A -> B) (l : list A) : map f l = f <$> l.
Proof. done. Qed.

Lemma bind_Some_l {A B} (f : A -> option B) (a : A) : (Some a ≫= f) = f a.
Proof. done. Qed.

Lemma fold_opt_cons {A S} (f : S -> A -> option S) a l s :
  fold_opt f (a :: l) s = f s a ≫= fold_opt f l.
Proof. done. Qed.

Lemma fold_opt_app {A S} (f : S -> A -> option S) l1 l2 s :
  fold_opt f (l1 ++ l2) s = s' ← fold_opt f l1 s; fold_opt f l2 s'.
Proof.
  revert s. induction l1 as [|a l1 IH]; intros s; simpl; [done|].
  destruct (f s a) as [s1|]; simpl; [apply IH|done].
Qed.

(** A loop invariant that the body keeps and under which the body does
    not raise is kept by the loop, which does not raise either. *)
Lemma fold_opt_invariant {A S} (f : S -> A -> option S) (I : S -> Prop)
    (P : A -> Prop) l s :
  (forall s a, I s -> P a -> exists s', f s a = Some s' /\ I s') ->
  I s -> Forall P l -> exists s', fold_opt f l s = Some s' /\ I s'.
Proof.
  intros Hstep. revert s. induction l as [|a l IH]; intros s Hs Hl; simpl.
  - eauto.
  - inversion Hl; subst.
    destruct (Hstep s a) as (s1 & -> & Hs1); [done..|]. simpl. by apply IH.
Qed.

(** ** background.py *)

Module BackgroundFacts.
Import Background.

(** The representation invariant of a constructed model. *)
Definition wf (m : BackgroundModel) : Prop :=
  1 <= _num_bins m /\
  Qeq_bool (_bin_width m) 0 = false /\
  length (_background m) = Z.to_nat (_num_bins m) /\
  length (_bin_counts m) = Z.to_nat (_num_bins m).

(** The configuration a model was built with. *)
Definition same_config (m m' : BackgroundModel) : Prop :=
  _num_bins m' = _num_bins m /\ _bin_width m' = _bin_width m /\
  _learning_rate m' = _learning_rate m /\ _threshold m' = _threshold m /\
  _min_frames m' = _min_frames m.

(** The value [update] leaves in a bin that held [cur] after [cnt] earlier
    samples, on a sample at distance [d]. *)
Definition next_bg (T lr : Q) (cnt : Z) (cur : xfloat) (d : Q) : xfloat :=
  if cnt =? 0 then Fin d
  else match cur with
       | Inf => Inf
       | Fin g => if Qgeb d (g - T) then Fin (g + lr * (d - g)) else Fin g
       end.

Lemma Qdiv_360_nonzero (n : Z) : 1 <= n -> Qeq_bool (360 / inject_Z n) 0 = false.
Proof.
  intros Hn. destruct (Qeq_bool (360 / inject_Z n) 0) eqn:E; [|done].
  apply Qeq_bool_iff in E.
  assert (Hnz : ~ (inject_Z n == 0)%Q).
  { unfold Qeq. simpl. lia. }
  pose proof (Qmult_div_r 360 (inject_Z n) Hnz) as Hm.
  rewrite E in Hm. lra.
Qed.

Lemma init_wf bins lr T F :
  1 <= bins ->
  exists m, init bins lr T F = Some m /\ wf m /\
    _num_bins m = bins /\ _learning_rate m = lr /\ _threshold m = T /\
    _min_frames m = F /\ _frame_count m = 0 /\
    _background m = replicate (Z.to_nat bins) Inf.
Proof.
  intros Hb. unfold init.
  destruct (bins <=? 0) eqn:E; [lia|].
  eexists. split; [done|]. unfold wf. simpl.
  rewrite !length_replicate. split_and!; auto using Qdiv_360_nonzero.
Qed.

Lemma init_Some bins lr T F m : init bins lr T F = Some m -> 1 <= bins.
Proof. unfold init. destruct (bins <=? 0) eqn:E; [done|lia]. Qed.

Lemma angle_to_bin_wf m a :
  wf m ->
  exists b, _angle_to_bin m a = Some b /\ 0 <= b < _num_bins m.
Proof.
  intros (Hn & Hw & _). unfold _angle_to_bin. rewrite Hw.
  destruct (_num_bins m =? 0) eqn:E; [lia|].
  eexists. split; [done|]. apply Z.mod_pos_bound. lia.
Qed.

(** What one loop iteration of [update] does on a well-formed model. *)
Lemma update_point_spec m p :
  wf m ->
  exists b cnt cur,
    _angle_to_bin m (PolarPoint.angle_deg p) = Some (Z.of_nat b) /\
    _bin_counts m !! b = Some cnt /\
    _background m !! b = Some cur /\
    update_point m p = Some {|
      _num_bins := _num_bins m;
      _learning_rate := _learning_rate m;
      _threshold := _threshold m;
      _min_frames := _min_frames m;
      _bin_width := _bin_width m;
      _background :=
        <[b := next_bg (_threshold m) (_learning_rate m) cnt cur
                 (PolarPoint.distance_mm p)]> (_background m);
      _bin_counts := <[b := cnt + 1]> (_bin_counts m);
      _frame_count := _frame_count m |}.
Proof.
  intros Hwf. destruct (angle_to_bin_wf m (PolarPoint.angle_deg p) Hwf)
    as (b & Hb & Hrange).
  destruct Hwf as (Hn & Hw & Hlb & Hlc).
  destruct (py_get_in_range (_bin_counts m) b) as (cnt & Hc1 & Hc2); [lia|].
  destruct (py_get_in_range (_background m) b) as (cur & Hg1 & Hg2); [lia|].
  exists (Z.to_nat b), cnt, cur. rewrite Z2Nat.id by lia.
  split_and!; [done..|].
  unfold update_point. rewrite Hb. simpl. rewrite Hc1. simpl.
  unfold next_bg.
  rewrite (py_set_in_range (_bin_counts m)) by lia.
  destruct (cnt =? 0) eqn:E.
  - rewrite py_set_in_range by lia. done.
  - rewrite Hg1. simpl. destruct cur as [|g].
    + simpl. by rewrite (list_insert_id (_background m)).
    + destruct (Qgeb _ _).
      * rewrite py_set_in_range by lia. done.
      * simpl. by rewrite (list_insert_id (_background m)).
Qed.

Lemma update_point_wf m p :
  wf m -> exists m', update_point m p = Some m' /\ wf m' /\ same_config m m' /\
                     _frame_count m' = _frame_count m.
Proof.
  intros Hwf. destruct (update_point_spec m p Hwf) as (b & cnt & cur & _ & _ & _ & ->).
  eexists. split; [done|]. destruct Hwf as (? & ? & ? & ?).
  unfold wf, same_config. simpl. rewrite !length_insert. done.
Qed.

Lemma update_points_wf m pts :
  wf m -> exists m', update_points m pts = Some m' /\ wf m' /\ same_config m m' /\
                     _frame_count m' = _frame_count m.
Proof.
  unfold update_points. revert m. induction pts as [|p pts IH]; intros m Hwf.
  - exists m. unfold same_config. done.
  - simpl. destruct (update_point_wf m p Hwf) as (m1 & -> & Hwf1 & Hc1 & Hf1).
    simpl. destruct (IH m1 Hwf1) as (m2 & -> & Hwf2 & Hc2 & Hf2).
    exists m2. unfold same_config in *. split_and!; try done; try congruence.
    all: destruct Hc1 as (?&?&?&?&?), Hc2 as (?&?&?&?&?); congruence.
Qed.

Lemma update_wf m pts :
  wf m -> exists m', update m pts = Some m' /\ wf m' /\ same_config m m' /\
                     _frame_count m' = _frame_count m + 1.
Proof.
  intros Hwf. unfold update.
  destruct (update_points_wf m pts Hwf) as (m1 & -> & Hwf1 & Hc1 & Hf1).
  simpl. eexists. split; [done|]. unfold wf, same_config in *. simpl.
  rewrite Hf1. done.
Qed.

Lemma run_updates_wf m scans :
  wf m -> exists m', run_updates m scans = Some m' /\ wf m' /\ same_config m m'.
Proof.
  unfold run_updates. revert m. induction scans as [|s ss IH]; intros m Hwf.
  - exists m. unfold same_config. done.
  - simpl. destruct (update_wf m s Hwf) as (m1 & -> & Hwf1 & Hc1 & _).
    simpl. destruct (IH m1 Hwf1) as (m2 & -> & Hwf2 & Hc2).
    exists m2. split_and!; try done.
    unfold same_config in *.
    destruct Hc1 as (?&?&?&?&?), Hc2 as (?&?&?&?&?). split_and!; congruence.
Qed.

Lemma classify_points_wf m pts :
  wf m -> is_Some (classify_points m pts).
Proof.
  intros Hwf. induction pts as [|p pts IH]; simpl; [done|].
  destruct (angle_to_bin_wf m (PolarPoint.angle_deg p) Hwf) as (b & -> & Hr).
  simpl. destruct Hwf as (? & ? & Hl & ?).
  destruct (py_get_in_range (_background m) b) as (cur & -> & _); [lia|].
  simpl. destruct IH as [rest ->]. simpl.
  destruct cur; [done|]. by destruct (Qgtb _ _).
Qed.

Lemma classify_wf m pts : wf m -> is_Some (classify m pts).
Proof.
  intros Hwf. unfold classify. destruct (negb (is_ready m)); [done|].
  by apply classify_points_wf.
Qed.

Lemma reset_wf m : wf m -> wf (reset m).
Proof.
  intros (? & ? & ? & ?). unfold wf, reset. simpl.
  rewrite !length_replicate. done.
Qed.



(** *** Two models that differ in the threshold only *)

(** The order in which the background of the model with the larger
    threshold stays below the other one, bin by bin. *)
Definition bg_le (b2 b1 : xfloat) : Prop :=
  match b2, b1 with
  | Inf, Inf => True
  | Fin g2, Fin g1 => (g2 <= g1)%Q
  | _, _ => False
  end.

(** [m1] and [m2] were built with the same arguments but the thresholds
    [T1] and [T2] and have seen the same scans. *)
Record related (T1 T2 : Q) (m1 m2 : BackgroundModel) : Prop := mkRelated {
  rel_wf1 : wf m1;
  rel_wf2 : wf m2;
  rel_bins : _num_bins m2 = _num_bins m1;
  rel_width : _bin_width m2 = _bin_width m1;
  rel_rate : _learning_rate m2 = _learning_rate m1;
  rel_min : _min_frames m2 = _min_frames m1;
  rel_frames : _frame_count m2 = _frame_count m1;
  rel_counts : _bin_counts m2 = _bin_counts m1;
  rel_T1 : _threshold m1 = T1;
  rel_T2 : _threshold m2 = T2;
  rel_bg : Forall2 bg_le (_background m2) (_background m1) }.

Section Monotone.
Variables lr T1 T2 : Q.
Hypothesis lr_range : (0 <= lr <= 1)%Q.
Hypothesis T1_nonneg : (0 <= T1)%Q.
Hypothesis T1_le_T2 : (T1 <= T2)%Q.

Lemma next_bg_le cnt c1 c2 d :
  bg_le c2 c1 -> bg_le (next_bg T2 lr cnt c2 d) (next_bg T1 lr cnt c1 d).
Proof.
  unfold next_bg. destruct (cnt =? 0); [simpl; lra|].
  destruct c2 as [|g2], c1 as [|g1]; simpl; try done.
  intros Hle.
  destruct (Qgeb d (g2 - T2)) eqn:E2, (Qgeb d (g1 - T1)) eqn:E1; simpl.
  - nra.
  - apply Qgeb_false in E1. nra.
  - apply Qgeb_false in E2. apply Qgeb_true in E1. lra.
  - done.
Qed.

Lemma update_point_related m1 m2 p :
  _learning_rate m1 = lr ->
  related T1 T2 m1 m2 ->
  exists m1' m2', update_point m1 p = Some m1' /\ update_point m2 p = Some m2' /\
                  _learning_rate m1' = lr /\ related T1 T2 m1' m2'.
Proof.
  intros Hlr [Hwf1 Hwf2 Hb Hw Hr Hm Hf Hc HT1 HT2 Hbg].
  destruct (update_point_wf m1 p Hwf1) as (m1' & H1 & Hwf1' & _).
  destruct (update_point_wf m2 p Hwf2) as (m2' & H2 & Hwf2' & _).
  exists m1', m2'. split_and!; [done..| |].
  - destruct (update_point_spec m1 p Hwf1) as (? & ? & ? & _ & _ & _ & Hs).
    rewrite Hs in H1. by injection H1 as <-.
  - destruct (update_point_spec m1 p Hwf1) as (b1 & cnt1 & cur1 & Hb1 & Hc1 & Hg1 & Hs1).
    destruct (update_point_spec m2 p Hwf2) as (b2 & cnt2 & cur2 & Hb2 & Hc2 & Hg2 & Hs2).
    assert (b2 = b1) as ->.
    { unfold _angle_to_bin in Hb1, Hb2. rewrite Hw, Hb in Hb2.
      rewrite Hb1 in Hb2. inversion Hb2. lia. }
    assert (cnt2 = cnt1) as -> by (rewrite Hc in Hc2; congruence).
    rewrite Hs1 in H1. rewrite Hs2 in H2.
    injection H1 as <-. injection H2 as <-.
    constructor; simpl; try done.
    + by rewrite Hc.
    + rewrite Hr, Hlr, HT1, HT2. apply Forall2_insert; [done|]. apply next_bg_le.
      eapply Forall2_lookup_lr; eauto.
Qed.

Lemma update_points_related pts : forall m1 m2,
  _learning_rate m1 = lr ->
  related T1 T2 m1 m2 ->
  exists m1' m2', update_points m1 pts = Some m1' /\ update_points m2 pts = Some m2' /\
                  _learning_rate m1' = lr /\ related T1 T2 m1' m2'.
Proof.
  unfold update_points. induction pts as [|p pts IH]; intros m1 m2 Hlr Hrel; simpl.
  - by exists m1, m2.
  - destruct (update_point_related m1 m2 p Hlr Hrel) as (a1 & a2 & -> & -> & Hlr' & Hrel').
    simpl. by apply IH.
Qed.

Lemma update_related m1 m2 pts :
  _learning_rate m1 = lr ->
  related T1 T2 m1 m2 ->
  exists m1' m2', update m1 pts = Some m1' /\ update m2 pts = Some m2' /\
                  _learning_rate m1' = lr /\ related T1 T2 m1' m2'.
Proof.
  intros Hlr Hrel. unfold update.
  destruct (update_points_related pts m1 m2 Hlr Hrel) as (a1 & a2 & -> & -> & Hlr' & Hrel').
  simpl. eexists _, _. split_and!; [done..|].
  destruct Hrel'. constructor; simpl; try done. congruence.
Qed.

Lemma run_updates_related scans : forall m1 m2,
  _learning_rate m1 = lr ->
  related T1 T2 m1 m2 ->
  exists m1' m2', run_updates m1 scans = Some m1' /\ run_updates m2 scans = Some m2' /\
                  related T1 T2 m1' m2'.
Proof.
  unfold run_updates. induction scans as [|s ss IH]; intros m1 m2 Hlr Hrel; simpl.
  - by exists m1, m2.
  - destruct (update_related m1 m2 s Hlr Hrel) as (a1 & a2 & -> & -> & Hlr' & Hrel').
    simpl. by apply IH.
Qed.

Lemma classify_points_related m1 m2 pts :
  related T1 T2 m1 m2 ->
  exists fg1 fg2, classify_points m1 pts = Some fg1 /\
                  classify_points m2 pts = Some fg2 /\ sublist fg2 fg1.
Proof.
  intros [Hwf1 Hwf2 Hb Hw Hr Hm Hf Hc HT1 HT2 Hbg].
  induction pts as [|p pts IH]; simpl.
  - exists [], []. done.
  - destruct (angle_to_bin_wf m1 (PolarPoint.angle_deg p) Hwf1) as (b & Hb1 & Hrange).
    assert (Hb2 : _angle_to_bin m2 (PolarPoint.angle_deg p) = Some b).
    { unfold _angle_to_bin in *. by rewrite Hw, Hb. }
    rewrite Hb1, Hb2. simpl.
    pose proof Hwf1 as (_ & _ & Hl1 & _). pose proof Hwf2 as (_ & _ & Hl2 & _).
    destruct (py_get_in_range (_background m1) b) as (c1 & -> & Hc1); [lia|].
    destruct (py_get_in_range (_background m2) b) as (c2 & -> & Hc2); [lia|].
    simpl. destruct IH as (fg1 & fg2 & -> & -> & Hsub). simpl.
    pose proof (Forall2_lookup_lr _ _ _ _ _ _ Hbg Hc2 Hc1) as Hle.
    destruct c2 as [|g2], c1 as [|g1]; simpl in Hle; try done.
    + by exists fg1, fg2.
    + rewrite HT1, HT2.
      destruct (Qgtb (g2 - PolarPoint.distance_mm p) T2) eqn:E2,
               (Qgtb (g1 - PolarPoint.distance_mm p) T1) eqn:E1.
      * eexists _, _. split_and!; [done..|]. by apply sublist_skip.
      * apply Qgtb_true in E2. apply Qgtb_false in E1. lra.
      * eexists _, _. split_and!; [done..|]. by apply sublist_cons.
      * by exists fg1, fg2.
Qed.

Lemma classify_related m1 m2 pts :
  related T1 T2 m1 m2 ->
  exists fg1 fg2, classify m1 pts = Some fg1 /\
                  classify m2 pts = Some fg2 /\ sublist fg2 fg1.
Proof.
  intros Hrel. unfold classify, is_ready.
  rewrite (rel_min _ _ _ _ Hrel), (rel_frames _ _ _ _ Hrel).
  destruct (negb _).
  - exists [], []. done.
  - by apply classify_points_related.
Qed.

End Monotone.

Lemma init_related bins lr T1 T2 F a1 a2 :
  init bins lr T1 F = Some a1 -> init bins lr T2 F = Some a2 ->
  _learning_rate a1 = lr /\ related T1 T2 a1 a2.
Proof.
  intros H1 H2. pose proof (init_Some _ _ _ _ _ H1) as Hb.
  destruct (init_wf bins lr T1 F Hb) as (m1 & E1 & Hwf1 & ? & ? & ? & ? & ? & Hbg1).
  destruct (init_wf bins lr T2 F Hb) as (m2 & E2 & Hwf2 & ? & ? & ? & ? & ? & Hbg2).
  rewrite E1 in H1. rewrite E2 in H2. inversion H1; inversion H2; subst a1 a2.
  split; [done|].
  revert E1 E2. unfold init. destruct (bins <=? 0); [done|].
  intros E1 E2. inversion E1; inversion E2; subst m1 m2.
  constructor; simpl; try done.
  apply Forall2_replicate. done.
Qed.



(** The two conditions on the configuration are needed.  With negative
    thresholds -10 and -9 the model of the larger one absorbs the sample at
    109.5 and then flags 115, which the other one does not; so does a
    learning rate of 2 with the thresholds 0 and 60. *)
Definition foreground_of (lr T : Q) (scans : list (list PolarPoint.t))
    (points : list PolarPoint.t) : option (list PolarPoint.t) :=
  m ← init 4 lr T 0; m' ← run_updates m scans; classify m' points.

Lemma negative_threshold_not_monotone :
  let scans := [[PolarPoint.mk 0 100]; [PolarPoint.mk 0 (219 # 2)]] in
  foreground_of 1 (-10) scans [PolarPoint.mk 0 115] = Some [] /\
  foreground_of 1 (-9) scans [PolarPoint.mk 0 115] = Some [PolarPoint.mk 0 115].
Proof. split; vm_compute; reflexivity. Qed.

Lemma large_rate_not_monotone :
  let scans :=
    [[PolarPoint.mk 0 1000]; [PolarPoint.mk 0 950]; [PolarPoint.mk 0 999]] in
  foreground_of 2 0 scans [PolarPoint.mk 0 1000] = Some [] /\
  foreground_of 2 60 scans [PolarPoint.mk 0 1000] = Some [PolarPoint.mk 0 1000].
Proof. split; vm_compute; reflexivity. Qed.

(** *** A scan repeated from a fresh model *)

(** Every finite background value lies within the threshold above every
    range that the scan [S] has in the same bin. *)
Definition settled (S : list PolarPoint.t) (a0 m : BackgroundModel) : Prop :=
  forall p b g,
    p ∈ S ->
    _angle_to_bin a0 (PolarPoint.angle_deg p) = Some (Z.of_nat b) ->
    _background m !! b = Some (Fin g) ->
    (g - PolarPoint.distance_mm p <= _threshold a0)%Q.

(** Two points of [S] that fall into one bin have ranges at most the
    threshold apart. *)
Definition bin_consistent (S : list PolarPoint.t) (a0 : BackgroundModel) : Prop :=
  forall p q,
    p ∈ S -> q ∈ S ->
    _angle_to_bin a0 (PolarPoint.angle_deg p)
      = _angle_to_bin a0 (PolarPoint.angle_deg q) ->
    (PolarPoint.distance_mm q - PolarPoint.distance_mm p <= _threshold a0)%Q.

Section Static.
Variable S : list PolarPoint.t.
Variable a0 : BackgroundModel.
Hypothesis rate_range : (0 <= _learning_rate a0 <= 1)%Q.
Hypothesis S_consistent : bin_consistent S a0.

Definition static_inv (m : BackgroundModel) : Prop :=
  wf m /\ same_config a0 m /\ settled S a0 m.

Lemma angle_to_bin_same_config m a :
  same_config a0 m -> _angle_to_bin m a = _angle_to_bin a0 a.
Proof. intros (Hn & Hw & _). unfold _angle_to_bin. by rewrite Hn, Hw. Qed.

Lemma update_point_static m q :
  static_inv m -> q ∈ S ->
  exists m', update_point m q = Some m' /\ static_inv m'.
Proof.
  intros (Hwf & Hcfg & Hset) Hq.
  destruct (update_point_wf m q Hwf) as (m' & Hm' & Hwf' & Hcfg' & _).
  exists m'. split; [done|]. split; [done|]. split.
  { destruct Hcfg as (?&?&?&?&?), Hcfg' as (?&?&?&?&?).
    unfold same_config. split_and!; congruence. }
  destruct (update_point_spec m q Hwf) as (bq & cnt & cur & Hbq & Hcnt & Hcur & Hs).
  rewrite Hs in Hm'. injection Hm' as <-.
  rewrite angle_to_bin_same_config in Hbq by done.
  destruct Hcfg as (_ & _ & Hlr & HT & _).
  intros p b g Hp Hb. simpl.
  destruct (decide (b = bq)) as [->|Hne].
  - rewrite list_lookup_insert_eq by (by eapply lookup_lt_Some).
    intros Hg. injection Hg as Hg.
    assert (Hqp : (PolarPoint.distance_mm q - PolarPoint.distance_mm p
                   <= _threshold a0)%Q).
    { apply S_consistent; [done..|]. by rewrite Hb, Hbq. }
    revert Hg. unfold next_bg. rewrite Hlr, HT.
    destruct (cnt =? 0).
    + intros Hg. injection Hg as <-. done.
    + destruct cur as [|g0]; [done|].
      pose proof (Hset p bq g0 Hp Hb Hcur) as Hold.
      destruct (Qgeb _ _); intros Hg; injection Hg as <-; [nra|done].
  - rewrite list_lookup_insert_ne by done. by apply Hset.
Qed.

Lemma update_static m pts :
  static_inv m -> Forall (fun q => q ∈ S) pts ->
  exists m', update m pts = Some m' /\ static_inv m'.
Proof.
  intros Hm Hpts. unfold update, update_points.
  destruct (fold_opt_invariant update_point static_inv (fun q => q ∈ S) pts m)
    as (m1 & -> & Hwf1 & Hcfg1 & Hset1); [|done..|].
  { intros. by apply update_point_static. }
  simpl. eexists. split; [done|]. done.
Qed.

Lemma run_updates_static m n :
  static_inv m ->
  exists m', run_updates m (replicate n S) = Some m' /\ static_inv m'.
Proof.
  intros Hm. unfold run_updates.
  apply (fold_opt_invariant update static_inv (fun s => s = S)); [|done|].
  - intros m1 s H1 ->. apply update_static; [done|].
    apply Forall_forall. auto.
  - apply Forall_forall. intros s Hs. by apply elem_of_replicate in Hs as [-> _].
Qed.

Lemma classify_points_static m pts :
  static_inv m -> Forall (fun q => q ∈ S) pts ->
  classify_points m pts = Some [].
Proof.
  intros (Hwf & Hcfg & Hset) Hpts.
  induction Hpts as [|p pts Hp Hpts IH]; simpl; [done|].
  destruct (angle_to_bin_wf m (PolarPoint.angle_deg p) Hwf) as (b & Hb & Hrange).
  rewrite Hb. simpl. pose proof Hwf as (_ & _ & Hl & _).
  destruct (py_get_in_range (_background m) b) as (cur & -> & Hcur); [lia|].
  simpl. rewrite IH. simpl. destruct cur as [|g]; [done|].
  rewrite angle_to_bin_same_config in Hb by done.
  rewrite <- (Z2Nat.id b) in Hb by lia.
  pose proof (Hset p _ g Hp Hb Hcur) as Hle.
  destruct Hcfg as (_ & _ & _ & HT & _). rewrite HT.
  apply Qgtb_false in Hle. by rewrite Hle.
Qed.

End Static.




End BackgroundFacts.

(** ** trajectory.py *)

Module TrajectoryFacts.
Import Trajectory.

(** The [maxlen] that [record] gives the deques of a store of bound [B]. *)
Definition maxlen_of (B : Z) : option Z := if 0 <? B then Some B else None.

(** Every history of the store was created by [record] under the bound
    [B] and respects it. *)
Definition store_inv (B : Z) (s : TrajectoryStore) : Prop :=
  _max_length s = B /\
  forall id d, _trajectories s !! id = Some d ->
    maxlen d = maxlen_of B /\ (0 < B -> Z.of_nat (length (items d)) <= B).

(** The points recorded for [id], oldest first. *)
Definition recorded (id : Z) (calls : list call) : list TrajectoryPoint.t :=
  map snd (filter (fun c => c.1 = id) calls).

(** What [deque.append] does to the items of a deque of the store. *)
Definition appended (B : Z) (l : list TrajectoryPoint.t) (p : TrajectoryPoint.t)
    : list TrajectoryPoint.t :=
  if 0 <? B then
    if Z.of_nat (length l) <? B then l ++ [p] else drop 1 l ++ [p]
  else l ++ [p].

Lemma init_inv B : store_inv B (init B).
Proof. split; [done|]. intros id d H. simpl in H. by rewrite lookup_empty in H. Qed.

Lemma deque_append_items B d p :
  maxlen d = maxlen_of B ->
  items (deque_append d p) = appended B (items d) p /\
  maxlen (deque_append d p) = maxlen_of B.
Proof.
  unfold deque_append, appended, maxlen_of. intros ->.
  destruct (0 <? B) eqn:E; [|done].
  destruct (B =? 0) eqn:E0; [lia|].
  by destruct (Z.of_nat (length (items d)) <? B).
Qed.

Lemma appended_length B l p :
  0 < B -> Z.of_nat (length l) <= B -> Z.of_nat (length (appended B l p)) <= B.
Proof.
  intros HB Hl. unfold appended. destruct (0 <? B) eqn:E; [|lia].
  destruct (Z.of_nat (length l) <? B) eqn:E1;
    rewrite length_app; [simpl; lia|].
  rewrite length_drop. simpl. lia.
Qed.

Lemma get_record B s id p :
  store_inv B s ->
  get (record_call s (id, p)) id = appended B (get s id) p.
Proof.
  intros (HB & Hinv). unfold record_call, record, get. simpl.
  destruct p as [px py pf pt]. simpl.
  destruct (_trajectories s !! id) as [d|] eqn:E.
  - rewrite lookup_alter_eq, E. simpl.
    by destruct (deque_append_items B d (TrajectoryPoint.mk px py pf pt)) as [-> _];
      [apply Hinv in E as [? _]|].
  - rewrite lookup_alter_eq, lookup_insert_eq. simpl. rewrite HB.
    by apply (deque_append_items B {| maxlen := maxlen_of B; items := [] |}).
Qed.

Lemma get_record_ne s id id' p :
  id <> id' -> get (record_call s (id, p)) id' = get s id'.
Proof.
  intros Hne. unfold record_call, record, get. simpl.
  rewrite lookup_alter_ne by done.
  destruct (_trajectories s !! id); [done|]. by rewrite lookup_insert_ne.
Qed.

Lemma record_inv B s c : store_inv B s -> store_inv B (record_call s c).
Proof.
  intros Hs. pose proof Hs as (HB & Hinv). destruct c as [id p].
  split; [done|]. intros id' d' Hd'.
  destruct (decide (id = id')) as [<-|Hne].
  - pose proof (get_record B s id p Hs) as Hget.
    unfold get at 1 in Hget. rewrite Hd' in Hget.
    assert (Hold : forall d, _trajectories s !! id = Some d ->
                     Z.of_nat (length (get s id)) <= B \/ B <= 0).
    { intros d Hd. unfold get. rewrite Hd. apply Hinv in Hd as [_ Hlen]. lia. }
    split.
    + revert Hd'. unfold record_call, record. simpl.
      rewrite lookup_alter_eq.
      destruct (_trajectories s !! id) as [d|] eqn:E.
      * rewrite E. simpl. intros [= <-].
        apply deque_append_items. by apply Hinv in E as [? _].
      * rewrite lookup_insert_eq. simpl. intros [= <-].
        apply deque_append_items. by rewrite HB.
    + intros HBpos. rewrite Hget. apply appended_length; [done|].
      unfold get. destruct (_trajectories s !! id) as [d|] eqn:E.
      * apply Hinv in E as [_ Hlen]. auto.
      * simpl. lia.
  - revert Hd'. unfold record_call, record. simpl.
    rewrite lookup_alter_ne by done.
    destruct (_trajectories s !! id).
    + apply Hinv.
    + rewrite lookup_insert_ne by done. apply Hinv.
Qed.

Lemma record_all_inv B calls : forall s,
  store_inv B s -> store_inv B (record_all s calls).
Proof.
  unfold record_all. induction calls as [|c calls IH]; intros s Hs; simpl; [done|].
  apply IH. by apply record_inv.
Qed.

Lemma get_bounded B s id :
  store_inv B s -> 1 <= B -> Z.of_nat (length (get s id)) <= B.
Proof.
  intros (_ & Hinv) HB. unfold get.
  destruct (_trajectories s !! id) as [d|] eqn:E; [|simpl; lia].
  apply Hinv in E as [_ Hlen]. apply Hlen. lia.
Qed.

Lemma get_record_all_unbounded calls : forall s id,
  store_inv 0 s ->
  get (record_all s calls) id = get s id ++ recorded id calls.
Proof.
  unfold record_all, recorded.
  induction calls as [|[id' p] calls IH]; intros s id Hs; simpl.
  - by rewrite app_nil_r.
  - rewrite IH by (by apply record_inv).
    rewrite filter_cons. simpl. destruct (decide (id' = id)) as [->|Hne].
    + rewrite (get_record 0) by done. unfold appended. simpl.
      by rewrite <- app_assoc.
    + by rewrite get_record_ne.
Qed.

(** C8.  In a store built with bound [B] and filled by any sequence of
    [record] calls: when [B >= 1] the history of every id holds at most [B]
    points, and a further [record] for that id appends the point, after
    dropping the oldest one exactly when the history already holds [B];
    when [B = 0] the history is every point recorded for the id, in
    order. *)
Theorem trajectory_bounded (B : Z) (calls : list call) (id : Z)
    (p : TrajectoryPoint.t) :
  let s := record_all (init B) calls in
  (1 <= B ->
     Z.of_nat (length (get s id)) <= B /\
     get (record_call s (id, p)) id
       = (if Z.of_nat (length (get s id)) <? B then get s id
          else drop 1 (get s id)) ++ [p]) /\
  (B = 0 -> get s id = recorded id calls).
Proof.
  intros s.
  assert (Hs : store_inv B s) by apply record_all_inv, init_inv.
  split.
  - intros HB. split; [by apply get_bounded|].
    rewrite (get_record B) by done. unfold appended.
    destruct (0 <? B) eqn:E; [|lia].
    by destruct (Z.of_nat (length (get s id)) <? B).
  - intros ->. unfold s. rewrite get_record_all_unbounded by apply init_inv.
    done.
Qed.

Definition tp (n : Z) : TrajectoryPoint.t :=
  TrajectoryPoint.mk (inject_Z n) 0 n None.

(** A store of bound 2 after three records for id 7 and one for id 8. *)
Lemma trajectory_bounded_witness :
  let s := record_all (init 2) [(7, tp 0); (7, tp 1); (8, tp 1); (7, tp 2)] in
  Z.of_nat (length (get s 7)) <= 2 /\
  get (record_call s (7, tp 3)) 7
    = (if Z.of_nat (length (get s 7)) <? 2 then get s 7
       else drop 1 (get s 7)) ++ [tp 3].
Proof.
  apply (trajectory_bounded 2 [(7, tp 0); (7, tp 1); (8, tp 1); (7, tp 2)] 7 (tp 3)).
  lia.
Defined.

End TrajectoryFacts.

(** ** tracker.py *)

Module TrackerFacts.
Import Tracker.

(** *** The order of [pairs.sort()] *)

(** Ascending lexicographic order on [(cost, t, k)]. *)
Definition triple_lt (a b : triple) : Prop :=
  (a.1.1 < b.1.1)%Q \/
  ((a.1.1 == b.1.1)%Q /\
   ((a.1.2 < b.1.2)%nat \/ (a.1.2 = b.1.2 /\ (a.2 < b.2)%nat))).

(** The track and the cluster of a triple. *)
Definition key (a : triple) : nat * nat := (a.1.2, a.2).

Lemma triple_ltb_spec a b : triple_ltb a b = true <-> triple_lt a b.
Proof.
  destruct a as [[ca ta] ka], b as [[cb tb] kb]. unfold triple_ltb, triple_lt.
  simpl. destruct (Qeq_bool ca cb) eqn:E; simpl.
  - apply Qeq_bool_iff in E.
    destruct (Nat.eqb_spec ta tb) as [->|Hne]; simpl.
    + rewrite Nat.ltb_lt. split; [auto|].
      intros [H|[_ [H|[_ H]]]]; [lra|lia|done].
    + rewrite Nat.ltb_lt. split; [auto|].
      intros [H|[_ [H|[H _]]]]; [lra|done|done].
  - rewrite Qgtb_true. split; [auto|].
    intros [H|[H _]]; [done|].
    apply Qeq_bool_iff in H. congruence.
Qed.

Lemma triple_lt_irrefl a : ~ triple_lt a a.
Proof. unfold triple_lt. intros [H|[_ [H|[_ H]]]]; [lra|lia|lia]. Qed.

Lemma triple_lt_trans a b c : triple_lt a b -> triple_lt b c -> triple_lt a c.
Proof.
  unfold triple_lt.
  intros [H1|[E1 [H1|[E1' H1]]]] [H2|[E2 [H2|[E2' H2]]]];
    first [ left; lra
          | right; split; [lra|]; first [left; lia | right; split; lia] ].
Qed.

Lemma triple_lt_asym a b : triple_lt a b -> triple_lt b a -> False.
Proof. intros H1 H2. eapply triple_lt_irrefl, triple_lt_trans; eauto. Qed.

(** Two triples of different pairs are ordered one way or the other. *)
Lemma triple_lt_total a b :
  key a <> key b -> triple_ltb b a = false -> triple_lt a b.
Proof.
  intros Hk Hnlt.
  assert (Hn : ~ triple_lt b a) by (rewrite <- triple_ltb_spec; congruence).
  revert Hk Hn. destruct a as [[ca ta] ka], b as [[cb tb] kb].
  unfold triple_lt, key. simpl. intros Hk Hn.
  destruct (Qlt_le_dec ca cb) as [?|Hle]; [by left|]. right.
  assert (ca == cb)%Q as Heq.
  { apply Qle_antisym; [|done]. apply Qnot_lt_le. intros ?. apply Hn. by left. }
  split; [done|].
  destruct (lt_eq_lt_dec ta tb) as [ [?| ->] | ?]; [by left| |].
  - right. split; [done|].
    destruct (lt_eq_lt_dec ka kb) as [ [?| ->] | ?]; [done|done|].
    exfalso. apply Hn. right. split; [lra|]. right. done.
  - exfalso. apply Hn. right. split; [lra|]. by left.
Qed.

Lemma StronglySorted_lt_NoDup (l : list triple) :
  StronglySorted triple_lt l -> NoDup l.
Proof.
  induction 1 as [|a l Hl IH Ha]; [constructor|].
  apply NoDup_cons. split; [|done].
  intros Hin. rewrite Forall_forall in Ha.
  by apply (triple_lt_irrefl a), Ha.
Qed.

Lemma insert_sorted_perm a l : insert_sorted a l ≡ₚ a :: l.
Proof.
  induction l as [|b l IH]; simpl; [done|].
  destruct (triple_ltb b a); [|done].
  rewrite IH. apply Permutation_swap.
Qed.

Lemma py_sort_perm l : py_sort l ≡ₚ l.
Proof.
  unfold py_sort. induction l as [|a l IH]; simpl; [done|].
  by rewrite insert_sorted_perm, IH.
Qed.

Lemma insert_sorted_sorted a l :
  StronglySorted triple_lt l ->
  (forall b, b ∈ l -> key a <> key b) ->
  StronglySorted triple_lt (insert_sorted a l).
Proof.
  induction 1 as [|b l Hl IH Hb]; intros Hkey; simpl.
  - repeat constructor.
  - destruct (triple_ltb b a) eqn:E.
    + constructor.
      * apply IH. intros c Hc. apply Hkey. by right.
      * apply triple_ltb_spec in E.
        rewrite insert_sorted_perm. by constructor.
    + assert (Hab : triple_lt a b).
      { apply triple_lt_total; [|done]. apply Hkey. by left. }
      constructor; [by constructor|].
      constructor; [done|].
      eapply Forall_impl; [exact Hb|]. intros c Hc. simpl in Hc.
      by eapply triple_lt_trans.
Qed.

(** [pairs.sort()] yields the ascending list when no pair occurs twice. *)
Lemma py_sort_sorted l :
  NoDup (key <$> l) -> StronglySorted triple_lt (py_sort l).
Proof.
  unfold py_sort. induction l as [|a l IH]; simpl; intros Hnd.
  - constructor.
  - apply NoDup_cons in Hnd as [Ha Hnd].
    apply insert_sorted_sorted; [by apply IH|].
    intros b Hb Hk. apply Ha. rewrite Hk.
    apply list_elem_of_fmap_2. fold (py_sort l) in Hb.
    by rewrite py_sort_perm in Hb.
Qed.

(** *** The enumeration of the finite costs *)

Lemma elem_of_row_pairs t row : forall c0 a,
  a ∈ row_pairs t c0 row <->
  exists j d, row !! j = Some (Fin d) /\ a = (d, t, (c0 + j)%nat).
Proof.
  induction row as [|e row IH]; intros c0 a; simpl.
  - split; [by intros ?%elem_of_nil|]. by intros (j & d & ? & _).
  - destruct e as [|d0].
    + rewrite IH. split.
      * intros (j & d & Hj & ->). exists (S j), d. split; [done|].
        f_equal. lia.
      * intros ([|j] & d & Hj & ->); [done|]. exists j, d. split; [done|].
        f_equal. lia.
    + rewrite elem_of_cons, IH. split.
      * intros [->|(j & d & Hj & ->)].
        -- exists 0%nat, d0. split; [done|]. f_equal. lia.
        -- exists (S j), d. split; [done|]. f_equal. lia.
      * intros ([|j] & d & Hj & ->).
        -- left. simpl in Hj. injection Hj as ->. f_equal. lia.
        -- right. exists j, d. split; [done|]. f_equal. lia.
Qed.

Lemma elem_of_all_pairs cost : forall t0 a,
  a ∈ all_pairs t0 cost <->
  exists i row j d, cost !! i = Some row /\ row !! j = Some (Fin d) /\
                    a = (d, (t0 + i)%nat, j).
Proof.
  induction cost as [|row cost IH]; intros t0 a; simpl.
  - split; [by intros ?%elem_of_nil|]. by intros (i & r & j & d & ? & _).
  - rewrite elem_of_app, elem_of_row_pairs, IH. split.
    + intros [(j & d & Hj & ->)|(i & r & j & d & Hi & Hj & ->)].
      * exists 0%nat, row, j, d. split_and!; [done..|]. do 2 f_equal. lia.
      * exists (S i), r, j, d. split_and!; [done..|]. do 2 f_equal. lia.
    + intros ([|i] & r & j & d & Hi & Hj & ->).
      * left. simpl in Hi. injection Hi as <-. exists j, d. split; [done|].
        do 2 f_equal. lia.
      * right. exists i, r, j, d. split_and!; [done..|]. do 2 f_equal. lia.
Qed.

Lemma row_pairs_keys_NoDup t row : forall c0,
  NoDup (key <$> row_pairs t c0 row).
Proof.
  induction row as [|e row IH]; intros c0; simpl; [constructor|].
  destruct e as [|d0]; [apply IH|].
  rewrite fmap_cons. apply NoDup_cons. split; [|apply IH].
  intros (a & Hk & Ha)%list_elem_of_fmap.
  apply elem_of_row_pairs in Ha as (j & d & _ & ->).
  unfold key in Hk. simpl in Hk. injection Hk as Hk. lia.
Qed.

Lemma all_pairs_keys_NoDup cost : forall t0,
  NoDup (key <$> all_pairs t0 cost).
Proof.
  induction cost as [|row cost IH]; intros t0; simpl; [constructor|].
  rewrite fmap_app. apply NoDup_app. split_and!.
  - apply row_pairs_keys_NoDup.
  - intros k (a & -> & Ha)%list_elem_of_fmap (b & Hk & Hb)%list_elem_of_fmap.
    apply elem_of_row_pairs in Ha as (j & d & _ & ->).
    apply elem_of_all_pairs in Hb as (i & r & j' & d' & _ & _ & ->).
    unfold key in Hk. simpl in Hk. injection Hk as Hk _. lia.
  - apply IH.
Qed.

(** *** The greedy walk *)

Section Assign.
Variable sqrt : Q -> Q.

(** The spec's candidates: the triples [(cost, t, k)] of a track position
    and a cluster whose distance [cost] is within the gate. *)
Definition is_candidate (gate : Q) (predicted : list CartesianPoint.t)
    (clusters : list Cluster.t) (a : triple) : Prop :=
  exists p k,
    predicted !! a.1.2 = Some p /\ clusters !! a.2 = Some k /\
    a.1.1 = distance sqrt p k /\ (a.1.1 <= gate)%Q.

(** The spec's walk: go through the triples in order and accept [(t, k)]
    exactly when neither [t] nor [k] is already matched. *)
Fixpoint greedy_spec (L : list triple) (matched : list (nat * nat))
    : list (nat * nat) :=
  match L with
  | [] => matched
  | (_, t, k) :: rest =>
      if decide (t ∈ matched.*1 \/ k ∈ matched.*2)
      then greedy_spec rest matched
      else greedy_spec rest (matched ++ [(t, k)])
  end.

Lemma filter_all {A} (P : A -> Prop) `{!forall a, Decision (P a)} (l : list A) :
  (forall a, a ∈ l -> P a) -> filter P l = l.
Proof.
  induction l as [|a l IH]; intros Hall; [done|].
  rewrite filter_cons_True by (apply Hall; by left).
  f_equal. apply IH. intros b Hb. apply Hall. by right.
Qed.

Lemma elem_of_pairs gate predicted clusters a :
  a ∈ all_pairs 0 (cost_matrix sqrt gate predicted clusters) <->
  is_candidate gate predicted clusters a.
Proof.
  rewrite elem_of_all_pairs. unfold cost_matrix, is_candidate.
  rewrite map_is_fmap. split.
  - intros (i & row & j & d & Hi & Hj & ->). simpl.
    rewrite list_lookup_fmap in Hi.
    destruct (predicted !! i) as [p|] eqn:Hp; [|done].
    simpl in Hi. injection Hi as <-.
    rewrite map_is_fmap, list_lookup_fmap in Hj.
    destruct (clusters !! j) as [k|] eqn:Hk; [|done].
    simpl in Hj. unfold cost_entry in Hj.
    destruct (Qle_bool (distance sqrt p k) gate) eqn:E; [|done].
    injection Hj as <-. exists p, k. split_and!; [done..|].
    by apply Qle_bool_iff.
  - destruct a as [[d t] j]. simpl. intros (p & k & Hp & Hk & -> & Hle).
    exists t, (cost_entry sqrt gate p <$> clusters), j, (distance sqrt p k).
    split_and!; [| |done].
    + by rewrite list_lookup_fmap, Hp.
    + rewrite list_lookup_fmap, Hk. simpl. unfold cost_entry.
      apply Qle_bool_iff in Hle. by rewrite Hle.
Qed.

(** The sorted list of the code is the ascending list of the candidates. *)
Lemma sorted_pairs_spec gate predicted clusters :
  let P := py_sort (all_pairs 0 (cost_matrix sqrt gate predicted clusters)) in
  (forall a, a ∈ P <-> is_candidate gate predicted clusters a) /\
  StronglySorted triple_lt P.
Proof.
  split.
  - intros a. rewrite py_sort_perm. apply elem_of_pairs.
  - apply py_sort_sorted, all_pairs_keys_NoDup.
Qed.

(** There is one ascending list of a given set of triples. *)
Lemma sorted_unique (L1 L2 : list triple) :
  (forall a, a ∈ L1 <-> a ∈ L2) ->
  StronglySorted triple_lt L1 -> StronglySorted triple_lt L2 -> L1 = L2.
Proof.
  intros Hel H1 H2. apply (StronglySorted_unique_strong triple_lt); [|done..|].
  - intros a b _ _ Hab Hba. by destruct (triple_lt_asym a b).
  - apply NoDup_Permutation; auto using StronglySorted_lt_NoDup.
Qed.

(** The sets [used_tracks] and [used_clusters] hold the tracks and the
    clusters of [matches], so the membership tests of the loop are the
    spec's "already matched". *)
Lemma greedy_walk_is_spec L : forall m (ut uc : gset nat),
  (forall t, t ∈ ut <-> t ∈ m.*1) ->
  (forall c, c ∈ uc <-> c ∈ m.*2) ->
  exists ut' uc' : gset nat,
    greedy_walk L m ut uc = (greedy_spec L m, ut', uc') /\
    (forall t, t ∈ ut' <-> t ∈ (greedy_spec L m).*1) /\
    (forall c, c ∈ uc' <-> c ∈ (greedy_spec L m).*2).
Proof.
  induction L as [|[[d t] k] L IH]; intros m ut uc Hut Huc; simpl.
  - by exists ut, uc.
  - destruct (decide (t ∈ m.*1 \/ k ∈ m.*2)) as [Hin|Hnin].
    + assert (bool_decide (t ∉ ut) && bool_decide (k ∉ uc) = false) as ->.
      { apply andb_false_iff. rewrite !bool_decide_eq_false.
        destruct Hin as [?%Hut|?%Huc]; [left|right]; auto. }
      by apply IH.
    + assert (bool_decide (t ∉ ut) && bool_decide (k ∉ uc) = true) as ->.
      { apply andb_true_iff. rewrite !bool_decide_eq_true.
        split; [rewrite Hut|rewrite Huc]; tauto. }
      apply IH.
      * intros t'. rewrite fmap_app, elem_of_app, elem_of_union, elem_of_singleton.
        simpl. rewrite list_elem_of_singleton, Hut. tauto.
      * intros c'. rewrite fmap_app, elem_of_app, elem_of_union, elem_of_singleton.
        simpl. rewrite list_elem_of_singleton, Huc. tauto.
Qed.

(** No track and no cluster is matched twice, and every match comes from
    a triple of the list. *)
Lemma greedy_spec_props L : forall m,
  NoDup m.*1 -> NoDup m.*2 ->
  NoDup (greedy_spec L m).*1 /\ NoDup (greedy_spec L m).*2 /\
  forall tk, tk ∈ greedy_spec L m ->
    tk ∈ m \/ exists d, (d, tk.1, tk.2) ∈ L.
Proof.
  induction L as [|[[d t] k] L IH]; intros m H1 H2; simpl.
  - auto.
  - destruct (decide (t ∈ m.*1 \/ k ∈ m.*2)) as [Hin|Hnin].
    + destruct (IH m H1 H2) as (? & ? & Hel). split_and!; [done..|].
      intros tk [?|[d' ?]]%Hel; [by left|]. right. exists d'. by right.
    + destruct (IH (m ++ [(t, k)])) as (? & ? & Hel).
      * rewrite fmap_app. apply NoDup_app. split_and!; [done| |by apply NoDup_singleton].
        intros t' Ht' ->%list_elem_of_singleton. tauto.
      * rewrite fmap_app. apply NoDup_app. split_and!; [done| |by apply NoDup_singleton].
        intros k' Hk' ->%list_elem_of_singleton. tauto.
      * split_and!; [done..|].
        intros tk [[?| ->%list_elem_of_singleton]%elem_of_app|[d' ?]]%Hel.
        -- by left.
        -- right. exists d. by left.
        -- right. exists d'. by right.
Qed.

(** The three lists that [_assign] returns, in terms of the spec's walk
    over the sorted list of the code. *)
Lemma assign_unfold gate predicted clusters :
  let P := py_sort (all_pairs 0 (cost_matrix sqrt gate predicted clusters)) in
  _assign sqrt gate predicted clusters =
    (greedy_spec P [],
     filter (fun t => t ∉ (greedy_spec P []).*1) (seq 0 (length predicted)),
     filter (fun k => k ∉ (greedy_spec P []).*2) (seq 0 (length clusters))).
Proof.
  intros P. unfold _assign.
  destruct (sorted_pairs_spec gate predicted clusters) as [Hel _]. fold P in Hel.
  destruct (length predicted =? 0)%nat eqn:Et;
    [|destruct (length clusters =? 0)%nat eqn:Ek].
  - apply Nat.eqb_eq in Et. apply nil_length_inv in Et. subst predicted.
    assert (P = []) as ->.
    { apply elem_of_nil_inv. intros a (p & k & Hp & _)%Hel. done. }
    simpl. f_equal. symmetry. apply filter_all. intros; apply not_elem_of_nil.
  - apply Nat.eqb_eq in Ek. apply nil_length_inv in Ek. subst clusters.
    assert (P = []) as ->.
    { apply elem_of_nil_inv. intros a (p & k & _ & Hk & _)%Hel. done. }
    simpl. f_equal. f_equal. symmetry. apply filter_all.
    intros; apply not_elem_of_nil.
  - fold P.
    destruct (greedy_walk_is_spec P [] ∅ ∅) as (ut & uc & -> & Hut & Huc).
    + intros t. simpl. by rewrite elem_of_nil, elem_of_empty.
    + intros c. simpl. by rewrite elem_of_nil, elem_of_empty.
    + f_equal; [f_equal|]; apply list_filter_iff; intros i.
      * by rewrite Hut.
      * by rewrite Huc.
Qed.

(** C5.  The candidates (the triples [(cost, t, k)] with [cost] within the
    gate) have an ascending lexicographic list [L], and for every such
    list [_assign] returns the matches of the spec's walk over [L]
    (accept [(t, k)] exactly when neither is matched yet), with the
    tracks and the clusters it left unmatched. *)
Theorem assign_is_greedy (gate : Q) (predicted : list CartesianPoint.t)
    (clusters : list Cluster.t) :
  (exists L, (forall a, a ∈ L <-> is_candidate gate predicted clusters a) /\
             StronglySorted triple_lt L) /\
  forall L,
    (forall a, a ∈ L <-> is_candidate gate predicted clusters a) ->
    StronglySorted triple_lt L ->
    _assign sqrt gate predicted clusters =
      (greedy_spec L [],
       filter (fun t => t ∉ (greedy_spec L []).*1) (seq 0 (length predicted)),
       filter (fun k => k ∉ (greedy_spec L []).*2) (seq 0 (length clusters))).
Proof.
  destruct (sorted_pairs_spec gate predicted clusters) as [Hel Hsorted].
  split; [eauto|].
  intros L HL HLs.
  rewrite (sorted_unique L _ (fun a => iff_trans (HL a) (iff_sym (Hel a))) HLs Hsorted).
  apply assign_unfold.
Qed.

(** What the rest of [update] needs to know about the three lists. *)
Lemma assign_props gate predicted clusters ms uts ucs :
  _assign sqrt gate predicted clusters = (ms, uts, ucs) ->
  NoDup ms.*1 /\ NoDup ms.*2 /\
  (forall t k, (t, k) ∈ ms ->
     (t < length predicted)%nat /\ (k < length clusters)%nat) /\
  uts = filter (fun t => t ∉ ms.*1) (seq 0 (length predicted)) /\
  ucs = filter (fun k => k ∉ ms.*2) (seq 0 (length clusters)).
Proof.
  rewrite assign_unfold. intros [= <- <- <-].
  destruct (sorted_pairs_spec gate predicted clusters) as [Hel _].
  destruct (greedy_spec_props
              (py_sort (all_pairs 0 (cost_matrix sqrt gate predicted clusters))) [])
    as (H1 & H2 & Hin); [constructor..|].
  split_and!; [done..| |done|done].
  intros t k [?%elem_of_nil|[d Hd]]%Hin; [done|].
  apply Hel in Hd as (p & c & Hp & Hc & _). simpl in Hp, Hc.
  split; by eapply lookup_lt_Some.
Qed.

End Assign.

(** Two predictions and three clusters on a line: the pair at distance 0
    wins over the two at distance 5, and cluster 0 is left over. *)
Lemma assign_is_greedy_witness :
  let predicted := [CartesianPoint.mk 0 0; CartesianPoint.mk 10 0] in
  let clusters :=
    [Cluster.mk (CartesianPoint.mk 5 0) [] 100;
     Cluster.mk (CartesianPoint.mk 0 0) [] 100;
     Cluster.mk (CartesianPoint.mk 10 0) [] 100] in
  exists L,
    (forall a, a ∈ L <-> is_candidate Qsqrt 800 predicted clusters a) /\
    StronglySorted triple_lt L /\
    _assign Qsqrt 800 predicted clusters =
      (greedy_spec L [],
       filter (fun t => t ∉ (greedy_spec L []).*1) (seq 0 (length predicted)),
       filter (fun k => k ∉ (greedy_spec L []).*2) (seq 0 (length clusters))) /\
    _assign Qsqrt 800 predicted clusters
      = ([(0, 1); (1, 2)]%nat, [], [0%nat]).
Proof.
  intros predicted clusters.
  destruct (assign_is_greedy Qsqrt 800 predicted clusters) as [(L & HL & HS) H].
  exists L. split_and!; [exact HL|exact HS|exact (H L HL HS)|].
  vm_compute. reflexivity.
Defined.

(** *** The loops of [update] *)

Section Update.
Variable sqrt : Q -> Q.

Lemma apply_match_eq mc clusters tracks i k t c :
  tracks !! i = Some t -> clusters !! k = Some c ->
  apply_match mc clusters tracks (i, k)
    = Some (<[i := matched_track mc t c]> tracks).
Proof. intros Ht Hc. unfold apply_match. cbn [fst snd]. by rewrite Ht, Hc. Qed.

Lemma age_unmatched_eq tracks i t :
  tracks !! i = Some t ->
  age_unmatched tracks i = Some (<[i := aged_track t]> tracks).
Proof. intros Ht. unfold age_unmatched. by rewrite Ht. Qed.

Lemma spawn_eq mc clusters tracks nid k c :
  clusters !! k = Some c ->
  spawn mc clusters (tracks, nid) k
    = Some (tracks ++ [new_track mc nid c], nid + 1).
Proof. intros Hc. unfold spawn. by rewrite Hc. Qed.

(** The loop over [matches] rewrites each matched track once and leaves
    the others alone; it does not raise when the indices are in range. *)
Lemma apply_matches_spec mc clusters ms : forall tracks,
  NoDup ms.*1 ->
  (forall i k, (i, k) ∈ ms ->
     (i < length tracks)%nat /\ (k < length clusters)%nat) ->
  exists tracks1,
    fold_opt (apply_match mc clusters) ms tracks = Some tracks1 /\
    length tracks1 = length tracks /\
    (forall i, i ∉ ms.*1 -> tracks1 !! i = tracks !! i) /\
    (forall i k t c, (i, k) ∈ ms -> tracks !! i = Some t ->
       clusters !! k = Some c -> tracks1 !! i = Some (matched_track mc t c)).
Proof.
  induction ms as [|[i0 k0] ms IH]; intros tracks Hnd Hrange.
  - exists tracks. split_and!; [done..|]. by intros ???? ?%elem_of_nil.
  - rewrite fmap_cons in Hnd. cbn [fst] in Hnd.
    apply NoDup_cons in Hnd as [Hi0 Hnd].
    destruct (Hrange i0 k0) as [Hi Hk]; [by left|].
    destruct (lookup_lt_is_Some_2 tracks i0 Hi) as [t0 Ht0].
    destruct (lookup_lt_is_Some_2 clusters k0 Hk) as [c0 Hc0].
    rewrite fold_opt_cons, (apply_match_eq _ _ _ _ _ t0 c0), bind_Some_l by done.
    destruct (IH (<[i0 := matched_track mc t0 c0]> tracks) Hnd)
      as (tracks1 & -> & Hlen & Hout & Hin).
    { intros i k Hik. rewrite length_insert. apply Hrange. by right. }
    exists tracks1. rewrite length_insert in Hlen. split_and!; [done..| |].
    + rewrite fmap_cons. cbn [fst]. intros i [Hne Hi']%not_elem_of_cons.
      rewrite Hout by done. by apply list_lookup_insert_ne.
    + intros i k t c [[= -> ->]|Hik]%elem_of_cons Ht Hc.
      * rewrite Hout by done. rewrite list_lookup_insert_eq by done.
        congruence.
      * assert (i <> i0).
        { intros ->. apply Hi0. by apply (list_elem_of_fmap_2 fst) in Hik. }
        apply (Hin i k); [done| |done].
        by rewrite list_lookup_insert_ne.
Qed.

(** The loop over [unmatched_tracks]. *)
Lemma age_unmatched_spec uts : forall tracks,
  NoDup uts ->
  (forall i, i ∈ uts -> (i < length tracks)%nat) ->
  exists tracks2,
    fold_opt age_unmatched uts tracks = Some tracks2 /\
    length tracks2 = length tracks /\
    (forall i, i ∉ uts -> tracks2 !! i = tracks !! i) /\
    (forall i t, i ∈ uts -> tracks !! i = Some t ->
       tracks2 !! i = Some (aged_track t)).
Proof.
  induction uts as [|i0 uts IH]; intros tracks Hnd Hrange.
  - exists tracks. split_and!; [done..|]. by intros ?? ?%elem_of_nil.
  - apply NoDup_cons in Hnd as [Hi0 Hnd].
    assert (Hi : (i0 < length tracks)%nat) by (apply Hrange; by left).
    destruct (lookup_lt_is_Some_2 tracks i0 Hi) as [t0 Ht0].
    rewrite fold_opt_cons, (age_unmatched_eq _ _ t0), bind_Some_l by done.
    destruct (IH (<[i0 := aged_track t0]> tracks) Hnd)
      as (tracks2 & -> & Hlen & Hout & Hin).
    { intros i Hi'. rewrite length_insert. apply Hrange. by right. }
    exists tracks2. rewrite length_insert in Hlen. split_and!; [done..| |].
    + intros i [Hne Hi']%not_elem_of_cons.
      rewrite Hout by done. by apply list_lookup_insert_ne.
    + intros i t [->|Hi']%elem_of_cons Ht.
      * rewrite Hout by done. rewrite list_lookup_insert_eq by done.
        congruence.
      * assert (i <> i0) by (by intros ->).
        apply Hin; [done|]. by rewrite list_lookup_insert_ne.
Qed.

(** The loop over [unmatched_clusters] appends one track per cluster and
    hands out consecutive ids. *)
Lemma spawn_spec mc clusters ucs : forall tracks nid,
  (forall k, k ∈ ucs -> (k < length clusters)%nat) ->
  exists news,
    fold_opt (spawn mc clusters) ucs (tracks, nid)
      = Some (tracks ++ news, nid + Z.of_nat (length news)) /\
    length news = length ucs /\
    (forall j t, news !! j = Some t ->
       exists k c, ucs !! j = Some k /\ clusters !! k = Some c /\
                   t = new_track mc (nid + Z.of_nat j) c).
Proof.
  induction ucs as [|k0 ucs IH]; intros tracks nid Hrange.
  - exists []. cbn [fold_opt length]. rewrite app_nil_r, Z.add_0_r.
    split_and!; [done..|]. by intros ?? ?.
  - assert (Hk : (k0 < length clusters)%nat) by (apply Hrange; by left).
    destruct (lookup_lt_is_Some_2 clusters k0 Hk) as [c0 Hc0].
    rewrite fold_opt_cons, (spawn_eq _ _ _ _ _ c0), bind_Some_l by done.
    destruct (IH (tracks ++ [new_track mc nid c0]) (nid + 1))
      as (news & -> & Hlen & Hnew).
    { intros k ?. apply Hrange. by right. }
    exists (new_track mc nid c0 :: news). split_and!.
    + rewrite <- app_assoc. cbn [app length]. do 2 f_equal. lia.
    + cbn [length]. by rewrite Hlen.
    + intros [|j] t Hj.
      * injection Hj as <-. exists k0, c0. by rewrite Z.add_0_r.
      * destruct (Hnew j t Hj) as (k & c & ? & ? & ->).
        exists k, c. split_and!; [done..|]. f_equal. lia.
Qed.

(** [update_tracks] does not raise; what it leaves at the position of
    each track, and what it appends. *)
Lemma update_tracks_spec tr clusters ms uts ucs :
  _assign sqrt (_max_match_dist tr) (map predict (_tracks tr)) clusters
    = (ms, uts, ucs) ->
  exists tracks2 news,
    update_tracks sqrt tr clusters
      = Some (tracks2 ++ news, _next_id tr + Z.of_nat (length news)) /\
    length tracks2 = length (_tracks tr) /\
    (forall i k t c, (i, k) ∈ ms -> _tracks tr !! i = Some t ->
       clusters !! k = Some c ->
       tracks2 !! i = Some (matched_track (_min_confirm tr) t c)) /\
    (forall i t, i ∉ ms.*1 -> _tracks tr !! i = Some t ->
       tracks2 !! i = Some (aged_track t)) /\
    (forall j t, news !! j = Some t ->
       exists c, c ∈ clusters /\
                 t = new_track (_min_confirm tr) (_next_id tr + Z.of_nat j) c).
Proof.
  intros Hassign. unfold update_tracks. rewrite Hassign.
  apply assign_props in Hassign as (Hnd1 & _ & Hrange & -> & ->).
  rewrite length_map in Hrange.
  destruct (apply_matches_spec (_min_confirm tr) clusters ms (_tracks tr) Hnd1 Hrange)
    as (tracks1 & -> & Hlen1 & Hout1 & Hin1).
  rewrite bind_Some_l.
  destruct (age_unmatched_spec
              (filter (fun t => t ∉ ms.*1) (seq 0 (length (map predict (_tracks tr)))))
              tracks1) as (tracks2 & -> & Hlen2 & Hout2 & Hin2).
  { apply NoDup_filter, NoDup_seq. }
  { intros i [_ Hi%elem_of_seq]%list_elem_of_filter.
    rewrite length_map in Hi. lia. }
  rewrite bind_Some_l.
  destruct (spawn_spec (_min_confirm tr) clusters
              (filter (fun k => k ∉ ms.*2) (seq 0 (length clusters)))
              tracks2 (_next_id tr)) as (news & -> & Hlen3 & Hnew).
  { intros k [_ Hk%elem_of_seq]%list_elem_of_filter. lia. }
  exists tracks2, news. split_and!; [done|lia| | |].
  - intros i k t c Hik Ht Hc. rewrite Hout2.
    + by apply (Hin1 i k).
    + intros [Hi _]%list_elem_of_filter. apply Hi.
      by apply (list_elem_of_fmap_2 fst) in Hik.
  - intros i t Hi Ht. apply Hin2.
    + apply list_elem_of_filter. split; [done|].
      apply elem_of_seq. rewrite length_map.
      apply lookup_lt_Some in Ht. lia.
    + by rewrite Hout1.
  - intros j t Hj. destruct (Hnew j t Hj) as (k & c & _ & Hc & ->).
    exists c. split; [|done]. by eapply list_elem_of_lookup_2.
Qed.

(** [update] does not raise. *)
Lemma update_total tr clusters : is_Some (update sqrt tr clusters).
Proof.
  destruct (_assign sqrt (_max_match_dist tr) (map predict (_tracks tr)) clusters)
    as [[ms uts] ucs] eqn:E.
  destruct (update_tracks_spec tr clusters ms uts ucs E) as (t2 & news & H & _).
  unfold update. rewrite H. done.
Qed.

(** *** The invariant of a session *)

(** Ids are distinct, positive and below [_next_id]; no counter of missed
    frames is negative.  It holds after [__init__] and [update] keeps it. *)
Definition wf (tr : ObjectTracker) : Prop :=
  NoDup (_Track.track_id <$> _tracks tr) /\
  (forall t, t ∈ _tracks tr ->
     1 <= _Track.track_id t < _next_id tr /\ 0 <= _Track.missing_frames t) /\
  1 <= _next_id tr.

Lemma fresh_tracker_wf gate mm mc : wf (init gate mm mc).
Proof.
  unfold wf, init. simpl. split_and!; [constructor| |lia].
  by intros t ?%elem_of_nil.
Qed.

(** The anatomy of one [update]: [tracks2] holds the old tracks, each
    matched or aged in place; [news] the spawned ones. *)
Record anatomy (tr : ObjectTracker) (clusters : list Cluster.t)
    (ms : list (nat * nat)) (tr' : ObjectTracker)
    (objs : list TrackedObject.t) (tracks2 news : list _Track.t) : Prop :=
  mkAnatomy {
    an_tracks : update_tracks sqrt tr clusters
                = Some (tracks2 ++ news, _next_id tr + Z.of_nat (length news));
    an_length : length tracks2 = length (_tracks tr);
    an_matched : forall i k t c,
      (i, k) ∈ ms -> _tracks tr !! i = Some t -> clusters !! k = Some c ->
      tracks2 !! i = Some (matched_track (_min_confirm tr) t c);
    an_aged : forall i t,
      i ∉ ms.*1 -> _tracks tr !! i = Some t ->
      tracks2 !! i = Some (aged_track t);
    an_new : forall j t,
      news !! j = Some t ->
      exists c, c ∈ clusters /\
        t = new_track (_min_confirm tr) (_next_id tr + Z.of_nat j) c;
    an_range : forall i k, (i, k) ∈ ms ->
      (i < length (_tracks tr))%nat /\ (k < length clusters)%nat;
    an_alive : _tracks tr'
      = filter (fun t => _Track.missing_frames t <= _max_missing tr)
               (tracks2 ++ news);
    an_next : _next_id tr' = _next_id tr + Z.of_nat (length news);
    an_missing : _max_missing tr' = _max_missing tr;
    an_objs : objs
      = to_object <$> filter (fun t => _Track.confirmed t = true
                                       /\ _Track.missing_frames t = 0)
                             (_tracks tr') }.

Lemma update_anatomy tr clusters ms uts ucs tr' objs :
  _assign sqrt (_max_match_dist tr) (map predict (_tracks tr)) clusters
    = (ms, uts, ucs) ->
  update sqrt tr clusters = Some (tr', objs) ->
  exists tracks2 news, anatomy tr clusters ms tr' objs tracks2 news.
Proof.
  intros Hassign Hupd.
  destruct (update_tracks_spec tr clusters ms uts ucs Hassign)
    as (tracks2 & news & Hut & Hlen & Hm & Ha & Hn).
  exists tracks2, news. unfold update in Hupd. rewrite Hut, bind_Some_l in Hupd.
  injection Hupd as <- <-.
  apply assign_props in Hassign as (_ & _ & Hrange & _).
  rewrite length_map in Hrange.
  by constructor.
Qed.

Section Anatomy.
Context {tr : ObjectTracker} {clusters : list Cluster.t}
        {ms : list (nat * nat)} {tr' : ObjectTracker}
        {objs : list TrackedObject.t} {tracks2 news : list _Track.t}.
Hypothesis A : anatomy tr clusters ms tr' objs tracks2 news.

(** Where a track at position [i] of [tracks2] comes from. *)
Lemma tracks2_origin i t' :
  tracks2 !! i = Some t' ->
  exists t, _tracks tr !! i = Some t /\
    _Track.track_id t' = _Track.track_id t /\
    ((exists k c, (i, k) ∈ ms /\ clusters !! k = Some c /\
                  t' = matched_track (_min_confirm tr) t c) \/
     ((i ∉ ms.*1) /\ t' = aged_track t)).
Proof.
  intros Hi. pose proof (lookup_lt_Some _ _ _ Hi) as Hlt.
  rewrite (an_length _ _ _ _ _ _ _ A) in Hlt.
  destruct (lookup_lt_is_Some_2 _ _ Hlt) as [t Ht]. exists t. split; [done|].
  destruct (decide (i ∈ ms.*1)) as [Hin|Hnin].
  - apply list_elem_of_fmap in Hin as ([i' k] & -> & Hik). simpl in *.
    destruct (an_range _ _ _ _ _ _ _ A _ _ Hik) as [_ Hk].
    destruct (lookup_lt_is_Some_2 _ _ Hk) as [c Hc].
    pose proof (an_matched _ _ _ _ _ _ _ A _ _ _ _ Hik Ht Hc) as Hm.
    rewrite Hi in Hm. injection Hm as ->. split; [done|]. left. by exists k, c.
  - pose proof (an_aged _ _ _ _ _ _ _ A _ _ Hnin Ht) as Ha.
    rewrite Hi in Ha. injection Ha as ->. split; [done|]. by right.
Qed.

Lemma tracks2_ids :
  _Track.track_id <$> tracks2 = _Track.track_id <$> _tracks tr.
Proof.
  apply list_eq. intros i. rewrite !list_lookup_fmap.
  destruct (tracks2 !! i) as [t'|] eqn:Hi.
  - destruct (tracks2_origin i t' Hi) as (t & Ht & Hid & _).
    rewrite Ht. simpl. by rewrite Hid.
  - apply lookup_ge_None in Hi. rewrite (an_length _ _ _ _ _ _ _ A) in Hi.
    apply lookup_ge_None in Hi. by rewrite Hi.
Qed.

Lemma news_ids :
  _Track.track_id <$> news = seqZ (_next_id tr) (Z.of_nat (length news)).
Proof.
  apply list_eq. intros j. rewrite list_lookup_fmap.
  destruct (news !! j) as [t|] eqn:Hj.
  - destruct (an_new _ _ _ _ _ _ _ A _ _ Hj) as (c & _ & ->). simpl.
    apply lookup_lt_Some in Hj. by rewrite lookup_seqZ_lt by lia.
  - apply lookup_ge_None in Hj. by rewrite lookup_seqZ_ge by lia.
Qed.

Lemma spawned_news : spawned sqrt tr clusters = news.
Proof.
  unfold spawned. rewrite (an_tracks _ _ _ _ _ _ _ A). simpl.
  apply drop_app_length'. symmetry. apply (an_length _ _ _ _ _ _ _ A).
Qed.

Lemma elem_of_tracks' t' :
  t' ∈ _tracks tr' <->
  _Track.missing_frames t' <= _max_missing tr /\ (t' ∈ tracks2 \/ t' ∈ news).
Proof.
  rewrite (an_alive _ _ _ _ _ _ _ A), list_elem_of_filter, elem_of_app. done.
Qed.

Lemma update_keeps_wf : wf tr -> wf tr'.
Proof.
  intros (Hnd & Hids & Hnext). unfold wf.
  rewrite (an_next _ _ _ _ _ _ _ A). split_and!; [| |lia].
  - rewrite (an_alive _ _ _ _ _ _ _ A).
    apply (sublist_NoDup _ (_Track.track_id <$> (tracks2 ++ news)));
      [|apply fmap_sublist, sublist_filter].
    rewrite fmap_app, tracks2_ids, news_ids. apply NoDup_app.
    split_and!; [done| |apply NoDup_seqZ].
    intros id (t & -> & Ht)%list_elem_of_fmap Hin%elem_of_seqZ.
    apply Hids in Ht. lia.
  - intros t' [_ [Ht'|Ht']]%elem_of_tracks'.
    + apply list_elem_of_lookup in Ht' as [i Hi].
      destruct (tracks2_origin i t' Hi) as (t & Ht & -> & Hcase).
      apply list_elem_of_lookup_2, Hids in Ht.
      destruct Hcase as [(k & c & _ & _ & ->)|[_ ->]]; simpl; lia.
    + apply list_elem_of_lookup in Ht' as [j Hj].
      pose proof (lookup_lt_Some _ _ _ Hj).
      destruct (an_new _ _ _ _ _ _ _ A _ _ Hj) as (c & _ & ->). simpl. lia.
Qed.

(** A track of the new state that carries the id of the old track at
    position [i] is what the loops left at position [i]. *)
Lemma surviving_track i t t' :
  wf tr ->
  _tracks tr !! i = Some t -> t' ∈ _tracks tr' ->
  _Track.track_id t' = _Track.track_id t ->
  tracks2 !! i = Some t'.
Proof.
  intros (Hnd & Hids & _) Ht [_ [Ht'|Ht']]%elem_of_tracks' Hid.
  - apply list_elem_of_lookup in Ht' as [j Hj].
    destruct (tracks2_origin j t' Hj) as (tj & Htj & Hidj & _).
    assert (j = i) as ->; [|done].
    apply (NoDup_lookup _ _ _ (_Track.track_id t) Hnd);
      rewrite list_lookup_fmap; [rewrite Htj|rewrite Ht]; simpl; congruence.
  - apply list_elem_of_lookup in Ht' as [j Hj].
    destruct (an_new _ _ _ _ _ _ _ A _ _ Hj) as (c & _ & ->). simpl in Hid.
    apply list_elem_of_lookup_2, Hids in Ht. lia.
Qed.

(** A track of the new state whose id no old track has was spawned. *)
Lemma fresh_track t' :
  t' ∈ _tracks tr' ->
  (forall t, t ∈ _tracks tr -> _Track.track_id t <> _Track.track_id t') ->
  t' ∈ news.
Proof.
  intros [_ [Ht'|Ht']]%elem_of_tracks' Hfresh; [|done].
  apply list_elem_of_lookup in Ht' as [i Hi].
  destruct (tracks2_origin i t' Hi) as (t & Ht & Hid & _).
  destruct (Hfresh t); [by eapply list_elem_of_lookup_2|done].
Qed.

End Anatomy.

Lemma match_unique (ms : list (nat * nat)) i k k' :
  NoDup ms.*1 -> (i, k) ∈ ms -> (i, k') ∈ ms -> k = k'.
Proof.
  intros Hnd [j Hj]%list_elem_of_lookup [j' Hj']%list_elem_of_lookup.
  assert (j = j') as ->.
  { apply (NoDup_lookup _ _ _ i Hnd); rewrite list_lookup_fmap;
      [by rewrite Hj|by rewrite Hj']. }
  congruence.
Qed.

(** C6.  In a state of a session ([wf]), for a pair [(i, k)] of the
    matches of [update]: the track of the new state with the id of the old
    track [i] has as velocity the centroid of cluster [k] minus the old
    centroid, componentwise, and as centroid the centroid of cluster [k];
    so has the object published for it.  The track is still there unless
    [max_missing_frames] is negative. *)
Theorem matched_track_velocity (tr : ObjectTracker) (clusters : list Cluster.t)
    (tr' : ObjectTracker) (objs : list TrackedObject.t) (i k : nat)
    (t : _Track.t) (c : Cluster.t) :
  wf tr ->
  update sqrt tr clusters = Some (tr', objs) ->
  (i, k) ∈ (_assign sqrt (_max_match_dist tr) (map predict (_tracks tr))
              clusters).1.1 ->
  _tracks tr !! i = Some t ->
  clusters !! k = Some c ->
  let q := Cluster.centroid c in
  let p := _Track.centroid t in
  let v := CartesianPoint.mk (CartesianPoint.x q - CartesianPoint.x p)
                             (CartesianPoint.y q - CartesianPoint.y p) in
  (forall t', t' ∈ _tracks tr' -> _Track.track_id t' = _Track.track_id t ->
     _Track.velocity t' = v /\ _Track.centroid t' = q) /\
  (forall o, o ∈ objs -> TrackedObject.object_id o = _Track.track_id t ->
     TrackedObject.velocity o = v /\ TrackedObject.centroid o = q) /\
  (0 <= _max_missing tr ->
     exists t', t' ∈ _tracks tr' /\ _Track.track_id t' = _Track.track_id t).
Proof.
  intros Hwf Hupd Hik Ht Hc q p v.
  destruct (_assign sqrt (_max_match_dist tr) (map predict (_tracks tr)) clusters)
    as [[ms uts] ucs] eqn:E.
  simpl in Hik.
  destruct (update_anatomy tr clusters ms uts ucs tr' objs E Hupd)
    as (tracks2 & news & A).
  pose proof (an_matched _ _ _ _ _ _ _ A _ _ _ _ Hik Ht Hc) as Hm.
  assert (Hlaw : forall t', t' ∈ _tracks tr' ->
            _Track.track_id t' = _Track.track_id t ->
            _Track.velocity t' = v /\ _Track.centroid t' = q).
  { intros t' Ht' Hid.
    pose proof (surviving_track A i t t' Hwf Ht Ht' Hid) as Hi.
    rewrite Hi in Hm. injection Hm as ->. done. }
  split_and!; [done| |].
  - intros o Ho Hid. rewrite (an_objs _ _ _ _ _ _ _ A) in Ho.
    apply list_elem_of_fmap in Ho as (t' & -> & [_ Ht']%list_elem_of_filter).
    by apply Hlaw.
  - intros Hmax. exists (matched_track (_min_confirm tr) t c). split; [|done].
    apply (elem_of_tracks' A). split; [done|]. left.
    by eapply list_elem_of_lookup_2.
Qed.

(** C2, amended.  In a state of a session, for a track that existed
    before the [update] and is still there after it: [missing_frames] is 0
    if and only if the track was matched to a cluster by this [update].  A
    track that this [update] created has [missing_frames] 0 without having
    been matched. *)
Theorem missing_frames_zero_iff_matched (tr : ObjectTracker)
    (clusters : list Cluster.t) (tr' : ObjectTracker)
    (objs : list TrackedObject.t) :
  wf tr ->
  update sqrt tr clusters = Some (tr', objs) ->
  let matches :=
    (_assign sqrt (_max_match_dist tr) (map predict (_tracks tr)) clusters).1.1 in
  (forall i t t',
     _tracks tr !! i = Some t -> t' ∈ _tracks tr' ->
     _Track.track_id t' = _Track.track_id t ->
     (_Track.missing_frames t' = 0 <-> exists k, (i, k) ∈ matches)) /\
  (forall t',
     t' ∈ _tracks tr' ->
     (forall t, t ∈ _tracks tr -> _Track.track_id t <> _Track.track_id t') ->
     _Track.missing_frames t' = 0).
Proof.
  intros Hwf Hupd matches. unfold matches.
  destruct (_assign sqrt (_max_match_dist tr) (map predict (_tracks tr)) clusters)
    as [[ms uts] ucs] eqn:E.
  simpl.
  destruct (update_anatomy tr clusters ms uts ucs tr' objs E Hupd)
    as (tracks2 & news & A).
  split.
  - intros i t t' Ht Ht' Hid.
    pose proof (surviving_track A i t t' Hwf Ht Ht' Hid) as Hi.
    destruct (tracks2_origin A i t' Hi) as (t0 & Ht0 & _ & Hcase).
    assert (t0 = t) as -> by congruence.
    destruct Hcase as [(k & c & Hik & _ & ->)|[Hnin ->]].
    + split; [eauto|done].
    + destruct Hwf as (_ & Hids & _).
      apply list_elem_of_lookup_2, Hids in Ht. simpl. split; [lia|].
      intros [k Hik]. destruct Hnin.
      by apply (list_elem_of_fmap_2 fst) in Hik.
  - intros t' Ht' Hfresh.
    apply (fresh_track A) in Ht'; [|done].
    apply list_elem_of_lookup in Ht' as [j Hj].
    by destruct (an_new _ _ _ _ _ _ _ A _ _ Hj) as (c & _ & ->).
Qed.

(** One [update] in a session: it does not raise, keeps the invariant and
    gives the spawned tracks the ids from [_next_id] on. *)
Lemma update_step tr clusters :
  wf tr ->
  exists tr' objs,
    update sqrt tr clusters = Some (tr', objs) /\ wf tr' /\
    _next_id tr <= _next_id tr' /\
    _Track.track_id <$> spawned sqrt tr clusters
      = seqZ (_next_id tr) (_next_id tr' - _next_id tr) /\
    NoDup (TrackedObject.object_id <$> objs) /\
    (forall o, o ∈ objs -> 1 <= TrackedObject.object_id o < _next_id tr').
Proof.
  intros Hwf. destruct (update_total tr clusters) as [[tr' objs] Hupd].
  exists tr', objs. split; [done|].
  destruct (_assign sqrt (_max_match_dist tr) (map predict (_tracks tr)) clusters)
    as [[ms uts] ucs] eqn:E.
  destruct (update_anatomy tr clusters ms uts ucs tr' objs E Hupd)
    as (tracks2 & news & A).
  pose proof (update_keeps_wf A Hwf) as Hwf'.
  pose proof (an_next _ _ _ _ _ _ _ A) as Hnext.
  split_and!; [done|lia| | |].
  - rewrite (spawned_news A), (news_ids A). f_equal. lia.
  - rewrite (an_objs _ _ _ _ _ _ _ A), <- list_fmap_compose.
    destruct Hwf' as (Hnd & _).
    apply (sublist_NoDup _ _ Hnd). apply fmap_sublist, sublist_filter.
  - intros o Ho. rewrite (an_objs _ _ _ _ _ _ _ A) in Ho.
    apply list_elem_of_fmap in Ho as (t' & -> & [_ Ht']%list_elem_of_filter).
    destruct Hwf' as (_ & Hids & _). apply Hids in Ht'. simpl. lia.
Qed.

Lemma run_spec frames : forall tr,
  wf tr ->
  exists tr' outs,
    run sqrt tr frames = Some (tr', outs) /\ wf tr' /\
    _next_id tr <= _next_id tr' /\
    _Track.track_id <$> spawned_in_run sqrt tr frames
      = seqZ (_next_id tr) (_next_id tr' - _next_id tr) /\
    (forall objs, objs ∈ outs ->
       NoDup (TrackedObject.object_id <$> objs) /\
       forall o, o ∈ objs -> 1 <= TrackedObject.object_id o < _next_id tr').
Proof.
  induction frames as [|clusters frames IH]; intros tr Hwf.
  - exists tr, []. cbn [run spawned_in_run]. split_and!; [done|done|lia| |].
    + by rewrite seqZ_nil by lia.
    + by intros objs ?%elem_of_nil.
  - destruct (update_step tr clusters Hwf)
      as (tr1 & objs1 & Hupd & Hwf1 & Hle1 & Hborn1 & Hnd1 & Hids1).
    destruct (IH tr1 Hwf1) as (tr' & outs & Hrun & Hwf' & Hle & Hborn & Houts).
    exists tr', (objs1 :: outs). cbn [run spawned_in_run].
    rewrite Hupd. cbn [fst snd]. rewrite bind_Some_l. cbn [fst snd].
    rewrite Hrun, bind_Some_l. cbn [fst snd].
    split_and!; [done|done|lia| |].
    + rewrite fmap_app, Hborn1, Hborn.
      replace (_next_id tr' - _next_id tr)
        with ((_next_id tr1 - _next_id tr) + (_next_id tr' - _next_id tr1)) by lia.
      rewrite seqZ_app by lia. do 2 f_equal. lia.
    + intros objs [->|Hin]%elem_of_cons; [|by apply Houts].
      split; [done|]. intros o Ho. apply Hids1 in Ho. lia.
Qed.

(** C4.  A session from a fresh tracker does not raise; the tracks it
    creates get, in creation order, the ids 1, 2, 3, ...: every id is a
    positive integer, no two created tracks share one, none is used again
    after its track is retired.  Every published object, and every live
    track, carries the id of a created track; the objects of one frame
    have distinct ids. *)
Theorem track_ids_never_reused (gate : Q) (max_missing min_confirm : Z)
    (frames : list (list Cluster.t)) :
  exists tr outs,
    run sqrt (init gate max_missing min_confirm) frames = Some (tr, outs) /\
    let born := spawned_in_run sqrt (init gate max_missing min_confirm) frames in
    _Track.track_id <$> born = seqZ 1 (Z.of_nat (length born)) /\
    NoDup (_Track.track_id <$> born) /\
    (forall t, t ∈ born -> 1 <= _Track.track_id t) /\
    (forall objs o, objs ∈ outs -> o ∈ objs ->
       1 <= TrackedObject.object_id o /\
       TrackedObject.object_id o ∈ _Track.track_id <$> born) /\
    (forall objs, objs ∈ outs -> NoDup (TrackedObject.object_id <$> objs)) /\
    (forall t, t ∈ _tracks tr ->
       _Track.track_id t ∈ _Track.track_id <$> born).
Proof.
  destruct (run_spec frames (init gate max_missing min_confirm)
              (fresh_tracker_wf gate max_missing min_confirm))
    as (tr & outs & Hrun & Hwf & Hle & Hborn & Houts).
  exists tr, outs. split; [done|]. intros born. fold born in Hborn.
  change (_next_id (init gate max_missing min_confirm)) with 1 in *.
  assert (Hlen : Z.of_nat (length born) = _next_id tr - 1).
  { rewrite <- (length_fmap _Track.track_id), Hborn, length_seqZ. lia. }
  split_and!.
  - by rewrite Hlen.
  - rewrite Hborn. apply NoDup_seqZ.
  - intros t Ht. apply (list_elem_of_fmap_2 _Track.track_id) in Ht.
    rewrite Hborn in Ht. apply elem_of_seqZ in Ht. lia.
  - intros objs o Hobjs Ho. destruct (Houts objs Hobjs) as [_ Hids].
    apply Hids in Ho. split; [lia|]. rewrite Hborn. apply elem_of_seqZ. lia.
  - intros objs Hobjs. by destruct (Houts objs Hobjs).
  - intros t Ht. destruct Hwf as (_ & Hids & _). apply Hids in Ht.
    rewrite Hborn. apply elem_of_seqZ. lia.
Qed.

(** Every state of a session satisfies the invariant. *)
Lemma run_wf gate mm mc frames tr outs :
  run sqrt (init gate mm mc) frames = Some (tr, outs) -> wf tr.
Proof.
  intros Hrun.
  destruct (run_spec frames (init gate mm mc) (fresh_tracker_wf gate mm mc))
    as (tr1 & outs1 & Hrun1 & Hwf & _).
  congruence.
Qed.

End Update.

(** *** Instances *)

Definition cluster_at (x y : Q) : Cluster.t :=
  Cluster.mk (CartesianPoint.mk x y) [] 100.

(** The tracker after one frame with a cluster at (1000, 1000). *)
Definition one_track : ObjectTracker :=
  {| _max_match_dist := 800; _max_missing := 10; _min_confirm := 1;
     _next_id := 2;
     _tracks := [new_track 1 1 (cluster_at 1000 1000)] |}.

Lemma one_track_reached :
  run Qsqrt (init 800 10 1) [[cluster_at 1000 1000]]
  = Some (one_track, [[to_object (new_track 1 1 (cluster_at 1000 1000))]]).
Proof. vm_compute. reflexivity. Qed.

(** The track at (1000, 1000) is matched to a cluster at (1100, 1000): its
    velocity becomes (100, 0). *)
Lemma matched_track_velocity_witness :
  exists tr' objs,
    update Qsqrt one_track [cluster_at 1100 1000] = Some (tr', objs) /\
    (forall t', t' ∈ _tracks tr' -> _Track.track_id t' = 1 ->
       _Track.velocity t' = CartesianPoint.mk (1100 - 1000) (1000 - 1000) /\
       _Track.centroid t' = CartesianPoint.mk 1100 1000) /\
    (exists t', t' ∈ _tracks tr' /\ _Track.track_id t' = 1).
Proof.
  destruct (update_total Qsqrt one_track [cluster_at 1100 1000])
    as [[tr' objs] Hupd].
  exists tr', objs. split; [exact Hupd|].
  destruct (matched_track_velocity Qsqrt one_track [cluster_at 1100 1000]
              tr' objs 0 0 (new_track 1 1 (cluster_at 1000 1000))
              (cluster_at 1100 1000)) as (H1 & _ & H3).
  - exact (run_wf Qsqrt 800 10 1 _ _ _ one_track_reached).
  - exact Hupd.
  - vm_compute. left.
  - reflexivity.
  - reflexivity.
  - split; [exact H1|]. apply H3. vm_compute. discriminate.
Defined.

(** The same update: the old track, matched at position 0, has
    [missing_frames] 0. *)
Lemma missing_frames_zero_iff_matched_witness :
  exists tr' objs,
    update Qsqrt one_track [cluster_at 1100 1000] = Some (tr', objs) /\
    forall t', t' ∈ _tracks tr' -> _Track.track_id t' = 1 ->
      (_Track.missing_frames t' = 0 <->
       exists k, (0%nat, k) ∈
         (_assign Qsqrt 800 (map predict (_tracks one_track))
            [cluster_at 1100 1000]).1.1).
Proof.
  destruct (update_total Qsqrt one_track [cluster_at 1100 1000])
    as [[tr' objs] Hupd].
  exists tr', objs. split; [exact Hupd|].
  destruct (missing_frames_zero_iff_matched Qsqrt one_track
              [cluster_at 1100 1000] tr' objs) as (H1 & _).
  - exact (run_wf Qsqrt 800 10 1 _ _ _ one_track_reached).
  - exact Hupd.
  - intros t' Ht' Hid.
    exact (H1 0%nat (new_track 1 1 (cluster_at 1000 1000)) t' eq_refl Ht' Hid).
Defined.

(** C2 as stated fails: the first [update] of a fresh tracker matches
    nothing, and the track it creates has [missing_frames] 0. *)
Lemma new_track_unmatched_counterexample :
  exists tr' objs t',
    update Qsqrt (init 800 10 2) [cluster_at 1000 1000] = Some (tr', objs) /\
    t' ∈ _tracks tr' /\
    _Track.missing_frames t' = 0 /\
    (_assign Qsqrt 800 (map predict (_tracks (init 800 10 2)))
       [cluster_at 1000 1000]).1.1 = [].
Proof.
  eexists _, _, (new_track 2 1 (cluster_at 1000 1000)).
  split_and!; [vm_compute; reflexivity| |reflexivity|reflexivity].
  vm_compute. left.
Qed.

End TrackerFacts.

(** ** clustering.py *)

Module ClusteringFacts.
Import Clustering.

Section Emitted.
Variable sqrt : Q -> Q.

(** A cluster that the loop body appends passed the radius test and has a
    member: the maximum over no member raises. *)
Lemma make_cluster_emitted xy labels R label c :
  make_cluster sqrt xy labels R label = Some (Some c) ->
  (Cluster.bounding_radius_mm c <= R)%Q /\
  (1 <= length (Cluster.points c))%nat /\
  Cluster.points c
    = map (fun row => CartesianPoint.mk row.1 row.2) (masked xy labels label).
Proof.
  unfold make_cluster.
  destruct (masked xy labels label) as [|p ps] eqn:E; [done|].
  cbn [floats_max map]. rewrite bind_Some_l.
  match goal with |- context [Qgtb ?r R] => destruct (Qgtb r R) eqn:Er end;
    [done|].
  intros [= <-]. cbn [Cluster.bounding_radius_mm Cluster.points length].
  split_and!; [by apply Qgtb_false|lia|done].
Qed.

Lemma emit_clusters_emitted xy labels R todo : forall cs c,
  emit_clusters sqrt xy labels R todo = Some cs ->
  c ∈ cs ->
  exists label, label ∈ todo /\
    make_cluster sqrt xy labels R label = Some (Some c).
Proof.
  induction todo as [|label todo IH]; intros cs c; cbn [emit_clusters].
  - intros [= <-] ?%elem_of_nil. done.
  - destruct (make_cluster sqrt xy labels R label) as [oc|] eqn:E; [|done].
    rewrite bind_Some_l.
    destruct (emit_clusters sqrt xy labels R todo) as [cs'|]; [|done].
    rewrite bind_Some_l. intros [= <-] Hc.
    destruct oc as [c0|].
    + apply elem_of_cons in Hc as [->|Hc].
      * exists label. split; [by left|done].
      * destruct (IH cs' c eq_refl Hc) as (l & ? & ?).
        exists l. split; [by right|done].
    + destruct (IH cs' c eq_refl Hc) as (l & ? & ?).
      exists l. split; [by right|done].
Qed.

(** C1, amended.  Every cluster that [cluster_points] returns has a
    bounding radius of at most [max_cluster_radius_mm] and at least one
    point. *)
Theorem cluster_points_emitted (points : list CartesianPoint.t) (eps_mm : Q)
    (min_samples : Z) (max_cluster_radius_mm : Q)
    (clusters : list Cluster.t) (c : Cluster.t) :
  cluster_points sqrt points eps_mm min_samples max_cluster_radius_mm
    = Some clusters ->
  c ∈ clusters ->
  (Cluster.bounding_radius_mm c <= max_cluster_radius_mm)%Q /\
  (1 <= length (Cluster.points c))%nat.
Proof.
  unfold cluster_points.
  destruct (Z.of_nat (length points) <? min_samples).
  { intros [= <-] ?%elem_of_nil. done. }
  destruct (_grid_dbscan _ eps_mm min_samples) as [labels|]; [|done].
  rewrite bind_Some_l.
  destruct (labels_max labels) as [top|]; [|done].
  rewrite bind_Some_l. intros Hemit Hc.
  destruct (emit_clusters_emitted _ _ _ _ _ _ Hemit Hc) as (label & _ & Hmk).
  apply make_cluster_emitted in Hmk as (? & ? & _). done.
Qed.

End Emitted.

(** Seven points on a line, [eps_mm = 1] and [min_samples = 4]. *)
Definition border_points : list CartesianPoint.t :=
  map (fun q => CartesianPoint.mk q 0)
      [0; -1 # 2; -3 # 5; 1; 2; 5 # 2; 13 # 5]%Q.

(** The clusters of [border_points]: the four points up to 1, and the
    three from 2 on. *)
Lemma border_points_clusters :
  option_map (map (fun c => map CartesianPoint.x (Cluster.points c)))
    (cluster_points Qsqrt border_points 1 4 500)
  = Some [[0; -1 # 2; -3 # 5; 1]; [2; 5 # 2; 13 # 5]]%Q.
Proof. vm_compute. reflexivity. Qed.

Lemma cluster_points_emitted_witness :
  Forall (fun c => (Cluster.bounding_radius_mm c <= 500)%Q /\
                   (1 <= length (Cluster.points c))%nat)
         (default [] (cluster_points Qsqrt border_points 1 4 500)).
Proof.
  apply Forall_forall. intros c Hc.
  destruct (cluster_points Qsqrt border_points 1 4 500) as [cs|] eqn:E.
  - exact (cluster_points_emitted Qsqrt border_points 1 4 500 cs c E Hc).
  - apply elem_of_nil in Hc. destruct Hc.
Defined.

(** C1 as stated fails on the size: the point at 2 has four points within
    [eps_mm] (1, 2, 2.5 and 2.6) and seeds the second cluster, but the
    point at 1 already belongs to the first one, so the second cluster is
    emitted, within the radius, with three points for [min_samples = 4]. *)
Lemma small_cluster_counterexample :
  exists clusters c,
    cluster_points Qsqrt border_points 1 4 500 = Some clusters /\
    c ∈ clusters /\
    (Cluster.bounding_radius_mm c <= 500)%Q /\
    (Z.of_nat (length (Cluster.points c)) < 4)%Z.
Proof.
  assert (option_map
            (map (fun c => (length (Cluster.points c),
                            Qle_bool (Cluster.bounding_radius_mm c) 500)))
            (cluster_points Qsqrt border_points 1 4 500)
          = Some [(4%nat, true); (3%nat, true)]) as H
    by (vm_compute; reflexivity).
  destruct (cluster_points Qsqrt border_points 1 4 500) as [cs|]; [|done].
  destruct cs as [|c1 [|c2 [|]]]; try done.
  injection H as _ _ Hlen Hrad.
  exists [c1; c2], c2. split; [done|]. split; [by right; left|].
  split; [by apply Qle_bool_iff|lia].
Qed.

(** One point is all that can be said of the size.  Three groups, each a
    core point with two close companions and one border point next to the
    origin; the origin comes last, has the three border points and itself
    within [eps_mm = 1], and forms a cluster alone for [min_samples = 4]. *)
Definition star_points : list CartesianPoint.t :=
  map (fun p : Q * Q => CartesianPoint.mk p.1 p.2)
      [(-2, 0); (-5 # 2, 0); (-13 # 5, 0);
       (2, 0); (5 # 2, 0); (13 # 5, 0);
       (0, 2); (0, 5 # 2); (0, 13 # 5);
       (-1, 0); (1, 0); (0, 1); (0, 0)]%Q.

Lemma star_points_clusters :
  option_map (map (fun c => length (Cluster.points c)))
    (cluster_points Qsqrt star_points 1 4 500)
  = Some [4; 4; 4; 1]%nat.
Proof. vm_compute. reflexivity. Qed.

(** *** [cluster_points] does not raise *)

(** The labels still at [-1]. *)
Definition unlabelled (labels : list Z) : nat :=
  length (filter (fun l => l = -1) labels).

Lemma unlabelled_le labels : (unlabelled labels <= length labels)%nat.
Proof. apply length_filter. Qed.

Lemma unlabelled_insert labels : forall q l c,
  labels !! q = Some l -> c <> -1 ->
  unlabelled labels
  = ((if decide (l = -1)%Z then 1 else 0) + unlabelled (<[q := c]> labels))%nat.
Proof.
  unfold unlabelled.
  induction labels as [|l0 labels IH]; intros q l c Hq Hc; [done|].
  destruct q as [|q].
  - injection Hq as ->. cbn [list_insert Datatypes.length].
    change (<[0%nat := c]> (l :: labels)) with (c :: labels).
    rewrite !filter_cons. destruct (decide (c = -1)); [done|].
    destruct (decide (l = -1)); simpl; lia.
  - change (<[S q := c]> (l0 :: labels)) with (l0 :: <[q := c]> labels).
    rewrite !filter_cons. simpl in Hq. specialize (IH q l c Hq Hc).
    destruct (decide (l0 = -1)); simpl; lia.
Qed.

Lemma length_concat_map {A B} (f : A -> list B) (b : nat) (l : list A) :
  (forall a, (length (f a) <= b)%nat) ->
  (length (concat (map f l)) <= length l * b)%nat.
Proof.
  intros Hf. induction l as [|a l IH]; simpl; [lia|].
  rewrite length_app. specialize (Hf a). lia.
Qed.

Lemma elem_of_concat_map {A B} (f : A -> list B) (l : list A) y :
  y ∈ concat (map f l) -> exists a, y ∈ f a.
Proof.
  induction l as [|a l IH]; simpl; [by intros ?%elem_of_nil|].
  intros [?|?]%elem_of_app; eauto.
Qed.

Lemma foldr_Zmax_elem l ls : foldr Z.max l ls ∈ l :: ls.
Proof.
  induction ls as [|a ls IH]; simpl; [by left|].
  destruct (Z.max_spec a (foldr Z.max l ls)) as [[_ ->]|[_ ->]].
  - apply elem_of_cons in IH as [->|?]; [by left|by right; right].
  - by right; left.
Qed.

Lemma foldr_Zmax_ub l ls x : x ∈ l :: ls -> x <= foldr Z.max l ls.
Proof.
  induction ls as [|a ls IH]; simpl.
  - intros ->%list_elem_of_singleton. lia.
  - intros [->|[->|Hx]%elem_of_cons]%elem_of_cons.
    + assert (l <= foldr Z.max l ls) by (apply IH; by left). lia.
    + lia.
    + assert (x <= foldr Z.max l ls) by (apply IH; by right). lia.
Qed.

Lemma elem_of_py_range k L : L ∈ py_range k <-> 0 <= L < k.
Proof.
  unfold py_range. rewrite map_is_fmap. rewrite list_elem_of_fmap. split.
  - intros (i & -> & Hi%elem_of_seq). lia.
  - intros HL. exists (Z.to_nat L). split; [lia|]. apply elem_of_seq. lia.
Qed.

Section Total.
Variable xy : list (Q * Q).
Variable cell_size : Q.
Hypothesis cell_size_nonzero : Qeq_bool cell_size 0 = false.

(** Every cell holds at most [bound] indices, all of them indices of
    [xy]. *)
Definition grid_ok (bound : nat) (cells : grid) : Prop :=
  forall key l, cells !! key = Some l ->
    (length l <= bound)%nat /\ forall j, j ∈ l -> (j < length xy)%nat.

Lemma cells_get_ok bound cells key :
  grid_ok bound cells ->
  (length (cells_get cells key) <= bound)%nat /\
  forall j, j ∈ cells_get cells key -> (j < length xy)%nat.
Proof.
  intros Hok. unfold cells_get.
  destruct (cells !! key) as [l|] eqn:E; simpl.
  - by apply (Hok key).
  - split; [lia|]. by intros j ?%elem_of_nil.
Qed.

Lemma build_cells_total idxs : forall cells bound,
  grid_ok bound cells ->
  (forall i, i ∈ idxs -> (i < length xy)%nat) ->
  exists cells',
    build_cells xy cell_size idxs cells = Some cells' /\
    grid_ok (bound + length idxs) cells'.
Proof.
  induction idxs as [|i idxs IH]; intros cells bound Hok Hidx.
  - exists cells. split; [done|]. by rewrite Nat.add_0_r.
  - cbn [build_cells].
    destruct (lookup_lt_is_Some_2 xy i) as [p Hp]; [apply Hidx; by left|].
    rewrite Hp, bind_Some_l. unfold cell_of. rewrite cell_size_nonzero.
    rewrite bind_Some_l.
    set (key := (py_floordiv p.1 cell_size, py_floordiv p.2 cell_size)).
    destruct (IH (<[key := cells_get cells key ++ [i]]> cells) (S bound))
      as (cells' & -> & Hok').
    + intros key' l. destruct (decide (key = key')) as [<-|Hne].
      * rewrite lookup_insert_eq. intros [= <-].
        destruct (cells_get_ok bound cells key Hok) as [Hlen Hin].
        rewrite length_app. simpl. split; [lia|].
        intros j [?| ->%list_elem_of_singleton]%elem_of_app; [by apply Hin|].
        apply Hidx. by left.
      * rewrite lookup_insert_ne by done. intros Hl.
        destruct (Hok key' l Hl). split; [lia|done].
    + intros j Hj. apply Hidx. by right.
    + exists cells'. split; [done|].
      cbn [Datatypes.length]. by replace (bound + S (length idxs))%nat
        with (S bound + length idxs)%nat by lia.
Qed.

Lemma within_total p eps_sq candidates :
  (forall j, j ∈ candidates -> (j < length xy)%nat) ->
  exists r,
    within xy p eps_sq candidates = Some r /\
    (length r <= length candidates)%nat /\
    forall j, j ∈ r -> j ∈ candidates.
Proof.
  induction candidates as [|j js IH]; intros Hc.
  - exists []. done.
  - cbn [within].
    destruct (lookup_lt_is_Some_2 xy j) as [q Hq]; [apply Hc; by left|].
    rewrite Hq, bind_Some_l.
    destruct IH as (r & -> & Hlen & Hin); [intros; apply Hc; by right|].
    rewrite bind_Some_l. eexists. split; [done|].
    destruct (Qle_bool (dist_sq p q) eps_sq); cbn [Datatypes.length].
    + split; [lia|]. intros j' [->|?]%elem_of_cons; [by left|right; auto].
    + split; [lia|]. intros j' ?. right. auto.
Qed.

Section WithGrid.
Variable cells : grid.
Hypothesis cells_ok : grid_ok (length xy) cells.
Variable eps_sq : Q.
Variable min_samples : Z.

Lemma range_query_total idx :
  (idx < length xy)%nat ->
  exists r,
    _range_query xy idx cells cell_size eps_sq = Some r /\
    (length r <= 9 * length xy)%nat /\
    forall j, j ∈ r -> (j < length xy)%nat.
Proof.
  intros Hidx. unfold _range_query.
  destruct (lookup_lt_is_Some_2 xy idx Hidx) as [p Hp].
  rewrite Hp, bind_Some_l. unfold cell_of. rewrite cell_size_nonzero.
  rewrite bind_Some_l.
  set (c := (py_floordiv p.1 cell_size, py_floordiv p.2 cell_size)).
  set (f := fun d : Z * Z => cells_get cells (c.1 + d.1, c.2 + d.2)).
  destruct (within_total p eps_sq (concat (map f offsets)))
    as (r & -> & Hlen & Hin).
  - intros j [d Hj]%elem_of_concat_map. unfold f in Hj.
    by apply (cells_get_ok _ _ _ cells_ok) in Hj.
  - exists r. split; [done|].
    pose proof (length_concat_map f (length xy) offsets) as Hcat.
    change (length offsets) with 9%nat in Hcat. split.
    + etrans; [exact Hlen|]. apply Hcat. intros d. unfold f.
      by apply (cells_get_ok _ _ _ cells_ok).
    + intros j [d Hj]%Hin%elem_of_concat_map. unfold f in Hj.
      by apply (cells_get_ok _ _ _ cells_ok) in Hj.
Qed.

(** During the expansion of cluster [cid] every label is [-1] or a
    cluster id up to [cid]. *)
Definition labels_ok (cid : Z) (labels : list Z) : Prop :=
  length labels = length xy /\
  forall i l, labels !! i = Some l -> -1 <= l <= cid.

(** A point that has a cluster keeps it. *)
Definition stable (labels labels' : list Z) : Prop :=
  forall i l, labels !! i = Some l -> 0 <= l -> labels' !! i = Some l.

Lemma labels_ok_insert cid labels q :
  0 <= cid -> labels_ok cid labels -> labels_ok cid (<[q := cid]> labels).
Proof.
  intros Hcid [Hlen Hl]. split; [by rewrite length_insert|].
  intros i l Hi. apply list_lookup_insert_Some in Hi as [(-> & -> & _)|[_ Hi]].
  - lia.
  - by apply (Hl i).
Qed.

Lemma stable_insert labels q c :
  labels !! q = Some (-1) -> stable labels (<[q := c]> labels).
Proof.
  intros Hq i l Hi Hl. rewrite list_lookup_insert_ne; [done|].
  intros ->. rewrite Hq in Hi. injection Hi as <-. lia.
Qed.

(** The [while] loop ends within the fuel, which bounds the number of
    seeds still to visit plus [9 n] for every unlabelled point. *)
Lemma expand_total cid fuel : forall labels seed_set,
  0 <= cid ->
  labels_ok cid labels ->
  (forall q, q ∈ seed_set -> (q < length xy)%nat) ->
  (length seed_set + 9 * length xy * unlabelled labels < fuel)%nat ->
  exists labels',
    expand xy cells cell_size eps_sq min_samples fuel cid labels seed_set
      = Some labels' /\
    labels_ok cid labels' /\ stable labels labels'.
Proof.
  induction fuel as [|fuel IH]; intros labels seed_set Hcid Hok Hseeds Hfuel;
    [lia|].
  destruct seed_set as [|q rest].
  { exists labels. split; [done|]. split; [done|]. by intros i l ? _. }
  cbn [expand Datatypes.length] in *.
  assert (Hq : (q < length xy)%nat) by (apply Hseeds; by left).
  assert (Hrest : forall q', q' ∈ rest -> (q' < length xy)%nat)
    by (intros; apply Hseeds; by right).
  pose proof Hok as [Hlen Hrange].
  destruct (lookup_lt_is_Some_2 labels q) as [lq Hlq]; [lia|].
  rewrite Hlq, bind_Some_l.
  pose proof (Hrange q lq Hlq) as Hlq_range.
  destruct (lq =? -2) eqn:E2; [lia|].
  destruct (lq =? -1) eqn:E1; cbn [negb].
  - assert (lq = -1) as -> by lia.
    pose proof (unlabelled_insert labels q (-1) cid Hlq ltac:(lia)) as Hcount.
    rewrite decide_True in Hcount by done.
    destruct (range_query_total q Hq) as (qn & -> & Hqn_len & Hqn).
    rewrite bind_Some_l.
    set (labels1 := <[q := cid]> labels) in *.
    assert (Hok1 : labels_ok cid labels1) by (by apply labels_ok_insert).
    assert (Hst1 : stable labels labels1) by (by apply stable_insert).
    destruct (min_samples <=? Z.of_nat (length qn)).
    + destruct (IH labels1 (rest ++ qn)) as (labels' & -> & Hok' & Hst');
        [done|done| | |].
      * intros q' [?|?]%elem_of_app; auto.
      * rewrite length_app. nia.
      * exists labels'. split_and!; [done..|].
        intros i l Hi Hl. apply Hst'; [|done]. by apply Hst1.
    + destruct (IH labels1 rest) as (labels' & -> & Hok' & Hst');
        [done|done|done| |].
      * nia.
      * exists labels'. split_and!; [done..|].
        intros i l Hi Hl. apply Hst'; [|done]. by apply Hst1.
  - destruct (IH labels rest) as (labels' & -> & Hok' & Hst');
      [done|done|done|lia|].
    by exists labels'.
Qed.

(** Between two iterations of the outer loop: the labels are [-1] or a
    cluster id below [cid], and every id below [cid] labels a point. *)
Definition dbscan_inv (cid : Z) (labels : list Z) : Prop :=
  0 <= cid /\
  length labels = length xy /\
  (forall i l, labels !! i = Some l -> -1 <= l < cid) /\
  (forall L, 0 <= L < cid -> exists i, labels !! i = Some L).

Lemma dbscan_loop_total idxs : forall labels cid,
  dbscan_inv cid labels ->
  (forall i, i ∈ idxs -> (i < length xy)%nat) ->
  exists labels' cid',
    dbscan_loop xy cells cell_size eps_sq min_samples idxs labels cid
      = Some labels' /\
    dbscan_inv cid' labels'.
Proof.
  induction idxs as [|i idxs IH]; intros labels cid Hinv Hidx.
  { by exists labels, cid. }
  cbn [dbscan_loop].
  assert (Hi : (i < length xy)%nat) by (apply Hidx; by left).
  assert (Hrest : forall j, j ∈ idxs -> (j < length xy)%nat)
    by (intros; apply Hidx; by right).
  pose proof Hinv as (Hcid & Hlen & Hrange & Hinh).
  destruct (lookup_lt_is_Some_2 labels i) as [li Hli]; [lia|].
  rewrite Hli, bind_Some_l.
  destruct (li =? -1) eqn:E1; cbn [negb]; [|by apply IH].
  assert (li = -1) as -> by lia.
  destruct (range_query_total i Hi) as (nb & -> & Hnb_len & Hnb).
  rewrite bind_Some_l.
  destruct (Z.of_nat (length nb) <? min_samples); [by apply IH|].
  set (labels1 := <[i := cid]> labels).
  assert (Hok1 : labels_ok cid labels1).
  { apply labels_ok_insert; [done|]. split; [done|].
    intros j l Hj. apply Hrange in Hj. lia. }
  destruct (expand_total cid (expand_fuel (length xy)) labels1 nb)
    as (labels2 & -> & [Hlen2 Hrange2] & Hst2); [done|done|done| |].
  { unfold expand_fuel. pose proof (unlabelled_le labels1) as Hu.
    destruct Hok1 as [Hlen1 _]. rewrite Hlen1 in Hu. nia. }
  rewrite bind_Some_l. apply IH; [|done].
  split_and!; [lia|done| |].
  - intros j l Hj. apply Hrange2 in Hj. lia.
  - intros L HL. destruct (decide (L = cid)) as [->|Hne].
    + exists i. apply Hst2; [|done]. unfold labels1.
      apply list_lookup_insert_eq. lia.
    + destruct (Hinh L) as [j Hj]; [lia|]. exists j.
      apply Hst2; [|lia]. unfold labels1.
      rewrite list_lookup_insert_ne; [done|].
      intros ->. rewrite Hli in Hj. injection Hj as <-. lia.
Qed.

End WithGrid.

Lemma grid_dbscan_total min_samples :
  exists labels cid,
    _grid_dbscan xy cell_size min_samples = Some labels /\
    dbscan_inv cid labels.
Proof.
  unfold _grid_dbscan.
  destruct (build_cells_total (seq 0 (length xy)) ∅ 0) as (cells & -> & Hcells).
  { intros key l. by rewrite lookup_empty. }
  { intros i Hi%elem_of_seq. lia. }
  rewrite length_seq in Hcells. rewrite bind_Some_l.
  apply (dbscan_loop_total cells Hcells).
  - split_and!; [lia|by rewrite length_replicate| |intros L; lia].
    intros i l [-> _]%lookup_replicate. lia.
  - intros i Hi%elem_of_seq. lia.
Qed.

End Total.

Section EmitTotal.
Variable sqrt : Q -> Q.

Lemma masked_nonempty xy labels L i :
  length labels = length xy -> labels !! i = Some L -> masked xy labels L <> [].
Proof.
  intros Hlen Hi.
  destruct (lookup_lt_is_Some_2 xy i) as [p Hp].
  { apply lookup_lt_Some in Hi. lia. }
  assert (Hin : p ∈ masked xy labels L).
  { unfold masked. rewrite map_is_fmap.
    apply (list_elem_of_fmap_2' fst _ (p, L)); [|done].
    apply list_elem_of_filter. split; [done|].
    apply (list_elem_of_lookup_2 _ i). by apply lookup_zip_Some. }
  intros E. rewrite E in Hin. by apply elem_of_nil in Hin.
Qed.

Lemma make_cluster_total xy labels R L :
  masked xy labels L <> [] -> is_Some (make_cluster sqrt xy labels R L).
Proof.
  intros Hne. unfold make_cluster.
  destruct (masked xy labels L) as [|p ps]; [done|].
  cbn [floats_max map]. rewrite bind_Some_l.
  match goal with |- context [Qgtb ?r R] => by destruct (Qgtb r R) end.
Qed.

Lemma emit_clusters_total xy labels R todo :
  (forall L, L ∈ todo -> masked xy labels L <> []) ->
  is_Some (emit_clusters sqrt xy labels R todo).
Proof.
  induction todo as [|L todo IH]; intros Hne; [done|].
  cbn [emit_clusters].
  destruct (make_cluster_total xy labels R L) as [c ->]; [apply Hne; by left|].
  rewrite bind_Some_l.
  destruct IH as [cs ->]; [intros; apply Hne; by right|].
  by rewrite bind_Some_l.
Qed.

(** With a non-zero [eps_mm] and [min_samples >= 1], [cluster_points]
    returns: no division by zero, no index out of range, enough fuel, no
    maximum of an empty array. *)
Lemma cluster_points_total points eps_mm min_samples R :
  Qeq_bool eps_mm 0 = false -> 1 <= min_samples ->
  is_Some (cluster_points sqrt points eps_mm min_samples R).
Proof.
  intros Heps Hmin. unfold cluster_points.
  destruct (Z.of_nat (length points) <? min_samples) eqn:E; [done|].
  set (xy := map (fun p => (CartesianPoint.x p, CartesianPoint.y p)) points).
  assert (Hn : (1 <= length xy)%nat) by (unfold xy; rewrite length_map; lia).
  destruct (grid_dbscan_total xy eps_mm Heps min_samples)
    as (labels & cid & -> & Hcid & Hlen & Hrange & Hinh).
  rewrite bind_Some_l.
  destruct labels as [|l ls]; [simpl in Hlen; lia|].
  cbn [labels_max]. rewrite bind_Some_l.
  apply emit_clusters_total. intros L [HL0 HL]%elem_of_py_range.
  assert (Htop : foldr Z.max l ls < cid).
  { destruct (list_elem_of_lookup_1 _ _ (foldr_Zmax_elem l ls)) as [i Hi].
    apply Hrange in Hi. lia. }
  destruct (Hinh L) as [i Hi]; [lia|].
  by apply (masked_nonempty _ _ _ i).
Qed.

End EmitTotal.

End ClusteringFacts.

(** ** engine.py *)

Module EngineFacts.
Import Engine.

(** The engine can run: the background arrays have their size, the cell
    size of the grid is not zero, and the clusterer's guard on too few
    points covers the empty input. *)
Definition engine_ok (e : TrackingEngine) : Prop :=
  BackgroundFacts.wf (_background e) /\
  Qeq_bool (_cluster_eps e) 0 = false /\
  1 <= _cluster_min_samples e.

Section WithFloatLib.
Variables sqrt radians cos sin : Q -> Q.

(** The engines of a session: the constructed one and what
    [process_scan], [reset] and [reset_background] make of it. *)
Inductive reachable (e0 : TrackingEngine) : TrackingEngine -> Prop :=
  | reach_init : reachable e0 e0
  | reach_scan e points timestamp e' frame :
      reachable e0 e ->
      process_scan sqrt radians cos sin e points timestamp = Some (e', frame) ->
      reachable e0 e'
  | reach_reset e : reachable e0 e -> reachable e0 (reset e)
  | reach_reset_background e :
      reachable e0 e -> reachable e0 (reset_background e).

(** Whenever [process_scan] returns, it has counted the frame. *)
Lemma process_scan_frame e points timestamp e' frame :
  process_scan sqrt radians cos sin e points timestamp = Some (e', frame) ->
  frame_count e' = frame_count e + 1 /\
  TrackingFrame.frame_number frame = frame_count e /\
  _cluster_eps e' = _cluster_eps e /\
  _cluster_min_samples e' = _cluster_min_samples e /\
  exists polar,
    Background.update (_background e) polar = Some (_background e').
Proof.
  unfold process_scan.
  set (polar := filter _ (map normalize points)).
  destruct (Background.update (_background e) polar) as [bg|] eqn:Hbg; [|done].
  rewrite bind_Some_l.
  destruct (Background.classify bg polar) as [fg|]; [|done].
  rewrite bind_Some_l.
  destruct (Clustering.cluster_points _ _ _ _ _) as [clusters|]; [|done].
  rewrite bind_Some_l.
  destruct (Tracker.update sqrt (_tracker e) clusters) as [r|]; [|done].
  rewrite bind_Some_l. intros [= <- <-]. unfold frame_count. simpl.
  split_and!; [done..|]. by exists polar.
Qed.

Lemma process_scan_total e points timestamp :
  engine_ok e ->
  is_Some (process_scan sqrt radians cos sin e points timestamp).
Proof.
  intros (Hbg & Heps & Hmin). unfold process_scan.
  set (polar := filter _ (map normalize points)).
  destruct (BackgroundFacts.update_wf (_background e) polar Hbg)
    as (bg & -> & Hbg' & _).
  rewrite bind_Some_l.
  destruct (BackgroundFacts.classify_wf bg polar Hbg') as [fg ->].
  rewrite bind_Some_l.
  destruct (ClusteringFacts.cluster_points_total sqrt
              (Math.polar_points_to_cartesian radians cos sin fg)
              (_cluster_eps e) (_cluster_min_samples e) (_max_cluster_radius e)
              Heps Hmin) as [clusters ->].
  rewrite bind_Some_l.
  destruct (TrackerFacts.update_total sqrt (_tracker e) clusters) as [r ->].
  by rewrite bind_Some_l.
Qed.

Lemma process_scan_ok e points timestamp e' frame :
  engine_ok e ->
  process_scan sqrt radians cos sin e points timestamp = Some (e', frame) ->
  engine_ok e'.
Proof.
  intros (Hbg & Heps & Hmin) Hscan.
  destruct (process_scan_frame _ _ _ _ _ Hscan)
    as (_ & _ & Heps' & Hmin' & polar & Hupd).
  destruct (BackgroundFacts.update_wf (_background e) polar Hbg)
    as (bg & Hbg1 & Hwf & _).
  assert (bg = _background e') as -> by congruence.
  unfold engine_ok. by rewrite Heps', Hmin'.
Qed.

Lemma reset_ok e : engine_ok e -> engine_ok (reset e).
Proof.
  intros (Hbg & ? & ?). split; [|done]. by apply BackgroundFacts.reset_wf.
Qed.

Lemma reset_background_ok e : engine_ok e -> engine_ok (reset_background e).
Proof.
  intros (Hbg & ? & ?). split; [|done]. by apply BackgroundFacts.reset_wf.
Qed.

Lemma reachable_ok e0 e : engine_ok e0 -> reachable e0 e -> engine_ok e.
Proof.
  intros H0. induction 1 as [|e pts ts e' frame _ IH Hscan|e _ IH|e _ IH].
  - done.
  - by eapply process_scan_ok.
  - by apply reset_ok.
  - by apply reset_background_ok.
Qed.

Lemma init_ok c e0 :
  init c = Some e0 ->
  Qeq_bool (cluster_eps_mm c) 0 = false -> 1 <= cluster_min_samples c ->
  engine_ok e0 /\ frame_count e0 = 0.
Proof.
  unfold init. intros Hinit Heps Hmin.
  destruct (Background.init _ _ _ _) as [bg|] eqn:Hbg; [|done].
  rewrite bind_Some_l in Hinit. injection Hinit as <-.
  pose proof (BackgroundFacts.init_Some _ _ _ _ _ Hbg) as Hbins.
  destruct (BackgroundFacts.init_wf _ (background_learning_rate c)
              (foreground_threshold_mm c) (min_learning_frames c) Hbins)
    as (bg' & Hbg' & Hwf & _).
  rewrite Hbg in Hbg'. injection Hbg' as <-. done.
Qed.

(** Successive calls number their frames from [frame_count] on. *)
Lemma process_scans_frames scans : forall e,
  engine_ok e ->
  exists e' frames,
    process_scans sqrt radians cos sin e scans = Some (e', frames) /\
    TrackingFrame.frame_number <$> frames
      = seqZ (frame_count e) (Z.of_nat (length scans)) /\
    frame_count e' = frame_count e + Z.of_nat (length scans).
Proof.
  induction scans as [|[pts ts] scans IH]; intros e Hok.
  - exists e, []. cbn [process_scans Datatypes.length]. split_and!; [done| |lia].
    by rewrite seqZ_nil.
  - cbn [process_scans fst snd].
    destruct (process_scan_total e pts ts Hok) as [[e1 f1] Hscan].
    rewrite Hscan, bind_Some_l. cbn [fst snd].
    destruct (process_scan_frame _ _ _ _ _ Hscan) as (Hc1 & Hf1 & _).
    destruct (IH e1 (process_scan_ok _ _ _ _ _ Hok Hscan))
      as (e' & frames & -> & Hnum & Hcount).
    rewrite bind_Some_l. cbn [fst snd].
    exists e', (f1 :: frames). split_and!; [done| |].
    + rewrite fmap_cons, Hnum, Hf1, Hc1.
      rewrite (seqZ_cons (frame_count e)) by (cbn [Datatypes.length]; lia).
      do 2 f_equal; cbn [Datatypes.length]; lia.
    + rewrite Hcount, Hc1. cbn [Datatypes.length]. lia.
Qed.


End WithFloatLib.


(** The defaults, but [cluster_min_samples = 0]. *)
Definition zero_samples_config : Config :=
  {| background_learning_rate := 2 # 100;
     foreground_threshold_mm := 150;
     min_learning_frames := 30;
     angle_bins := 720;
     cluster_eps_mm := 200;
     cluster_min_samples := 0;
     max_cluster_radius_mm := 500;
     max_match_distance_mm := 800;
     max_missing_frames := 10;
     min_confirm_frames := 2;
     max_trajectory_length := 0 |}.


End EngineFacts.

(** * Further properties of the code *)

(** ** trajectory.py: [get], [record] and [prune_inactive] *)

Module TrajectoryMore.
Import Trajectory TrajectoryFacts.

Lemma elem_of_keys (m : gmap Z deque) k : k ∈ keys m <-> is_Some (m !! k).
Proof.
  unfold keys. rewrite list_elem_of_fmap. split.
  - intros ([k' d] & -> & Hin). apply elem_of_map_to_list in Hin. by exists d.
  - intros [d Hd]. exists (k, d). split; [done|]. by apply elem_of_map_to_list.
Qed.

Lemma prune_step_eq (pruned : gmap Z (list TrajectoryPoint.t))
    (m : gmap Z deque) k d :
  m !! k = Some d ->
  prune_step (pruned, m) k = Some (<[k := items d]> pruned, delete k m).
Proof. intros Hd. unfold prune_step. cbn [fst snd]. by rewrite Hd. Qed.

(** The loop of [prune_inactive] over distinct, present keys: it moves
    exactly these keys, with their histories. *)
Lemma prune_loop l : forall (pruned : gmap Z (list TrajectoryPoint.t))
                            (m : gmap Z deque),
  NoDup l -> (forall k, k ∈ l -> is_Some (m !! k)) ->
  exists pruned' m',
    fold_opt prune_step l (pruned, m) = Some (pruned', m') /\
    forall id,
      (id ∈ l -> m' !! id = None /\ pruned' !! id = items <$> m !! id) /\
      (id ∉ l -> m' !! id = m !! id /\ pruned' !! id = pruned !! id).
Proof.
  induction l as [|k l IH]; intros pruned m Hnd Hin.
  - exists pruned, m. split; [done|]. intros id. split; [|done].
    by intros ?%elem_of_nil.
  - apply NoDup_cons in Hnd as [Hk Hnd].
    destruct (Hin k) as [d Hd]; [by left|].
    rewrite fold_opt_cons, (prune_step_eq _ _ _ d), bind_Some_l by done.
    destruct (IH (<[k := items d]> pruned) (delete k m) Hnd)
      as (pruned' & m' & -> & Hspec).
    { intros k' Hk'. rewrite lookup_delete_ne by (by intros ->).
      apply Hin. by right. }
    exists pruned', m'. split; [done|]. intros id.
    destruct (Hspec id) as [Hin' Hout']. split.
    + intros [->|Hid]%elem_of_cons.
      * destruct (Hout' Hk) as [-> ->].
        by rewrite lookup_delete_eq, lookup_insert_eq, Hd.
      * destruct (Hin' Hid) as [-> ->].
        rewrite lookup_delete_ne; [done|]. by intros ->.
    + intros [Hne Hid]%not_elem_of_cons. destruct (Hout' Hid) as [-> ->].
      by rewrite lookup_delete_ne, lookup_insert_ne.
Qed.

(** X1.  [prune_inactive] never raises and splits the store by
    [active_ids]: an active id keeps its history and is not returned; an
    inactive id is returned with its whole history and is unknown
    afterwards ([get] gives the empty list).  Nothing is lost and the
    bound of the store is kept. *)
Theorem prune_inactive_partition (s : TrajectoryStore) (active_ids : gset Z) :
  exists pruned s',
    prune_inactive s active_ids = Some (pruned, s') /\
    _max_length s' = _max_length s /\
    forall id,
      (id ∈ active_ids ->
         pruned !! id = None /\ get s' id = get s id /\
         get_all s' !! id = get_all s !! id) /\
      (id ∉ active_ids ->
         pruned !! id = get_all s !! id /\ get s' id = [] /\
         get_all s' !! id = None).
Proof.
  unfold prune_inactive.
  destruct (prune_loop (filter (fun k => k ∉ active_ids) (keys (_trajectories s)))
              ∅ (_trajectories s)) as (pruned & m' & -> & Hspec).
  { apply NoDup_filter. unfold keys. apply NoDup_fst_map_to_list. }
  { intros k [_ Hk]%list_elem_of_filter. by apply elem_of_keys. }
  rewrite bind_Some_l. cbn [fst snd].
  eexists _, _. split; [done|]. split; [done|].
  intros id. destruct (Hspec id) as [Hin Hout].
  set (l := filter (fun k => k ∉ active_ids) (keys (_trajectories s))) in *.
  assert (Hl : id ∈ l <-> (id ∉ active_ids) /\ is_Some (_trajectories s !! id)).
  { unfold l. by rewrite list_elem_of_filter, elem_of_keys. }
  unfold get_all, get. cbn [_trajectories]. rewrite !lookup_fmap. split.
  - intros Hact. assert (Hnl : id ∉ l) by (rewrite Hl; tauto).
    destruct (Hout Hnl) as [E1 E2]. by rewrite E1, E2, lookup_empty.
  - intros Hna. destruct (_trajectories s !! id) as [d|] eqn:Hd.
    + assert (Hil : id ∈ l) by (apply Hl; split; [done|eauto]).
      destruct (Hin Hil) as [E1 E2]. by rewrite E1, E2.
    + assert (Hnl : id ∉ l).
      { rewrite Hl. intros [_ [? ?]]. done. }
      destruct (Hout Hnl) as [E1 E2]. by rewrite E1, E2, lookup_empty.
Qed.

Lemma get_record_all_other calls : forall s id,
  id ∉ calls.*1 -> get (record_all s calls) id = get s id.
Proof.
  unfold record_all.
  induction calls as [|[id' p] calls IH]; intros s id Hid; [done|].
  rewrite fmap_cons in Hid. apply not_elem_of_cons in Hid as [Hne Hid].
  cbn [foldl]. rewrite IH by done. apply get_record_ne. by intros ->.
Qed.

Lemma appended_last B l p : last (appended B l p) = Some p.
Proof.
  unfold appended.
  destruct (0 <? B); [destruct (Z.of_nat (length l) <? B)|]; apply last_snoc.
Qed.

(** X2.  In a store filled by [record] calls, under any bound: an id that
    was never recorded reads as the empty list; a [record] puts its point
    at the end of the history of its id and leaves the history of every
    other id as it was. *)
Theorem record_get_roundtrip (B : Z) (calls : list call) (id id' : Z)
    (p : TrajectoryPoint.t) :
  let s := record_all (init B) calls in
  last (get (record_call s (id, p)) id) = Some p /\
  (id' <> id -> get (record_call s (id, p)) id' = get s id') /\
  (id ∉ calls.*1 -> get s id = [] /\ get (record_call s (id, p)) id = [p]).
Proof.
  intros s.
  assert (Hs : store_inv B s) by apply record_all_inv, init_inv.
  split_and!.
  - rewrite (get_record B) by done. apply appended_last.
  - intros Hne. apply get_record_ne. by intros ->.
  - intros Hid.
    assert (Hget : get s id = []).
    { unfold s. rewrite get_record_all_other by done. unfold get, init. simpl.
      by rewrite lookup_empty. }
    split; [done|]. rewrite (get_record B), Hget by done.
    unfold appended. simpl. destruct (0 <? B) eqn:E; [|done].
    by destruct (Z.of_nat 0 <? B).
Qed.

Lemma record_get_roundtrip_witness :
  let s := record_all (init 2) [(7, tp 0); (7, tp 1)] in
  get (record_call s (8, tp 5)) 7 = get s 7 /\
  get s 8 = [] /\ get (record_call s (8, tp 5)) 8 = [tp 5].
Proof.
  destruct (record_get_roundtrip 2 [(7, tp 0); (7, tp 1)] 8 7 (tp 5))
    as (_ & H2 & H3).
  split; [apply H2; lia|]. apply H3. vm_compute.
  intros [?|[?|?]%elem_of_cons]%elem_of_cons; [lia|lia|by apply elem_of_nil in H].
Defined.

End TrajectoryMore.

(** ** tracker.py: [_assign] *)

Module AssignMore.
Import Tracker TrackerFacts.

(** The walk over a list in two parts. *)
Lemma greedy_spec_app L1 : forall L2 m,
  greedy_spec (L1 ++ L2) m = greedy_spec L2 (greedy_spec L1 m).
Proof.
  induction L1 as [|[[d t] k] L1 IH]; intros L2 m; [done|].
  cbn [app greedy_spec]. destruct (decide _); apply IH.
Qed.

(** The walk only appends. *)
Lemma greedy_spec_mono L : forall m tk, tk ∈ m -> tk ∈ greedy_spec L m.
Proof.
  induction L as [|[[d t] k] L IH]; intros m tk Hin; [done|].
  cbn [greedy_spec]. destruct (decide _); apply IH; [done|].
  apply elem_of_app. by left.
Qed.

(** What the walk decides at a triple: it accepts the pair, or a pair
    accepted from the triples before it has the track or the cluster. *)
Lemma greedy_spec_decision L1 d t k L2 :
  (t, k) ∈ greedy_spec (L1 ++ (d, t, k) :: L2) [] \/
  exists tk', tk' ∈ greedy_spec L1 [] /\ (tk'.1 = t \/ tk'.2 = k).
Proof.
  rewrite greedy_spec_app. cbn [greedy_spec].
  destruct (decide _) as [[Hin|Hin]|Hnin].
  - right. apply list_elem_of_fmap in Hin as (tk' & -> & ?). eauto.
  - right. apply list_elem_of_fmap in Hin as (tk' & -> & ?). eauto.
  - left. apply greedy_spec_mono, elem_of_app. right. by left.
Qed.

Lemma greedy_spec_prefix L1 L2 tk :
  tk ∈ greedy_spec L1 [] -> tk ∈ greedy_spec (L1 ++ L2) [].
Proof. intros Hin. rewrite greedy_spec_app. by apply greedy_spec_mono. Qed.

Section Assign.
Variable sqrt : Q -> Q.

(** A pair within the gate is matched, or an earlier triple of the sorted
    list took its track or its cluster. *)
Lemma candidate_fate gate predicted clusters t k p c :
  predicted !! t = Some p -> clusters !! k = Some c ->
  (distance sqrt p c <= gate)%Q ->
  let ms := (_assign sqrt gate predicted clusters).1.1 in
  (t, k) ∈ ms \/
  exists d' t' k',
    (t', k') ∈ ms /\ (t' = t \/ k' = k) /\
    is_candidate sqrt gate predicted clusters (d', t', k') /\
    triple_lt (d', t', k') (distance sqrt p c, t, k).
Proof.
  intros Hp Hc Hle. rewrite assign_unfold. cbn [fst].
  destruct (sorted_pairs_spec sqrt gate predicted clusters) as [Hel Hsorted].
  set (P := py_sort _) in *.
  assert (Hin : (distance sqrt p c, t, k) ∈ P).
  { apply Hel. by exists p, c. }
  apply list_elem_of_split in Hin as (L1 & L2 & HP). rewrite HP in *.
  destruct (greedy_spec_decision L1 (distance sqrt p c) t k L2)
    as [?|([t' k'] & Hin' & Hshare)]; [by left|].
  right.
  destruct (greedy_spec_props sqrt L1 []) as (_ & _ & Horigin); [constructor..|].
  destruct (Horigin _ Hin') as [?%elem_of_nil|[d' Hd']]; [done|].
  exists d', t', k'. cbn [fst snd] in *. split_and!.
  - by apply greedy_spec_prefix.
  - done.
  - apply Hel, elem_of_app. by left.
  - eapply StronglySorted_app_1_elem_of; [done..|by left].
Qed.

(** X3.  [_assign] returns a matching within the gate that cannot be
    extended: no track and no cluster occurs in two matches; every match
    joins a predicted position and a cluster at distance at most the gate;
    the unmatched tracks and the unmatched clusters are exactly the
    indices that occur in no match; and an unmatched track and an
    unmatched cluster are always farther apart than the gate. *)
Theorem assign_gated_maximal_matching (gate : Q)
    (predicted : list CartesianPoint.t) (clusters : list Cluster.t) :
  let r := _assign sqrt gate predicted clusters in
  let ms := r.1.1 in
  let uts := r.1.2 in
  let ucs := r.2 in
  NoDup ms.*1 /\ NoDup ms.*2 /\
  (forall t k, (t, k) ∈ ms ->
     exists p c, predicted !! t = Some p /\ clusters !! k = Some c /\
                 (distance sqrt p c <= gate)%Q) /\
  (forall t, t ∈ uts <-> (t < length predicted)%nat /\ t ∉ ms.*1) /\
  (forall k, k ∈ ucs <-> (k < length clusters)%nat /\ k ∉ ms.*2) /\
  (forall t k p c,
     t ∈ uts -> k ∈ ucs ->
     predicted !! t = Some p -> clusters !! k = Some c ->
     (gate < distance sqrt p c)%Q).
Proof.
  intros r ms uts ucs.
  destruct (_assign sqrt gate predicted clusters) as [[ms0 uts0] ucs0] eqn:E.
  pose proof (candidate_fate gate predicted clusters) as Hfate.
  rewrite E in Hfate. cbn [fst] in Hfate.
  subst r ms uts ucs. cbn [fst snd].
  pose proof E as Hunfold. rewrite assign_unfold in Hunfold.
  destruct (sorted_pairs_spec sqrt gate predicted clusters) as [Hel _].
  set (P := py_sort _) in *.
  apply assign_props in E as (Hnd1 & Hnd2 & _ & Huts & Hucs).
  assert (Hms : ms0 = greedy_spec P []) by congruence.
  assert (Hu : forall t, t ∈ uts0 <-> (t < length predicted)%nat /\ t ∉ ms0.*1).
  { intros t. rewrite Huts, list_elem_of_filter, elem_of_seq.
    split; [intros [? ?]|intros [? ?]]; split; [lia|done|done|lia]. }
  assert (Hc : forall k, k ∈ ucs0 <-> (k < length clusters)%nat /\ k ∉ ms0.*2).
  { intros k. rewrite Hucs, list_elem_of_filter, elem_of_seq.
    split; [intros [? ?]|intros [? ?]]; split; [lia|done|done|lia]. }
  split_and!; [done|done| |done|done|].
  - intros t k Htk. rewrite Hms in Htk.
    destruct (greedy_spec_props sqrt P []) as (_ & _ & Horigin); [constructor..|].
    destruct (Horigin _ Htk) as [?%elem_of_nil|[d Hd]]; [done|].
    apply Hel in Hd as (p & c & Hp & Hk & Hd & Hle). cbn [fst snd] in *.
    exists p, c. split_and!; [done..|]. by rewrite <- Hd.
  - intros t k p c [_ Ht]%Hu [_ Hk]%Hc Hp Hk'.
    apply Qnot_le_lt. intros Hle.
    destruct (Hfate t k p c Hp Hk' Hle) as [Hin|(d' & t' & k' & Hin & Hshare & _)].
    + apply Ht. by apply (list_elem_of_fmap_2 fst) in Hin.
    + destruct Hshare as [<- | <-].
      * apply Ht. by apply (list_elem_of_fmap_2 fst) in Hin.
      * apply Hk. by apply (list_elem_of_fmap_2 snd) in Hin.
Qed.

(** X4.  The assignment prefers cheaper pairs.  A predicted position and a
    cluster within the gate of each other are matched together, unless a
    match of [_assign] takes the track or the cluster for a pair that
    comes earlier in the order of [pairs.sort()] (smaller distance, ties
    broken by track index, then by cluster index). *)
Theorem assign_prefers_cheaper (gate : Q) (predicted : list CartesianPoint.t)
    (clusters : list Cluster.t) (t k : nat) (p : CartesianPoint.t)
    (c : Cluster.t) :
  predicted !! t = Some p -> clusters !! k = Some c ->
  (distance sqrt p c <= gate)%Q ->
  let ms := (_assign sqrt gate predicted clusters).1.1 in
  (t, k) ∈ ms \/
  exists t' k' p' c',
    (t', k') ∈ ms /\ (t' = t \/ k' = k) /\
    predicted !! t' = Some p' /\ clusters !! k' = Some c' /\
    (distance sqrt p' c' <= gate)%Q /\
    triple_lt (distance sqrt p' c', t', k') (distance sqrt p c, t, k).
Proof.
  intros Hp Hc Hle ms.
  destruct (candidate_fate gate predicted clusters t k p c Hp Hc Hle)
    as [?|(d' & t' & k' & Hin & Hshare & Hcand & Hlt)]; [by left|].
  right. destruct Hcand as (p' & c' & Hp' & Hc' & Hd' & Hle').
  cbn [fst snd] in *. subst d'.
  exists t', k', p', c'. by split_and!.
Qed.

End Assign.

(** Two predictions and one cluster between them: the cluster goes to the
    nearer prediction, and the farther one is left out because of it. *)
Lemma assign_prefers_cheaper_witness :
  let predicted := [CartesianPoint.mk 0 0; CartesianPoint.mk 10 0] in
  let clusters := [Cluster.mk (CartesianPoint.mk 6 0) [] 100] in
  let ms := (_assign Qsqrt 800 predicted clusters).1.1 in
  (0%nat, 0%nat) ∈ ms \/
  exists t' k' p' c',
    (t', k') ∈ ms /\ (t' = 0%nat \/ k' = 0%nat) /\
    predicted !! t' = Some p' /\ clusters !! k' = Some c' /\
    (distance Qsqrt p' c' <= 800)%Q /\
    triple_lt (distance Qsqrt p' c', t', k')
              (distance Qsqrt (CartesianPoint.mk 0 0)
                 (Cluster.mk (CartesianPoint.mk 6 0) [] 100), 0%nat, 0%nat).
Proof.
  intros predicted clusters.
  apply (assign_prefers_cheaper Qsqrt 800 predicted clusters 0 0
           (CartesianPoint.mk 0 0) (Cluster.mk (CartesianPoint.mk 6 0) [] 100)).
  - reflexivity.
  - reflexivity.
  - vm_compute. discriminate.
Defined.

End AssignMore.

(** ** tracker.py: [update] *)

Module TrackerMore.
Import Tracker TrackerFacts.

Lemma filter_none {A} (P : A -> Prop) `{!forall a, Decision (P a)} (l : list A) :
  (forall a, a ∈ l -> ~ P a) -> filter P l = [].
Proof.
  induction l as [|a l IH]; intros Hnone; [done|].
  rewrite filter_cons_False by (apply Hnone; by left).
  apply IH. intros b Hb. apply Hnone. by right.
Qed.

(** The loop over [unmatched_tracks] when every track is unmatched. *)
Lemma age_all (l : list _Track.t) :
  fold_opt age_unmatched (seq 0 (length l)) l = Some (aged_track <$> l).
Proof.
  destruct (age_unmatched_spec (seq 0 (length l)) l)
    as (tracks2 & -> & Hlen & _ & Hin).
  { apply NoDup_seq. }
  { intros i Hi%elem_of_seq. lia. }
  f_equal. apply list_eq. intros i. rewrite list_lookup_fmap.
  destruct (l !! i) as [t|] eqn:Hi.
  - apply Hin; [|done]. apply elem_of_seq. apply lookup_lt_Some in Hi. lia.
  - apply lookup_ge_None. rewrite Hlen. by apply lookup_ge_None.
Qed.

(** The loop over [unmatched_clusters] when every cluster is unmatched. *)
Lemma spawn_all mc cs : forall pre tracks nid,
  fold_opt (spawn mc (pre ++ cs)) (seq (length pre) (length cs)) (tracks, nid)
  = Some (tracks ++ imap (fun j c => new_track mc (nid + Z.of_nat j) c) cs,
          nid + Z.of_nat (length cs)).
Proof.
  induction cs as [|c cs IH]; intros pre tracks nid.
  - cbn [length seq fold_opt imap]. by rewrite app_nil_r, Z.add_0_r.
  - cbn [length seq]. rewrite fold_opt_cons.
    rewrite (spawn_eq _ _ _ _ _ c) by apply list_lookup_middle, eq_refl.
    rewrite bind_Some_l.
    replace (pre ++ c :: cs) with ((pre ++ [c]) ++ cs) by by rewrite <- app_assoc.
    replace (S (length pre)) with (length (pre ++ [c]))
      by (rewrite length_app; simpl; lia).
    rewrite IH, <- app_assoc. cbn [app imap]. rewrite Z.add_0_r.
    f_equal. f_equal; [|lia]. do 2 f_equal.
    apply imap_ext. intros j c' _. cbn. f_equal. lia.
Qed.

Section Update.
Variable sqrt : Q -> Q.

Lemma update_config tr clusters tr' objs :
  update sqrt tr clusters = Some (tr', objs) ->
  _max_match_dist tr' = _max_match_dist tr /\
  _max_missing tr' = _max_missing tr /\ _min_confirm tr' = _min_confirm tr.
Proof.
  unfold update. destruct (update_tracks sqrt tr clusters) as [st|]; [|done].
  rewrite bind_Some_l. by intros [= <- _].
Qed.

(** The spawned tracks, one per unmatched cluster and in their order. *)
Lemma update_news tr clusters ms uts ucs tr' objs tracks2 news :
  _assign sqrt (_max_match_dist tr) (map predict (_tracks tr)) clusters
    = (ms, uts, ucs) ->
  anatomy sqrt tr clusters ms tr' objs tracks2 news ->
  length news = length ucs /\
  forall j t, news !! j = Some t ->
    exists k c, ucs !! j = Some k /\ clusters !! k = Some c /\
      t = new_track (_min_confirm tr) (_next_id tr + Z.of_nat j) c.
Proof.
  intros Hassign A. pose proof (an_tracks _ _ _ _ _ _ _ _ A) as Hut.
  pose proof (an_length _ _ _ _ _ _ _ _ A) as Hlen.
  unfold update_tracks in Hut. rewrite Hassign in Hut.
  apply assign_props in Hassign as (Hnd1 & _ & Hrange & -> & ->).
  rewrite length_map in Hrange.
  destruct (apply_matches_spec (_min_confirm tr) clusters ms (_tracks tr) Hnd1 Hrange)
    as (tracks1 & E1 & Hlen1 & _).
  rewrite E1, bind_Some_l in Hut.
  destruct (age_unmatched_spec
              (filter (fun t => t ∉ ms.*1) (seq 0 (length (map predict (_tracks tr)))))
              tracks1) as (t2 & E2 & Hlen2 & _).
  { apply NoDup_filter, NoDup_seq. }
  { intros i [_ Hi%elem_of_seq]%list_elem_of_filter.
    rewrite length_map in Hi. lia. }
  rewrite E2, bind_Some_l in Hut.
  destruct (spawn_spec (_min_confirm tr) clusters
              (filter (fun k => k ∉ ms.*2) (seq 0 (length clusters)))
              t2 (_next_id tr)) as (news' & E3 & Hlen3 & Hnew).
  { intros k [_ Hk%elem_of_seq]%list_elem_of_filter. lia. }
  rewrite E3 in Hut. injection Hut as Happ _.
  apply app_inj_1 in Happ as [_ <-]; [done|lia].
Qed.

(** X5.  [update] never raises, whatever the state and the clusters.  It
    leaves the three configuration fields alone, advances [_next_id] by
    the number of unmatched clusters, keeps at most the old tracks plus
    one track per unmatched cluster, and keeps the invariant of a session
    (distinct positive ids below [_next_id], no negative counter). *)
Theorem update_never_raises (tr : ObjectTracker) (clusters : list Cluster.t) :
  let ucs :=
    (_assign sqrt (_max_match_dist tr) (map predict (_tracks tr)) clusters).2 in
  exists tr' objs,
    update sqrt tr clusters = Some (tr', objs) /\
    _max_match_dist tr' = _max_match_dist tr /\
    _max_missing tr' = _max_missing tr /\
    _min_confirm tr' = _min_confirm tr /\
    _next_id tr' = _next_id tr + Z.of_nat (length ucs) /\
    (length (_tracks tr') <= length (_tracks tr) + length ucs)%nat /\
    (length objs <= length (_tracks tr'))%nat /\
    (wf tr -> wf tr').
Proof.
  destruct (_assign sqrt (_max_match_dist tr) (map predict (_tracks tr)) clusters)
    as [[ms uts] ucs0] eqn:E.
  intros ucs. subst ucs. cbn [snd].
  destruct (update_total sqrt tr clusters) as [[tr' objs] Hupd].
  exists tr', objs.
  destruct (update_config _ _ _ _ Hupd) as (Hg & Hm & Hc).
  destruct (update_anatomy sqrt tr clusters ms uts ucs0 tr' objs E Hupd)
    as (tracks2 & news & A).
  destruct (update_news _ _ _ _ _ _ _ _ _ E A) as [Hlen _].
  split_and!; [done..| | | |].
  - rewrite (an_next _ _ _ _ _ _ _ _ A). by rewrite Hlen.
  - rewrite (an_alive _ _ _ _ _ _ _ _ A).
    etrans; [apply length_filter|].
    rewrite length_app, (an_length _ _ _ _ _ _ _ _ A). lia.
  - rewrite (an_objs _ _ _ _ _ _ _ _ A), length_fmap. apply length_filter.
  - apply (update_keeps_wf sqrt A).
Qed.

(** X6.  The life of a track through one [update] of a session.  A track
    that was there before and is still there is one frame older; it is
    confirmed exactly when it was confirmed before, or it was matched and
    has reached the age [min_confirm_frames]; when it was not matched, its
    counter of missed frames goes up by one and its centroid, velocity,
    radius and points stay as they were (the prediction is not written
    back).  A track created by this [update] has age 1, velocity zero, is
    confirmed exactly when [min_confirm_frames <= 1], and carries the
    centroid, radius and points of one of the clusters. *)
Theorem track_lifecycle (tr : ObjectTracker) (clusters : list Cluster.t)
    (tr' : ObjectTracker) (objs : list TrackedObject.t) :
  wf tr ->
  update sqrt tr clusters = Some (tr', objs) ->
  let matches :=
    (_assign sqrt (_max_match_dist tr) (map predict (_tracks tr)) clusters).1.1 in
  (forall i t t',
     _tracks tr !! i = Some t -> t' ∈ _tracks tr' ->
     _Track.track_id t' = _Track.track_id t ->
     _Track.age t' = _Track.age t + 1 /\
     (_Track.confirmed t' = true <->
        _Track.confirmed t = true \/
        ((exists k, (i, k) ∈ matches) /\ _min_confirm tr <= _Track.age t + 1)) /\
     ((forall k, (i, k) ∉ matches) ->
        _Track.missing_frames t' = _Track.missing_frames t + 1 /\
        _Track.centroid t' = _Track.centroid t /\
        _Track.velocity t' = _Track.velocity t /\
        _Track.bounding_radius_mm t' = _Track.bounding_radius_mm t /\
        _Track.points t' = _Track.points t)) /\
  (forall t',
     t' ∈ _tracks tr' ->
     (forall t, t ∈ _tracks tr -> _Track.track_id t <> _Track.track_id t') ->
     _Track.age t' = 1 /\
     _Track.velocity t' = CartesianPoint.mk 0 0 /\
     _Track.confirmed t' = (_min_confirm tr <=? 1) /\
     exists c, c ∈ clusters /\
       _Track.centroid t' = Cluster.centroid c /\
       _Track.bounding_radius_mm t' = Cluster.bounding_radius_mm c /\
       _Track.points t' = Cluster.points c).
Proof.
  intros Hwf Hupd matches. unfold matches.
  destruct (_assign sqrt (_max_match_dist tr) (map predict (_tracks tr)) clusters)
    as [[ms uts] ucs] eqn:E.
  cbn [fst].
  destruct (update_anatomy sqrt tr clusters ms uts ucs tr' objs E Hupd)
    as (tracks2 & news & A).
  split.
  - intros i t t' Ht Ht' Hid.
    pose proof (surviving_track sqrt A i t t' Hwf Ht Ht' Hid) as Hi.
    destruct (tracks2_origin sqrt A i t' Hi) as (t0 & Ht0 & _ & Hcase).
    assert (t0 = t) as -> by congruence.
    destruct Hcase as [(k & c & Hik & _ & ->)|[Hnin ->]].
    + cbn [matched_track _Track.age _Track.confirmed]. split_and!; [done| |].
      * destruct (Z.leb_spec (_min_confirm tr) (_Track.age t + 1)).
        -- split; [|done]. intros _. right. eauto.
        -- split; [by left|]. intros [?|[_ ?]]; [done|lia].
      * intros Hno. by destruct (Hno k).
    + cbn [aged_track _Track.age _Track.confirmed _Track.missing_frames
           _Track.centroid _Track.velocity _Track.bounding_radius_mm
           _Track.points].
      split_and!; [done| |done].
      split; [by left|]. intros [?|[[k Hik] _]]; [done|].
      destruct Hnin. by apply (list_elem_of_fmap_2 fst) in Hik.
  - intros t' Ht' Hfresh.
    apply (fresh_track sqrt A) in Ht'; [|done].
    apply list_elem_of_lookup in Ht' as [j Hj].
    destruct (an_new _ _ _ _ _ _ _ _ A _ _ Hj) as (c & Hc & ->).
    split_and!; [done..|]. by exists c.
Qed.

(** X7.  Which tracks [update] retires, in a session.  The track at
    position [i] is still there afterwards exactly when it was matched and
    [max_missing_frames] is not negative, or it was not matched and its
    counter, once incremented, does not exceed [max_missing_frames].  The
    surviving tracks keep their order and the new ones follow them; unless
    [max_missing_frames] is negative every new track is kept. *)
Theorem track_retirement (tr : ObjectTracker) (clusters : list Cluster.t)
    (tr' : ObjectTracker) (objs : list TrackedObject.t) :
  wf tr ->
  update sqrt tr clusters = Some (tr', objs) ->
  let matches :=
    (_assign sqrt (_max_match_dist tr) (map predict (_tracks tr)) clusters).1.1 in
  (forall i t,
     _tracks tr !! i = Some t ->
     ((exists t', t' ∈ _tracks tr' /\ _Track.track_id t' = _Track.track_id t) <->
      ((exists k, (i, k) ∈ matches) /\ 0 <= _max_missing tr) \/
      ((forall k, (i, k) ∉ matches) /\
       _Track.missing_frames t + 1 <= _max_missing tr))) /\
  _Track.track_id <$> _tracks tr'
    `sublist_of` (_Track.track_id <$> _tracks tr)
                 ++ seqZ (_next_id tr) (_next_id tr' - _next_id tr) /\
  (0 <= _max_missing tr ->
   forall id, _next_id tr <= id < _next_id tr' ->
     id ∈ _Track.track_id <$> _tracks tr').
Proof.
  intros Hwf Hupd matches. unfold matches.
  destruct (_assign sqrt (_max_match_dist tr) (map predict (_tracks tr)) clusters)
    as [[ms uts] ucs] eqn:E.
  cbn [fst].
  destruct (update_anatomy sqrt tr clusters ms uts ucs tr' objs E Hupd)
    as (tracks2 & news & A).
  pose proof (an_next _ _ _ _ _ _ _ _ A) as Hnext.
  split_and!.
  - intros i t Ht. split.
    + intros (t' & Ht' & Hid).
      pose proof (surviving_track sqrt A i t t' Hwf Ht Ht' Hid) as Hi.
      apply (elem_of_tracks' sqrt A) in Ht' as [Halive _].
      destruct (tracks2_origin sqrt A i t' Hi) as (t0 & Ht0 & _ & Hcase).
      assert (t0 = t) as -> by congruence.
      destruct Hcase as [(k & c & Hik & _ & ->)|[Hnin ->]].
      * left. split; [eauto|done].
      * right. split; [|done]. intros k Hik. apply Hnin.
        by apply (list_elem_of_fmap_2 fst) in Hik.
    + intros [[[k Hik] Hmax]|[Hno Hmax]].
      * destruct (an_range _ _ _ _ _ _ _ _ A _ _ Hik) as [_ Hk].
        destruct (lookup_lt_is_Some_2 _ _ Hk) as [c Hc].
        exists (matched_track (_min_confirm tr) t c). split; [|done].
        apply (elem_of_tracks' sqrt A). split; [done|]. left.
        eapply list_elem_of_lookup_2.
        by apply (an_matched _ _ _ _ _ _ _ _ A i k).
      * exists (aged_track t). split; [|done].
        apply (elem_of_tracks' sqrt A). split; [done|]. left.
        eapply list_elem_of_lookup_2.
        apply (an_aged _ _ _ _ _ _ _ _ A i); [|done].
        intros ([i' k] & -> & Hik)%list_elem_of_fmap. by apply (Hno k).
  - rewrite (an_alive _ _ _ _ _ _ _ _ A).
    replace (_next_id tr' - _next_id tr) with (Z.of_nat (length news)) by lia.
    rewrite <- (tracks2_ids sqrt A), <- (news_ids sqrt A), <- fmap_app.
    apply fmap_sublist, sublist_filter.
  - intros Hmax id Hid.
    assert (Hin : id ∈ _Track.track_id <$> news).
    { rewrite (news_ids sqrt A). apply elem_of_seqZ. lia. }
    apply list_elem_of_fmap in Hin as (t & -> & Ht).
    apply list_elem_of_fmap_2, (elem_of_tracks' sqrt A). split; [|by right].
    apply list_elem_of_lookup in Ht as [j Hj].
    by destruct (an_new _ _ _ _ _ _ _ _ A _ _ Hj) as (c & _ & ->).
Qed.

(** X8.  What [update] publishes, in a session.  An object is returned
    exactly when [max_missing_frames] is not negative and it is the image
    of a track matched in this call that was confirmed before or has
    reached the age [min_confirm_frames], or the image of a track created
    in this call with [min_confirm_frames <= 1].  So every returned object
    carries the centroid, radius and points of a cluster of this call: an
    unmatched track is never published. *)
Theorem published_objects (tr : ObjectTracker) (clusters : list Cluster.t)
    (tr' : ObjectTracker) (objs : list TrackedObject.t) :
  wf tr ->
  update sqrt tr clusters = Some (tr', objs) ->
  let r := _assign sqrt (_max_match_dist tr) (map predict (_tracks tr)) clusters in
  forall o,
    o ∈ objs <->
    0 <= _max_missing tr /\
    ((exists i k t c,
        (i, k) ∈ r.1.1 /\ _tracks tr !! i = Some t /\ clusters !! k = Some c /\
        (_Track.confirmed t = true \/ _min_confirm tr <= _Track.age t + 1) /\
        o = to_object (matched_track (_min_confirm tr) t c)) \/
     (exists j k c,
        r.2 !! j = Some k /\ clusters !! k = Some c /\ _min_confirm tr <= 1 /\
        o = to_object
              (new_track (_min_confirm tr) (_next_id tr + Z.of_nat j) c))).
Proof.
  intros Hwf Hupd r. unfold r.
  destruct (_assign sqrt (_max_match_dist tr) (map predict (_tracks tr)) clusters)
    as [[ms uts] ucs] eqn:E.
  cbn [fst snd].
  destruct (update_anatomy sqrt tr clusters ms uts ucs tr' objs E Hupd)
    as (tracks2 & news & A).
  destruct (update_news _ _ _ _ _ _ _ _ _ E A) as [Hlen Hnew].
  intros o. rewrite (an_objs _ _ _ _ _ _ _ _ A). split.
  - intros (t' & -> & [[Hconf Hzero] Ht']%list_elem_of_filter)%list_elem_of_fmap.
    apply (elem_of_tracks' sqrt A) in Ht' as [Halive [Ht'|Ht']].
    + split; [lia|]. left.
      apply list_elem_of_lookup in Ht' as [i Hi].
      destruct (tracks2_origin sqrt A i t' Hi) as (t & Ht & _ & Hcase).
      destruct Hcase as [(k & c & Hik & Hc & ->)|[_ ->]].
      * exists i, k, t, c. split_and!; [done..| |done].
        cbn [matched_track _Track.confirmed] in Hconf.
        destruct (Z.leb_spec (_min_confirm tr) (_Track.age t + 1)); auto.
      * destruct Hwf as (_ & Hids & _).
        apply list_elem_of_lookup_2, Hids in Ht.
        cbn [aged_track _Track.missing_frames] in Hzero. lia.
    + split; [lia|]. right.
      apply list_elem_of_lookup in Ht' as [j Hj].
      destruct (Hnew j t' Hj) as (k & c & Hk & Hc & ->).
      exists j, k, c. split_and!; [done..| |done].
      cbn [new_track _Track.confirmed] in Hconf. by apply Z.leb_le.
  - intros [Hmax [(i & k & t & c & Hik & Ht & Hc & Hconf & ->)
                 |(j & k & c & Hk & Hc & Hconf & ->)]].
    + apply list_elem_of_fmap_2, list_elem_of_filter. split.
      * cbn [matched_track _Track.confirmed _Track.missing_frames].
        split; [|done].
        destruct (Z.leb_spec (_min_confirm tr) (_Track.age t + 1));
          [done|]. destruct Hconf; [done|lia].
      * apply (elem_of_tracks' sqrt A). split; [done|]. left.
        eapply list_elem_of_lookup_2.
        by apply (an_matched _ _ _ _ _ _ _ _ A i k).
    + apply list_elem_of_fmap_2, list_elem_of_filter.
      cbn [new_track _Track.confirmed _Track.missing_frames].
      split; [split; [by apply Z.leb_le|done]|].
      apply (elem_of_tracks' sqrt A). split; [done|]. right.
      destruct (lookup_lt_is_Some_2 news j) as [t Hj].
      { rewrite Hlen. by eapply lookup_lt_Some. }
      destruct (Hnew j t Hj) as (k' & c' & Hk' & Hc' & ->).
      assert (k' = k) as -> by congruence.
      assert (c' = c) as -> by congruence.
      by eapply list_elem_of_lookup_2.
Qed.

(** [update] without clusters ages every track. *)
Lemma update_no_clusters tr :
  let tracks :=
    filter (fun t => _Track.missing_frames t <= _max_missing tr)
           (aged_track <$> _tracks tr) in
  update sqrt tr [] =
    Some ({| _max_match_dist := _max_match_dist tr;
             _max_missing := _max_missing tr;
             _min_confirm := _min_confirm tr;
             _next_id := _next_id tr;
             _tracks := tracks |},
          to_object <$>
            filter (fun t => _Track.confirmed t = true
                             /\ _Track.missing_frames t = 0) tracks).
Proof.
  intros tracks. unfold update, update_tracks, _assign.
  rewrite length_map. destruct (_tracks tr) as [|t l] eqn:Htr.
  - done.
  - cbn [length Nat.eqb fold_opt]. rewrite bind_Some_l.
    change (S (length l)) with (length (t :: l)).
    rewrite age_all, bind_Some_l. done.
Qed.

(** A session of empty frames. *)
Lemma run_no_clusters n : forall tr lb,
  0 <= lb ->
  (forall t, t ∈ _tracks tr -> lb <= _Track.missing_frames t) ->
  exists tr',
    run sqrt tr (replicate n []) = Some (tr', replicate n []) /\
    _next_id tr' = _next_id tr /\ _max_missing tr' = _max_missing tr /\
    _Track.track_id <$> _tracks tr' `sublist_of` _Track.track_id <$> _tracks tr /\
    forall t', t' ∈ _tracks tr' ->
      lb + Z.of_nat n <= _Track.missing_frames t' /\
      (n <> 0%nat -> _Track.missing_frames t' <= _max_missing tr).
Proof.
  induction n as [|n IH]; intros tr lb Hlb Hmiss.
  - exists tr. cbn [replicate run]. split_and!; [done..|].
    intros t' Ht'. split; [|done]. apply Hmiss in Ht'. lia.
  - cbn [replicate run]. rewrite update_no_clusters, bind_Some_l. cbn [fst snd].
    set (tr1 := {| _tracks := _ |}).
    assert (Hin1 : forall t1, t1 ∈ _tracks tr1 ->
              lb + 1 <= _Track.missing_frames t1 <= _max_missing tr).
    { intros t1 [Halive (t & -> & Ht)%list_elem_of_fmap]%list_elem_of_filter.
      apply Hmiss in Ht. cbn [aged_track _Track.missing_frames] in *. lia. }
    destruct (IH tr1 (lb + 1)) as (tr' & Hrun & Hnext & Hmax & Hsub & Hin');
      [lia|intros t1 Ht1; by apply Hin1|].
    exists tr'. rewrite Hrun, bind_Some_l. cbn [fst snd].
    assert (filter (fun t => _Track.confirmed t = true
                             /\ _Track.missing_frames t = 0) (_tracks tr1) = [])
      as Hnone.
    { apply filter_none. intros t1 Ht1%Hin1 [_ ?]. lia. }
    unfold tr1 in Hnone. cbn [_tracks] in Hnone. rewrite Hnone. cbn [fmap list_fmap].
    split_and!; [done..| |].
    + etrans; [exact Hsub|]. cbn [tr1 _tracks].
      etrans; [apply fmap_sublist, sublist_filter|].
      rewrite <- list_fmap_compose. done.
    + intros t' Ht'. destruct (Hin' t' Ht') as [Hlo Hhi]. split; [lia|].
      intros _. destruct n as [|n]; [|by apply Hhi].
      cbn [replicate run] in Hrun. injection Hrun as <-. by apply Hin1.
Qed.

(** X9.  Lost tracks disappear.  In a session, after [n] calls of
    [update] without clusters, where [n] is positive and greater than
    [max_missing_frames], no track is left; none of these calls raises,
    publishes an object or uses an id. *)
Theorem lost_tracks_retire (tr : ObjectTracker) (n : nat) :
  wf tr -> (0 < n)%nat -> _max_missing tr < Z.of_nat n ->
  exists tr',
    run sqrt tr (replicate n []) = Some (tr', replicate n []) /\
    _tracks tr' = [] /\ _next_id tr' = _next_id tr.
Proof.
  intros (_ & Hids & _) Hpos Hn.
  destruct (run_no_clusters n tr 0) as (tr' & Hrun & Hnext & _ & _ & Hin);
    [done|intros t Ht; apply Hids in Ht; lia|].
  exists tr'. split_and!; [done| |done].
  apply elem_of_nil_inv. intros t' [Hlo Hhi]%Hin.
  assert (n <> 0%nat) as Hne%Hhi by lia. lia.
Qed.

(** X10.  The first frame.  When the tracker holds no track, [update]
    matches nothing and makes one track per cluster, in order and with
    consecutive ids from [_next_id] on; they are kept unless
    [max_missing_frames] is negative, and published at once exactly when
    moreover [min_confirm_frames <= 1]. *)
Theorem first_update_spawns_all (tr : ObjectTracker) (clusters : list Cluster.t) :
  _tracks tr = [] ->
  let news :=
    imap (fun j c => new_track (_min_confirm tr) (_next_id tr + Z.of_nat j) c)
         clusters in
  update sqrt tr clusters =
    Some ({| _max_match_dist := _max_match_dist tr;
             _max_missing := _max_missing tr;
             _min_confirm := _min_confirm tr;
             _next_id := _next_id tr + Z.of_nat (length clusters);
             _tracks := if decide (0 <= _max_missing tr) then news else [] |},
          if decide (0 <= _max_missing tr /\ _min_confirm tr <= 1)
          then to_object <$> news else []).
Proof.
  intros Htr news. unfold update, update_tracks, _assign. rewrite Htr.
  cbn [map length Nat.eqb fold_opt]. rewrite !bind_Some_l.
  pose proof (spawn_all (_min_confirm tr) clusters [] [] (_next_id tr)) as Hsp.
  cbn [app length] in Hsp. rewrite Hsp, bind_Some_l. cbn [fst snd]. fold news.
  assert (Hnews : forall t, t ∈ news ->
            _Track.missing_frames t = 0 /\
            _Track.confirmed t = (_min_confirm tr <=? 1)).
  { intros t (j & c & -> & _)%elem_of_lookup_imap. done. }
  destruct (decide (0 <= _max_missing tr)) as [Hmax|Hmax].
  - rewrite (filter_all (fun t => _Track.missing_frames t <= _max_missing tr))
      by (intros t [-> _]%Hnews; done).
    destruct (decide (0 <= _max_missing tr /\ _min_confirm tr <= 1))
      as [[_ Hc]|Hc].
    + rewrite filter_all; [done|].
      intros t [-> ->]%Hnews. split; [by apply Z.leb_le|done].
    + rewrite filter_none; [done|].
      intros t [_ Hconf]%Hnews [Htrue _]. rewrite Hconf in Htrue.
      apply Z.leb_le in Htrue. tauto.
  - rewrite (filter_none (fun t => _Track.missing_frames t <= _max_missing tr))
      by (intros t [-> _]%Hnews; done).
    destruct (decide (0 <= _max_missing tr /\ _min_confirm tr <= 1))
      as [[? _]|_]; done.
Qed.

End Update.

(** The tracker of [one_track] is in a session; its track is matched by a
    cluster 100 mm away. *)
Lemma track_lifecycle_witness :
  exists tr' objs,
    update Qsqrt one_track [cluster_at 1100 1000] = Some (tr', objs) /\
    forall t', t' ∈ _tracks tr' -> _Track.track_id t' = 1 ->
      _Track.age t' = 1 + 1 /\ _Track.confirmed t' = true.
Proof.
  destruct (update_total Qsqrt one_track [cluster_at 1100 1000])
    as [[tr' objs] Hupd].
  exists tr', objs. split; [exact Hupd|].
  destruct (track_lifecycle Qsqrt one_track [cluster_at 1100 1000] tr' objs)
    as (H1 & _).
  - exact (run_wf Qsqrt 800 10 1 _ _ _ one_track_reached).
  - exact Hupd.
  - intros t' Ht' Hid.
    destruct (H1 0%nat (new_track 1 1 (cluster_at 1000 1000)) t' eq_refl Ht' Hid)
      as (Hage & Hconf & _).
    split; [exact Hage|]. apply Hconf. left. reflexivity.
Defined.

(** The track of [one_track] is not matched by a cluster 5 m away: it
    stays, since its counter becomes 1, which is at most 10. *)
Lemma track_retirement_witness :
  exists tr' objs,
    update Qsqrt one_track [cluster_at 6000 1000] = Some (tr', objs) /\
    (exists t', t' ∈ _tracks tr' /\ _Track.track_id t' = 1) /\
    forall id, 2 <= id < _next_id tr' -> id ∈ _Track.track_id <$> _tracks tr'.
Proof.
  destruct (update_total Qsqrt one_track [cluster_at 6000 1000])
    as [[tr' objs] Hupd].
  exists tr', objs. split; [exact Hupd|].
  destruct (track_retirement Qsqrt one_track [cluster_at 6000 1000] tr' objs)
    as (H1 & _ & H3).
  - exact (run_wf Qsqrt 800 10 1 _ _ _ one_track_reached).
  - exact Hupd.
  - split.
    + apply (H1 0%nat (new_track 1 1 (cluster_at 1000 1000)) eq_refl).
      right. split; [|vm_compute; discriminate].
      intros k Hk. vm_compute in Hk. by apply elem_of_nil in Hk.
    + apply H3. vm_compute. discriminate.
Defined.

(** The same update publishes the new track, and only it. *)
Lemma published_objects_witness :
  exists tr' objs,
    update Qsqrt one_track [cluster_at 6000 1000] = Some (tr', objs) /\
    to_object (new_track 1 2 (cluster_at 6000 1000)) ∈ objs /\
    to_object (aged_track (new_track 1 1 (cluster_at 1000 1000))) ∉ objs.
Proof.
  destruct (update_total Qsqrt one_track [cluster_at 6000 1000])
    as [[tr' objs] Hupd].
  exists tr', objs. split; [exact Hupd|].
  pose proof (published_objects Qsqrt one_track [cluster_at 6000 1000] tr' objs
                (run_wf Qsqrt 800 10 1 _ _ _ one_track_reached) Hupd) as H.
  split.
  - apply H. split; [vm_compute; discriminate|]. right.
    exists 0%nat, 0%nat, (cluster_at 6000 1000).
    split_and!; [reflexivity|reflexivity|vm_compute; discriminate|reflexivity].
  - intros [_ [(i & k & t & c & Hik & _)|(j & k & c & Hj & Hc & _ & Heq)]]%H.
    + vm_compute in Hik. by apply elem_of_nil in Hik.
    + destruct j as [|j]; [|done]. injection Hj as <-. injection Hc as <-.
      discriminate Heq.
Defined.

(** With [max_missing_frames = 3], four empty frames remove the track of
    the first frame. *)
Lemma lost_tracks_retire_witness :
  exists tr1 outs tr',
    run Qsqrt (init 800 3 1) [[cluster_at 1000 1000]] = Some (tr1, outs) /\
    _tracks tr1 <> [] /\
    run Qsqrt tr1 (replicate 4 []) = Some (tr', replicate 4 []) /\
    _tracks tr' = [] /\ _next_id tr' = _next_id tr1.
Proof.
  destruct (run Qsqrt (init 800 3 1) [[cluster_at 1000 1000]])
    as [[tr1 outs]|] eqn:Hrun; [|vm_compute in Hrun; discriminate].
  exists tr1, outs.
  destruct (lost_tracks_retire Qsqrt tr1 4) as (tr' & H1 & H2 & H3).
  - exact (run_wf Qsqrt 800 3 1 _ _ _ Hrun).
  - lia.
  - vm_compute in Hrun. injection Hrun as <- _. reflexivity.
  - exists tr'. split_and!; [reflexivity| |exact H1|exact H2|exact H3].
    vm_compute in Hrun. injection Hrun as <- _. discriminate.
Defined.

(** The first frame of the default tracker with two clusters. *)
Lemma first_update_spawns_all_witness :
  update Qsqrt (init 800 10 2) [cluster_at 1000 1000; cluster_at 3000 3000]
  = Some ({| _max_match_dist := 800; _max_missing := 10; _min_confirm := 2;
             _next_id := 3;
             _tracks := [new_track 2 1 (cluster_at 1000 1000);
                         new_track 2 2 (cluster_at 3000 3000)] |}, []).
Proof.
  exact (first_update_spawns_all Qsqrt (init 800 10 2)
           [cluster_at 1000 1000; cluster_at 3000 3000] eq_refl).
Defined.

End TrackerMore.

(** ** background.py: sessions of [update], [classify] and [reset] *)

Module BackgroundMore.
Import Background BackgroundFacts.

Lemma same_config_refl m : same_config m m.
Proof. by unfold same_config. Qed.

Lemma same_config_trans m1 m2 m3 :
  same_config m1 m2 -> same_config m2 m3 -> same_config m1 m3.
Proof.
  unfold same_config. intros (?&?&?&?&?) (?&?&?&?&?). split_and!; congruence.
Qed.

Lemma angle_to_bin_config m m' a :
  same_config m m' -> _angle_to_bin m' a = _angle_to_bin m a.
Proof. intros (Hn & Hw & _). unfold _angle_to_bin. by rewrite Hn, Hw. Qed.

(** What an iteration of the loop of [update] leaves in the two arrays. *)
Lemma update_point_arrays m p m' :
  wf m -> update_point m p = Some m' ->
  wf m' /\ same_config m m' /\ _frame_count m' = _frame_count m /\
  exists b cnt cur,
    _angle_to_bin m (PolarPoint.angle_deg p) = Some (Z.of_nat b) /\
    _bin_counts m !! b = Some cnt /\ _background m !! b = Some cur /\
    _bin_counts m' = <[b := cnt + 1]> (_bin_counts m) /\
    _background m' =
      <[b := next_bg (_threshold m) (_learning_rate m) cnt cur
               (PolarPoint.distance_mm p)]> (_background m).
Proof.
  intros Hwf Hupd.
  destruct (update_point_wf m p Hwf) as (m1 & Hm1 & Hwf1 & Hcfg & Hfc).
  assert (m1 = m') as -> by congruence.
  split_and!; [done..|].
  destruct (update_point_spec m p Hwf) as (b & cnt & cur & Hb & Hc & Hg & Heq).
  exists b, cnt, cur. rewrite Hupd in Heq. injection Heq as ->.
  by split_and!.
Qed.

(** Induction over a session: a property that every loop iteration of
    [update] and the increment of the frame counter keep holds after any
    number of scans, and no call raises. *)
Section Session.
Variable I : BackgroundModel -> Prop.
Variable P : PolarPoint.t -> Prop.
Hypothesis I_point : forall m p m',
  wf m -> I m -> P p -> update_point m p = Some m' -> I m'.
Hypothesis I_frame : forall m, I m -> I (bump_frame m).

Lemma update_points_session pts : forall m,
  wf m -> I m -> Forall P pts ->
  exists m', update_points m pts = Some m' /\ wf m' /\ same_config m m' /\
             I m' /\ _frame_count m' = _frame_count m.
Proof.
  unfold update_points.
  induction pts as [|p pts IH]; intros m Hwf HI Hall.
  - exists m. split_and!; [done|done|apply same_config_refl|done|done].
  - apply Forall_cons in Hall as [Hp Hall].
    destruct (update_point_wf m p Hwf) as (m1 & Hm1 & Hwf1 & Hcfg1 & Hfc1).
    rewrite fold_opt_cons, Hm1, bind_Some_l.
    destruct (IH m1 Hwf1 (I_point m p m1 Hwf HI Hp Hm1) Hall)
      as (m' & -> & Hwf' & Hcfg' & HI' & Hfc').
    exists m'. split_and!; [done|done| |done|congruence].
    by eapply same_config_trans.
Qed.

Lemma update_session m pts :
  wf m -> I m -> Forall P pts ->
  exists m', update m pts = Some m' /\ wf m' /\ same_config m m' /\
             I m' /\ _frame_count m' = _frame_count m + 1.
Proof.
  intros Hwf HI Hall.
  destruct (update_points_session pts m Hwf HI Hall)
    as (m1 & Hm1 & Hwf1 & Hcfg1 & HI1 & Hfc1).
  exists (bump_frame m1). unfold update. rewrite Hm1, bind_Some_l.
  split_and!; [done|done|done|by apply I_frame|].
  cbn [bump_frame _frame_count]. by rewrite Hfc1.
Qed.

Lemma run_updates_session scans : forall m,
  wf m -> I m -> Forall (Forall P) scans ->
  exists m', run_updates m scans = Some m' /\ wf m' /\ same_config m m' /\
             I m' /\ _frame_count m' = _frame_count m + Z.of_nat (length scans).
Proof.
  unfold run_updates.
  induction scans as [|pts scans IH]; intros m Hwf HI Hall.
  - exists m. cbn [fold_opt length]. rewrite Z.add_0_r.
    split_and!; [done|done|apply same_config_refl|done|done].
  - apply Forall_cons in Hall as [Hpts Hall].
    destruct (update_session m pts Hwf HI Hpts)
      as (m1 & Hm1 & Hwf1 & Hcfg1 & HI1 & Hfc1).
    rewrite fold_opt_cons, Hm1, bind_Some_l.
    destruct (IH m1 Hwf1 HI1 Hall) as (m' & -> & Hwf' & Hcfg' & HI' & Hfc').
    exists m'. split_and!; [done|done| |done|].
    + by eapply same_config_trans.
    + rewrite Hfc', Hfc1. cbn [length]. lia.
Qed.

End Session.

Lemma Forall_True {A} (l : list A) : Forall (fun _ => True) l.
Proof. by apply Forall_forall. Qed.

Lemma Forall_Forall_True {A} (l : list (list A)) :
  Forall (Forall (fun _ => True)) l.
Proof. apply Forall_forall. intros; apply Forall_True. Qed.

(** *** The counts and the background go together *)

(** A bin has been written exactly when its count is not zero. *)
Definition seen_inv (m : BackgroundModel) : Prop :=
  forall b cnt, _bin_counts m !! b = Some cnt ->
    0 <= cnt /\
    (cnt = 0 -> _background m !! b = Some Inf) /\
    (cnt <> 0 -> exists g, _background m !! b = Some (Fin g)).

Lemma init_seen bins lr T F m0 : init bins lr T F = Some m0 -> seen_inv m0.
Proof.
  unfold init. destruct (bins <=? 0); [done|]. intros [= <-] b cnt.
  cbn [_bin_counts _background].
  intros [-> Hb]%lookup_replicate. split_and!; [done| |done].
  intros _. by apply lookup_replicate_2.
Qed.

Lemma update_point_seen m p m' :
  wf m -> seen_inv m -> True -> update_point m p = Some m' -> seen_inv m'.
Proof.
  intros Hwf Hinv _ Hupd.
  destruct (update_point_arrays m p m' Hwf Hupd)
    as (_ & _ & _ & b & cnt & cur & _ & Hc & Hg & Hcs & Hbg).
  destruct (Hinv b cnt Hc) as (Hpos & Hzero & Hseen).
  intros b' cnt'. rewrite Hcs, Hbg.
  destruct (decide (b' = b)) as [->|Hne].
  - rewrite !list_lookup_insert_eq by (by eapply lookup_lt_Some).
    intros [= <-]. split_and!; [lia|lia|]. intros _. unfold next_bg.
    destruct (Z.eqb_spec cnt 0) as [?|Hnz]; [eauto|].
    destruct (Hseen Hnz) as [g Hg']. rewrite Hg in Hg'. injection Hg' as ->.
    destruct (Qgeb _ _); eauto.
  - rewrite !list_lookup_insert_ne by done. apply Hinv.
Qed.

Lemma bump_frame_seen m : seen_inv m -> seen_inv (bump_frame m).
Proof. done. Qed.

(** A session from the constructor. *)
Lemma session bins lr T F scans :
  1 <= bins ->
  exists m0 m,
    init bins lr T F = Some m0 /\ run_updates m0 scans = Some m /\
    wf m0 /\ wf m /\ same_config m0 m /\ seen_inv m /\
    _num_bins m = bins /\ _learning_rate m = lr /\ _threshold m = T /\
    _min_frames m = F /\ _frame_count m = Z.of_nat (length scans).
Proof.
  intros Hb.
  destruct (init_wf bins lr T F Hb)
    as (m0 & H0 & Hwf0 & Hn0 & Hlr0 & HT0 & HF0 & Hfc0 & _).
  destruct (run_updates_session seen_inv (fun _ => True) update_point_seen
              bump_frame_seen scans m0 Hwf0 (init_seen _ _ _ _ _ H0)
              (Forall_Forall_True scans))
    as (m & Hrun & Hwf & Hcfg & Hseen & Hfc).
  exists m0, m. pose proof Hcfg as (? & ? & ? & ? & ?).
  split_and!; [done..|congruence|congruence|congruence|congruence|lia].
Qed.


(** *** Counting the samples of a bin *)

(** The points of a scan that fall into bin [b]. *)
Definition in_bin (m : BackgroundModel) (b : nat) (p : PolarPoint.t) : Prop :=
  _angle_to_bin m (PolarPoint.angle_deg p) = Some (Z.of_nat b).

#[local] Instance in_bin_dec m b p : Decision (in_bin m b p).
Proof. unfold in_bin. apply _. Defined.

Definition samples (m : BackgroundModel) (b : nat) (pts : list PolarPoint.t)
    : Z :=
  Z.of_nat (length (filter (in_bin m b) pts)).

Lemma samples_cons m b p pts :
  samples m b (p :: pts)
  = (if decide (in_bin m b p) then 1 else 0) + samples m b pts.
Proof.
  unfold samples. destruct (decide (in_bin m b p)).
  - rewrite filter_cons_True by done. cbn [length]. lia.
  - rewrite filter_cons_False by done. lia.
Qed.

Lemma samples_app m b l1 l2 :
  samples m b (l1 ++ l2) = samples m b l1 + samples m b l2.
Proof. unfold samples. rewrite filter_app, length_app. lia. Qed.

Lemma samples_config m m' b pts :
  same_config m m' -> samples m' b pts = samples m b pts.
Proof.
  intros Hcfg. unfold samples. do 2 f_equal. apply list_filter_iff.
  intros p. unfold in_bin. by rewrite (angle_to_bin_config m m').
Qed.

Lemma update_points_count pts : forall m m' b c,
  wf m -> update_points m pts = Some m' ->
  _bin_counts m !! b = Some c ->
  _bin_counts m' !! b = Some (c + samples m b pts).
Proof.
  unfold update_points.
  induction pts as [|p pts IH]; intros m m' b c Hwf Hupd Hc.
  - injection Hupd as <-. unfold samples. cbn. by rewrite Z.add_0_r.
  - rewrite fold_opt_cons in Hupd.
    destruct (update_point m p) as [m1|] eqn:Hm1; [|done].
    rewrite bind_Some_l in Hupd.
    destruct (update_point_arrays m p m1 Hwf Hm1)
      as (Hwf1 & Hcfg1 & _ & b0 & cnt & cur & Hb0 & Hc0 & _ & Hcs & _).
    rewrite samples_cons, Z.add_assoc, <- (samples_config m m1) by done.
    apply (IH m1 m' b); [done..|]. rewrite Hcs.
    destruct (decide (in_bin m b p)) as [Hin|Hnin].
    + unfold in_bin in Hin. rewrite Hb0 in Hin.
      assert (b0 = b) as -> by (injection Hin; lia).
      rewrite list_lookup_insert_eq by (by eapply lookup_lt_Some). congruence.
    + rewrite list_lookup_insert_ne, Z.add_0_r; [done|].
      intros ->. by apply Hnin.
Qed.

Lemma update_Some m pts m1 :
  update_points m pts = Some m1 -> update m pts = Some (bump_frame m1).
Proof. unfold update. by intros ->. Qed.

Lemma run_updates_count scans : forall m m' b c,
  wf m -> run_updates m scans = Some m' ->
  _bin_counts m !! b = Some c ->
  _bin_counts m' !! b = Some (c + samples m b (concat scans)).
Proof.
  unfold run_updates.
  induction scans as [|pts scans IH]; intros m m' b c Hwf Hrun Hc.
  - injection Hrun as <-. unfold samples. cbn. by rewrite Z.add_0_r.
  - rewrite fold_opt_cons in Hrun.
    destruct (update_points_wf m pts Hwf) as (m1 & Hm1 & Hwf1 & Hcfg1 & _).
    rewrite (update_Some m pts m1 Hm1), bind_Some_l in Hrun.
    cbn [concat]. rewrite samples_app, Z.add_assoc.
    rewrite <- (samples_config m (bump_frame m1) b (concat scans)) by done.
    apply (IH (bump_frame m1) m' b); [done|done|].
    cbn [bump_frame _bin_counts]. by apply (update_points_count pts m).
Qed.


(** *** What [classify] returns *)

(** The test of the loop of [classify] on a point: its bin holds a finite
    background that is farther than the point by more than the
    threshold. *)
Definition closer (m : BackgroundModel) (p : PolarPoint.t) : Prop :=
  exists b g,
    _angle_to_bin m (PolarPoint.angle_deg p) = Some (Z.of_nat b) /\
    _background m !! b = Some (Fin g) /\
    (_threshold m < g - PolarPoint.distance_mm p)%Q.

Lemma classify_points_spec m pts :
  wf m ->
  exists fg,
    classify_points m pts = Some fg /\ fg `sublist_of` pts /\
    forall p, p ∈ fg <-> p ∈ pts /\ closer m p.
Proof.
  intros Hwf. induction pts as [|p pts (fg & IH & Hsub & Hfg)].
  - exists []. split_and!; [done..|]. intros p. split; [by intros ?%elem_of_nil|].
    by intros [?%elem_of_nil _].
  - destruct (angle_to_bin_wf m (PolarPoint.angle_deg p) Hwf) as (b & Hb & Hr).
    pose proof Hwf as (_ & _ & Hlen & _).
    destruct (py_get_in_range (_background m) b) as (cur & Hget & Hcur); [lia|].
    cbn [classify_points]. rewrite Hb, bind_Some_l, Hget, bind_Some_l, IH, bind_Some_l.
    assert (Hp : closer m p <->
              exists g, cur = Fin g /\
                        (_threshold m < g - PolarPoint.distance_mm p)%Q).
    { split.
      - intros (b' & g & Hb' & Hg & Hlt). exists g. split; [|done].
        rewrite Hb in Hb'. injection Hb' as ->.
        rewrite Nat2Z.id in Hcur. congruence.
      - intros (g & -> & Hlt). exists (Z.to_nat b), g.
        rewrite Z2Nat.id by lia. done. }
    destruct cur as [|g].
    + exists fg. split_and!; [done|by apply sublist_cons|].
      intros q. rewrite Hfg, elem_of_cons. split; [tauto|].
      intros [[->|?] Hq]; [|done].
      apply Hp in Hq as (g & ? & _). done.
    + destruct (Qgtb (g - PolarPoint.distance_mm p) (_threshold m)) eqn:E.
      * apply Qgtb_true in E. exists (p :: fg).
        split_and!; [done|by apply sublist_skip|].
        intros q. rewrite !elem_of_cons, Hfg. split; [|tauto].
        intros [->|?]; [|tauto]. split; [by left|]. apply Hp. eauto.
      * apply Qgtb_false in E. exists fg.
        split_and!; [done|by apply sublist_cons|].
        intros q. rewrite Hfg, elem_of_cons. split; [tauto|].
        intros [[->|?] Hq]; [|done].
        apply Hp in Hq as (g' & [= <-] & Hlt). lra.
Qed.


(** *** Foreground samples and the background *)


(** *** The moving average stays within the samples *)

Definition within (lo hi : Q) (m : BackgroundModel) : Prop :=
  forall b g, _background m !! b = Some (Fin g) -> (lo <= g <= hi)%Q.


(** *** [reset] *)

(** X16.  [reset] gives back the model that the constructor built: after
    any sequence of scans, the reset model equals the fresh one, field by
    field. *)
Theorem reset_restores_init (angle_bins : Z) (lr T : Q) (F : Z)
    (scans : list (list PolarPoint.t)) :
  1 <= angle_bins ->
  exists m0 m,
    init angle_bins lr T F = Some m0 /\ run_updates m0 scans = Some m /\
    reset m = m0.
Proof.
  intros Hb.
  destruct (session angle_bins lr T F scans Hb)
    as (m0 & m & H0 & Hrun & _ & Hwf & Hcfg & _ & Hn & _).
  exists m0, m. split_and!; [done..|].
  destruct Hwf as (_ & _ & Hl1 & Hl2).
  destruct Hcfg as (Hn' & Hw & Hlr & HT & HF).
  unfold init in H0. destruct (angle_bins <=? 0); [done|].
  injection H0 as <-. cbn in Hn', Hw, Hlr, HT, HF.
  unfold reset. rewrite Hl1, Hl2, Hn, Hw, Hlr, HT, HF. done.
Qed.

(** *** Instances *)

Definition pp (a d : Q) : PolarPoint.t := PolarPoint.mk a d.






Lemma reset_restores_init_witness :
  exists m0 m,
    init 4 (1 # 2) 150 1 = Some m0 /\
    run_updates m0 [[pp 0 5000]; [pp 10 4000]] = Some m /\
    reset m = m0.
Proof.
  apply (reset_restores_init 4 (1 # 2) 150 1 [[pp 0 5000]; [pp 10 4000]]). lia.
Defined.

End BackgroundMore.

(** ** clustering.py: when [cluster_points] raises, and what it returns *)

Module ClusteringMore.
Import Clustering ClusteringFacts.

Lemma floats_max_ub a m :
  floats_max a = Some m -> forall d, d ∈ a -> (d <= m)%Q.
Proof.
  destruct a as [|d0 ds]; [done|]. cbn [floats_max]. intros [= <-].
  induction ds as [|e ds IH]; cbn [foldr].
  - intros d ->%list_elem_of_singleton. lra.
  - intros d [->|[->|Hd]%elem_of_cons]%elem_of_cons.
    + eapply Qle_trans; [apply IH; by left|]. apply Q.le_max_r.
    + apply Q.le_max_l.
    + eapply Qle_trans; [apply IH; by right|]. apply Q.le_max_r.
Qed.

Lemma zip_fst_sublist {A B} (l : list A) (k : list B) :
  (zip l k).*1 `sublist_of` l.
Proof.
  revert k. induction l as [|a l IH]; intros [|b k]; cbn; try done.
  - apply sublist_nil_l.
  - by apply sublist_skip.
Qed.

Lemma masked_sublist xy labels label : masked xy labels label `sublist_of` xy.
Proof.
  unfold masked. rewrite map_is_fmap.
  etrans; [apply fmap_sublist, sublist_filter|]. apply zip_fst_sublist.
Qed.

Lemma points_of_xy (points : list CartesianPoint.t) :
  map (fun row : Q * Q => CartesianPoint.mk row.1 row.2)
      (map (fun p => (CartesianPoint.x p, CartesianPoint.y p)) points)
  = points.
Proof.
  induction points as [|[x y] points IH]; [done|]. cbn [map]. by rewrite IH.
Qed.

Lemma xs_of_points (l : list (Q * Q)) :
  map CartesianPoint.x (map (fun row : Q * Q => CartesianPoint.mk row.1 row.2) l)
  = map fst l /\
  map CartesianPoint.y (map (fun row : Q * Q => CartesianPoint.mk row.1 row.2) l)
  = map snd l.
Proof. induction l as [|p l [IH1 IH2]]; [done|]. cbn [map]. by rewrite IH1, IH2. Qed.

Section Returned.
Variable sqrt : Q -> Q.

(** [cluster_points] returns when [eps_mm] is not zero and there is a
    point, whatever [min_samples]. *)
Lemma cluster_points_returns points eps_mm min_samples R :
  Qeq_bool eps_mm 0 = false -> points <> [] ->
  is_Some (cluster_points sqrt points eps_mm min_samples R).
Proof.
  intros Heps Hne. unfold cluster_points.
  destruct (Z.of_nat (length points) <? min_samples) eqn:E; [done|].
  set (xy := map (fun p => (CartesianPoint.x p, CartesianPoint.y p)) points).
  assert (Hn : (1 <= length xy)%nat).
  { unfold xy. rewrite length_map. destruct points; [done|simpl; lia]. }
  destruct (grid_dbscan_total xy eps_mm Heps min_samples)
    as (labels & cid & -> & Hcid & Hlen & Hrange & Hinh).
  rewrite bind_Some_l.
  destruct labels as [|l ls]; [simpl in Hlen; lia|].
  cbn [labels_max]. rewrite bind_Some_l.
  apply emit_clusters_total. intros L [HL0 HL]%elem_of_py_range.
  assert (Htop : foldr Z.max l ls < cid).
  { destruct (list_elem_of_lookup_1 _ _ (foldr_Zmax_elem l ls)) as [i Hi].
    apply Hrange in Hi. lia. }
  destruct (Hinh L) as [i Hi]; [lia|].
  by apply (masked_nonempty _ _ _ i).
Qed.


(** What the loop body of [cluster_points] puts into a cluster. *)
Lemma make_cluster_geometry xy labels R label c :
  make_cluster sqrt xy labels R label = Some (Some c) ->
  let pts := Cluster.points c in
  let n := inject_Z (Z.of_nat (length pts)) in
  let cx := (Qsum (map CartesianPoint.x pts) / n)%Q in
  let cy := (Qsum (map CartesianPoint.y pts) / n)%Q in
  pts = map (fun row => CartesianPoint.mk row.1 row.2) (masked xy labels label) /\
  Cluster.centroid c = CartesianPoint.mk cx cy /\
  forall p, p ∈ pts ->
    (sqrt ((CartesianPoint.x p - cx) * (CartesianPoint.x p - cx)
           + (CartesianPoint.y p - cy) * (CartesianPoint.y p - cy))
     <= Cluster.bounding_radius_mm c)%Q.
Proof.
  unfold make_cluster.
  set (cluster_xy := masked xy labels label).
  destruct (floats_max _) as [r|] eqn:Hmax; [|done].
  rewrite bind_Some_l. destruct (Qgtb r R); [done|].
  intros [= <-]. cbn [Cluster.points Cluster.centroid Cluster.bounding_radius_mm].
  destruct (xs_of_points cluster_xy) as [-> ->]. rewrite length_map.
  split_and!; [done..|].
  intros p Hp. rewrite map_is_fmap in Hp.
  apply list_elem_of_fmap in Hp as (row & -> & Hrow).
  cbn [CartesianPoint.x CartesianPoint.y].
  apply (floats_max_ub _ _ Hmax).
  match goal with
  | |- _ ∈ map ?f _ => change (f row ∈ f <$> cluster_xy)
  end.
  by apply list_elem_of_fmap_2.
Qed.

(** X18.  What a returned cluster is made of.  Its points are points of
    the input, in the order of the input; its centroid is the mean of its
    own points, coordinate by coordinate; and its bounding radius is at
    least the distance ([np.sqrt] of the squared norm) from the centroid
    to each of its points. *)
Theorem cluster_geometry (points : list CartesianPoint.t) (eps_mm : Q)
    (min_samples : Z) (max_cluster_radius_mm : Q)
    (clusters : list Cluster.t) (c : Cluster.t) :
  cluster_points sqrt points eps_mm min_samples max_cluster_radius_mm
    = Some clusters ->
  c ∈ clusters ->
  let pts := Cluster.points c in
  let n := inject_Z (Z.of_nat (length pts)) in
  let cx := (Qsum (map CartesianPoint.x pts) / n)%Q in
  let cy := (Qsum (map CartesianPoint.y pts) / n)%Q in
  pts `sublist_of` points /\
  Cluster.centroid c = CartesianPoint.mk cx cy /\
  forall p, p ∈ pts ->
    (sqrt ((CartesianPoint.x p - cx) * (CartesianPoint.x p - cx)
           + (CartesianPoint.y p - cy) * (CartesianPoint.y p - cy))
     <= Cluster.bounding_radius_mm c)%Q.
Proof.
  unfold cluster_points.
  destruct (Z.of_nat (length points) <? min_samples).
  { intros [= <-] ?%elem_of_nil. done. }
  destruct (_grid_dbscan _ eps_mm min_samples) as [labels|]; [|done].
  rewrite bind_Some_l.
  destruct (labels_max labels) as [top|]; [|done].
  rewrite bind_Some_l. intros Hemit Hc.
  destruct (emit_clusters_emitted sqrt _ _ _ _ _ _ Hemit Hc) as (label & _ & Hmk).
  apply make_cluster_geometry in Hmk as (Hpts & Hcen & Hrad).
  split_and!; [|done|done].
  rewrite Hpts.
  pose proof (masked_sublist
                (map (fun p => (CartesianPoint.x p, CartesianPoint.y p)) points)
                labels label) as Hs.
  apply (fmap_sublist (fun row : Q * Q => CartesianPoint.mk row.1 row.2)) in Hs.
  rewrite <- !map_is_fmap in Hs. by rewrite points_of_xy in Hs.
Qed.

End Returned.

Lemma cluster_geometry_witness :
  Forall (fun c =>
            Cluster.points c `sublist_of` RepoTests.row 0 10 10 /\
            Cluster.centroid c
            = CartesianPoint.mk
                (Qsum (map CartesianPoint.x (Cluster.points c))
                 / inject_Z (Z.of_nat (length (Cluster.points c))))
                (Qsum (map CartesianPoint.y (Cluster.points c))
                 / inject_Z (Z.of_nat (length (Cluster.points c)))))
         (default [] (cluster_points Qsqrt (RepoTests.row 0 10 10) 50 3 500)).
Proof.
  apply Forall_forall. intros c Hc.
  destruct (cluster_points Qsqrt (RepoTests.row 0 10 10) 50 3 500)
    as [cs|] eqn:E.
  - destruct (cluster_geometry Qsqrt (RepoTests.row 0 10 10) 50 3 500 cs c E Hc)
      as (H1 & H2 & _).
    split; [exact H1|exact H2].
  - apply elem_of_nil in Hc. destruct Hc.
Defined.

End ClusteringMore.

(** ** clustering.py: the grid index and the core points *)

Module GridIndex.
Import Clustering ClusteringFacts.

Lemma elem_of_concat_map_iff {A B} (f : A -> list B) (l : list A) y :
  y ∈ concat (map f l) <-> exists a, a ∈ l /\ y ∈ f a.
Proof.
  induction l as [|a l IH]; cbn [map concat].
  - split; [by intros ?%elem_of_nil|]. by intros (a & ?%elem_of_nil & _).
  - rewrite elem_of_app, IH. split.
    + intros [?|(a' & ? & ?)]; [exists a; split; [by left|done]|].
      exists a'. split; [by right|done].
    + intros (a' & [->|?]%elem_of_cons & ?); [by left|]. right. eauto.
Qed.

Lemma NoDup_concat_map {A B} (f : A -> list B) (l : list A) :
  NoDup l -> (forall a, a ∈ l -> NoDup (f a)) ->
  (forall a a' y, a ∈ l -> a' ∈ l -> y ∈ f a -> y ∈ f a' -> a = a') ->
  NoDup (concat (map f l)).
Proof.
  induction l as [|a l IH]; intros Hnd Hf Hdisj; cbn [map concat].
  - constructor.
  - apply NoDup_cons in Hnd as [Ha Hnd]. apply NoDup_app. split_and!.
    + apply Hf. by left.
    + intros y Hy (a' & Ha' & Hy')%elem_of_concat_map_iff.
      assert (a = a') as -> by (apply (Hdisj a a' y); [by left|by right|done..]).
      done.
    + apply IH; [done| |].
      * intros a' ?. apply Hf. by right.
      * intros a1 a2 y ? ?. apply Hdisj; by right.
Qed.

Lemma elem_of_offsets dx dy :
  (dx, dy) ∈ offsets <-> (-1 <= dx <= 1 /\ -1 <= dy <= 1).
Proof.
  unfold offsets. rewrite !elem_of_cons, elem_of_nil. split.
  - intros H. repeat (destruct H as [[= -> ->]|H]; [lia|]). done.
  - intros [Hx Hy].
    assert (dx = -1 \/ dx = 0 \/ dx = 1) as [ -> | [ -> | -> ] ] by lia;
      assert (dy = -1 \/ dy = 0 \/ dy = 1) as [ -> | [ -> | -> ] ] by lia; tauto.
Qed.

Lemma NoDup_offsets : NoDup offsets.
Proof.
  apply (bool_decide_unpack (NoDup offsets)). vm_compute. exact I.
Qed.

Section Grid.
Variable xy : list (Q * Q).
Variable eps : Q.
Hypothesis eps_nonzero : Qeq_bool eps 0 = false.

(** The cell of a point. *)
Definition cell (p : Q * Q) : Z * Z :=
  (py_floordiv p.1 eps, py_floordiv p.2 eps).

Lemma cell_of_eq p : cell_of eps p = Some (cell p).
Proof. unfold cell_of. by rewrite eps_nonzero. Qed.

(** After the indices [seen], the grid holds under each key the seen
    indices of the points of that cell, each once. *)
Definition grid_exact (seen : list nat) (cells : grid) : Prop :=
  forall key,
    NoDup (cells_get cells key) /\
    forall j, j ∈ cells_get cells key <->
      j ∈ seen /\ exists p, xy !! j = Some p /\ cell p = key.

Lemma cells_get_insert (cells : grid) key l key' :
  cells_get (<[key := l]> cells) key'
  = if decide (key = key') then l else cells_get cells key'.
Proof.
  unfold cells_get. destruct (decide (key = key')) as [->|?].
  - by rewrite lookup_insert_eq.
  - by rewrite lookup_insert_ne.
Qed.

Lemma build_cells_exact idxs : forall cells seen,
  grid_exact seen cells -> NoDup idxs ->
  (forall i, i ∈ idxs -> (i ∉ seen) /\ (i < length xy)%nat) ->
  exists cells',
    build_cells xy eps idxs cells = Some cells' /\
    grid_exact (seen ++ idxs) cells'.
Proof.
  induction idxs as [|i idxs IH]; intros cells seen Hex Hnd Hidx.
  - exists cells. by rewrite app_nil_r.
  - apply NoDup_cons in Hnd as [Hi Hnd].
    destruct (Hidx i) as [Hnew Hlt]; [by left|].
    destruct (lookup_lt_is_Some_2 xy i Hlt) as [p Hp].
    cbn [build_cells]. rewrite Hp, bind_Some_l, cell_of_eq, bind_Some_l.
    destruct (IH (<[cell p := cells_get cells (cell p) ++ [i]]> cells)
                 (seen ++ [i])) as (cells' & -> & Hex').
    + intros key. rewrite cells_get_insert.
      destruct (decide (cell p = key)) as [<-|Hne].
      * destruct (Hex (cell p)) as [Hnd0 Hin0]. split.
        -- apply NoDup_app. split_and!; [done| |apply NoDup_singleton].
           intros j Hj ->%list_elem_of_singleton.
           apply Hin0 in Hj as [? _]. done.
        -- intros j. rewrite !elem_of_app, !list_elem_of_singleton, Hin0.
           split.
           ++ intros [[? ?]| ->]; [tauto|]. split; [by right|]. eauto.
           ++ intros [[?| ->] Hc]; [left; tauto|by right].
      * destruct (Hex key) as [Hnd0 Hin0]. split; [done|].
        intros j. rewrite Hin0, elem_of_app, list_elem_of_singleton. split.
        -- intros [? ?]. tauto.
        -- intros [[?| ->] (q & Hq & Hc)]; [eauto|].
           rewrite Hp in Hq. injection Hq as <-. done.
    + done.
    + intros j Hj. destruct (Hidx j) as [? ?]; [by right|]. split; [|done].
      rewrite elem_of_app, list_elem_of_singleton. intros [?| ->]; done.
    + exists cells'. split; [done|]. by rewrite <- app_assoc in Hex'.
Qed.

(** The grid that [_grid_dbscan] builds. *)
Lemma the_grid :
  exists cells,
    build_cells xy eps (seq 0 (length xy)) ∅ = Some cells /\
    grid_ok xy (length xy) cells /\
    grid_exact (seq 0 (length xy)) cells.
Proof.
  destruct (build_cells_total xy eps eps_nonzero (seq 0 (length xy)) ∅ 0)
    as (cells & Hb & Hok).
  { intros key l. by rewrite lookup_empty. }
  { intros i Hi%elem_of_seq. lia. }
  destruct (build_cells_exact (seq 0 (length xy)) ∅ []) as (cells' & Hb' & Hex).
  { intros key. unfold cells_get. rewrite lookup_empty. cbn. split; [constructor|].
    intros j. split; [by intros ?%elem_of_nil|]. by intros [?%elem_of_nil _]. }
  { apply NoDup_seq. }
  { intros i Hi%elem_of_seq. split; [apply not_elem_of_nil|lia]. }
  assert (cells' = cells) as -> by congruence.
  exists cells. rewrite length_seq in Hok. by split_and!.
Qed.

(** Two coordinates at most [|eps|] apart fall into the same or into
    adjacent cells. *)
Lemma floor_close a b :
  ((b - a) * (b - a) <= eps * eps)%Q ->
  -1 <= py_floordiv b eps - py_floordiv a eps <= 1.
Proof.
  intros Hsq. pose proof (Qeq_bool_neq _ _ eps_nonzero) as Hne.
  unfold py_floordiv. set (u := (a / eps)%Q). set (v := (b / eps)%Q).
  assert (Hd : ((v - u) * eps == b - a)%Q) by (unfold u, v; field; done).
  assert (HE : (0 < eps * eps)%Q) by (destruct (Q_dec eps 0) as [[?|?]|?]; [nra|nra|done]).
  assert (Hw : ((v - u) * (v - u) * (eps * eps) <= eps * eps)%Q).
  { assert (((v - u) * (v - u) * (eps * eps)
             == ((v - u) * eps) * ((v - u) * eps))%Q) as -> by ring.
    by rewrite Hd. }
  assert (Hclose : (-1 <= v - u <= 1)%Q).
  { set (w := (v - u)%Q) in *. set (E := (eps * eps)%Q) in *.
    split; apply Qnot_lt_le; intros Hlt.
    - assert (E < (- w) * E)%Q by nra.
      assert ((- w) * E < (- w) * ((- w) * E))%Q by nra. nra.
    - assert (E < w * E)%Q by nra.
      assert (w * E < w * (w * E))%Q by nra. nra. }
  pose proof (Qfloor_le u) as Hu1. pose proof (Qlt_floor u) as Hu2.
  pose proof (Qfloor_le v) as Hv1. pose proof (Qlt_floor v) as Hv2.
  rewrite inject_Z_plus in Hu2, Hv2. change (inject_Z 1) with 1%Q in Hu2, Hv2.
  clearbody u v. split.
  - assert (Qfloor u < Qfloor v + 2); [|lia].
    rewrite Zlt_Qlt, inject_Z_plus. change (inject_Z 2) with 2%Q. lra.
  - assert (Qfloor v < Qfloor u + 2); [|lia].
    rewrite Zlt_Qlt, inject_Z_plus. change (inject_Z 2) with 2%Q. lra.
Qed.

Lemma cell_close p q :
  (dist_sq p q <= eps * eps)%Q ->
  exists d, d ∈ offsets /\ cell q = ((cell p).1 + d.1, (cell p).2 + d.2).
Proof.
  unfold dist_sq. intros Hd.
  assert (Hsq : forall t : Q, (0 <= t * t)%Q) by (intros t; nra).
  pose proof (Hsq (q.1 - p.1)%Q) as Hx. pose proof (Hsq (q.2 - p.2)%Q) as Hy.
  assert (H1 : ((q.1 - p.1) * (q.1 - p.1) <= eps * eps)%Q) by lra.
  assert (H2 : ((q.2 - p.2) * (q.2 - p.2) <= eps * eps)%Q) by lra.
  apply floor_close in H1, H2.
  exists (py_floordiv q.1 eps - py_floordiv p.1 eps,
          py_floordiv q.2 eps - py_floordiv p.2 eps).
  split; [by apply elem_of_offsets|].
  unfold cell. cbn [fst snd]. f_equal; lia.
Qed.

(** The innermost loop keeps the candidates within [eps_sq], in order. *)
Lemma within_spec p eps_sq cands :
  (forall j, j ∈ cands -> (j < length xy)%nat) ->
  exists r,
    within xy p eps_sq cands = Some r /\ r `sublist_of` cands /\
    forall j, j ∈ r <->
      j ∈ cands /\ exists q, xy !! j = Some q /\ (dist_sq p q <= eps_sq)%Q.
Proof.
  induction cands as [|j0 js IH]; intros Hc.
  - exists []. split_and!; [done..|]. intros j.
    split; [by intros ?%elem_of_nil|]. by intros [?%elem_of_nil _].
  - cbn [within].
    destruct (lookup_lt_is_Some_2 xy j0) as [q0 Hq0]; [apply Hc; by left|].
    rewrite Hq0, bind_Some_l.
    destruct IH as (r & -> & Hsub & Hin); [intros; apply Hc; by right|].
    rewrite bind_Some_l. eexists. split; [done|].
    destruct (Qle_bool (dist_sq p q0) eps_sq) eqn:E.
    + apply Qle_bool_iff in E. split; [by apply sublist_skip|].
      intros j. rewrite !elem_of_cons, Hin. split.
      * intros [->|[? ?]]; [|tauto]. split; [by left|]. eauto.
      * intros [[->|?] ?]; [by left|right; tauto].
    + split; [by apply sublist_cons|].
      intros j. rewrite elem_of_cons, Hin. split; [tauto|].
      intros [[->|?] (q & Hq & Hle)]; [|eauto].
      rewrite Hq0 in Hq. injection Hq as <-.
      apply Qle_bool_iff in Hle. congruence.
Qed.

(** [_range_query] on the grid of [_grid_dbscan]. *)
Lemma range_query_exact cells idx p :
  grid_exact (seq 0 (length xy)) cells ->
  xy !! idx = Some p ->
  exists r,
    _range_query xy idx cells eps (eps * eps) = Some r /\
    NoDup r /\
    forall j, j ∈ r <->
      exists q, xy !! j = Some q /\ (dist_sq p q <= eps * eps)%Q.
Proof.
  intros Hex Hp. unfold _range_query.
  rewrite Hp, bind_Some_l, cell_of_eq, bind_Some_l.
  set (f := fun d : Z * Z => cells_get cells ((cell p).1 + d.1, (cell p).2 + d.2)).
  assert (Hcand : forall j, j ∈ concat (map f offsets) <->
            exists q d, xy !! j = Some q /\ d ∈ offsets /\
              cell q = ((cell p).1 + d.1, (cell p).2 + d.2)).
  { intros j. rewrite elem_of_concat_map_iff. unfold f. split.
    - intros (d & Hd & Hj). apply Hex in Hj as (_ & q & Hq & Hc). eauto.
    - intros (q & d & Hq & Hd & Hc). exists d. split; [done|].
      apply Hex. split; [|eauto].
      apply elem_of_seq. apply lookup_lt_Some in Hq. lia. }
  destruct (within_spec p (eps * eps) (concat (map f offsets)))
    as (r & -> & Hsub & Hin).
  { intros j (q & _ & Hq & _)%Hcand. by eapply lookup_lt_Some. }
  exists r. split_and!; [done| |].
  - apply (sublist_NoDup _ (concat (map f offsets))); [|done].
    apply NoDup_concat_map; [apply NoDup_offsets| |].
    + intros d _. apply Hex.
    + intros d d' j _ _ Hj Hj'. unfold f in Hj, Hj'.
      apply Hex in Hj as (_ & q & Hq & Hc).
      apply Hex in Hj' as (_ & q' & Hq' & Hc').
      assert (q' = q) as -> by congruence.
      rewrite Hc in Hc'. destruct d, d'. cbn [fst snd] in Hc'.
      injection Hc' as ? ?. f_equal; lia.
  - intros j. rewrite Hin, Hcand. split; [intros [_ ?]; done|].
    intros (q & Hq & Hle). split; [|eauto].
    destruct (cell_close p q Hle) as (d & Hd & Hc). eauto.
Qed.


(** *** Core points *)

Section Loop.
Variable cells : grid.
Hypothesis cells_ok : grid_ok xy (length xy) cells.
Variable min_samples : Z.

(** A point with at least [min_samples] points in its range query. *)
Definition core (i : nat) : Prop :=
  exists r, _range_query xy i cells eps (eps * eps) = Some r /\
            min_samples <= Z.of_nat (length r).

Lemma stable_trans l1 l2 l3 : stable l1 l2 -> stable l2 l3 -> stable l1 l3.
Proof. intros H12 H23 i l Hi Hl. apply H23; [|done]. by apply H12. Qed.

(** The outer loop of [_grid_dbscan] labels every core point it visits
    and never takes a label back. *)
Lemma dbscan_loop_core idxs : forall labels cid,
  dbscan_inv xy cid labels ->
  (forall i, i ∈ idxs -> (i < length xy)%nat) ->
  exists labels',
    dbscan_loop xy cells eps (eps * eps) min_samples idxs labels cid
      = Some labels' /\
    stable labels labels' /\
    forall i, i ∈ idxs -> core i -> exists l, labels' !! i = Some l /\ 0 <= l.
Proof.
  induction idxs as [|i idxs IH]; intros labels cid Hinv Hidx.
  { exists labels. split_and!; [done|by intros i l ? _|].
    by intros i ?%elem_of_nil. }
  cbn [dbscan_loop].
  assert (Hi : (i < length xy)%nat) by (apply Hidx; by left).
  assert (Hrest : forall j, j ∈ idxs -> (j < length xy)%nat)
    by (intros; apply Hidx; by right).
  pose proof Hinv as (Hcid & Hlen & Hrange & Hinh).
  destruct (lookup_lt_is_Some_2 labels i) as [li Hli]; [lia|].
  rewrite Hli, bind_Some_l.
  destruct (li =? -1) eqn:E1; cbn [negb].
  2: { destruct (IH labels cid Hinv Hrest) as (labels' & -> & Hst & Hcore).
       exists labels'. split_and!; [done..|].
       intros j [->|Hj]%elem_of_cons Hc; [|by apply Hcore].
       exists li. pose proof (Hrange _ _ Hli).
       split; [apply Hst; [done|lia]|lia]. }
  assert (li = -1) as -> by lia.
  destruct (range_query_total xy eps eps_nonzero cells cells_ok (eps * eps) i Hi)
    as (nb & Hnb & Hnb_len & Hnb_in).
  rewrite Hnb, bind_Some_l.
  destruct (Z.ltb_spec (Z.of_nat (length nb)) min_samples) as [Hfew|Hmany].
  { destruct (IH labels cid Hinv Hrest) as (labels' & -> & Hst & Hcore).
    exists labels'. split_and!; [done..|].
    intros j [->|Hj]%elem_of_cons Hc; [|by apply Hcore].
    destruct Hc as (r & Hr & Hge). rewrite Hnb in Hr. injection Hr as <-. lia. }
  set (labels1 := <[i := cid]> labels).
  assert (Hok1 : labels_ok xy cid labels1).
  { apply labels_ok_insert; [done|]. split; [done|].
    intros j l Hj. apply Hrange in Hj. lia. }
  destruct (expand_total xy eps eps_nonzero cells cells_ok (eps * eps)
              min_samples cid (expand_fuel (length xy)) labels1 nb)
    as (labels2 & -> & [Hlen2 Hrange2] & Hst2); [done|done|done| |].
  { unfold expand_fuel. pose proof (unlabelled_le labels1) as Hu.
    destruct Hok1 as [Hlen1 _]. rewrite Hlen1 in Hu. nia. }
  rewrite bind_Some_l.
  assert (Hst1 : stable labels labels1) by (by apply stable_insert).
  assert (Hi2 : labels2 !! i = Some cid).
  { apply Hst2; [|done]. unfold labels1. apply list_lookup_insert_eq. lia. }
  destruct (IH labels2 (cid + 1)) as (labels' & -> & Hst & Hcore); [|done|].
  { split_and!; [lia|done| |].
    - intros j l Hj. apply Hrange2 in Hj. lia.
    - intros L HL. destruct (decide (L = cid)) as [->|Hne]; [eauto|].
      destruct (Hinh L) as [j Hj]; [lia|]. exists j.
      apply Hst2; [|lia]. by apply Hst1; [|lia]. }
  exists labels'. split_and!; [done| |].
  - eapply stable_trans; [|done]. by eapply stable_trans.
  - intros j [->|Hj]%elem_of_cons Hc; [|by apply Hcore].
    exists cid. split; [by apply Hst|done].
Qed.

End Loop.


End Grid.



End GridIndex.

(** ** engine.py: sessions of the engine *)

Module EngineMore.
Import Engine EngineFacts.

(** The [record] calls of [process_scan] for the objects of a frame. *)
Definition calls_of (frame_number : Z) (timestamp : option Q)
    (objs : list TrackedObject.t) : list Trajectory.call :=
  (fun o => (TrackedObject.object_id o,
             TrajectoryPoint.mk (CartesianPoint.x (TrackedObject.centroid o))
               (CartesianPoint.y (TrackedObject.centroid o))
               frame_number timestamp)) <$> objs.

Lemma record_objects fn ts objs : forall s,
  foldl (fun s obj =>
           Trajectory.record s (TrackedObject.object_id obj)
             (CartesianPoint.x (TrackedObject.centroid obj))
             (CartesianPoint.y (TrackedObject.centroid obj)) fn ts) s objs
  = Trajectory.record_all s (calls_of fn ts objs).
Proof.
  unfold Trajectory.record_all, calls_of.
  induction objs as [|o objs IH]; intros s; [done|].
  cbn [foldl fmap list_fmap]. by rewrite IH.
Qed.

Lemma calls_of_ids fn ts objs :
  (calls_of fn ts objs).*1 = TrackedObject.object_id <$> objs.
Proof. unfold calls_of. by rewrite <- list_fmap_compose. Qed.

(** With distinct ids, the history of each id ends with its point. *)
Lemma record_all_last B calls : forall s id p,
  TrajectoryFacts.store_inv B s -> NoDup calls.*1 -> (id, p) ∈ calls ->
  last (Trajectory.get (Trajectory.record_all s calls) id) = Some p.
Proof.
  induction calls as [|[id0 p0] calls IH]; intros s id p Hs Hnd Hin.
  - by apply elem_of_nil in Hin.
  - rewrite fmap_cons in Hnd. cbn [fst] in Hnd.
    apply NoDup_cons in Hnd as [Hnew Hnd].
    change (Trajectory.record_all s ((id0, p0) :: calls))
      with (Trajectory.record_all (Trajectory.record_call s (id0, p0)) calls).
    apply elem_of_cons in Hin as [[= -> ->]|Hin].
    + rewrite TrajectoryMore.get_record_all_other by done.
      rewrite (TrajectoryFacts.get_record B) by done.
      apply TrajectoryMore.appended_last.
    + apply (IH _ id p); [by apply TrajectoryFacts.record_inv|done..].
Qed.

Section WithFloatLib.
Variables sqrt radians cos sin : Q -> Q.

(** The steps of one [process_scan] that returned. *)
Lemma process_scan_steps e points timestamp e' frame :
  process_scan sqrt radians cos sin e points timestamp = Some (e', frame) ->
  let polar :=
    filter (fun p => Qgtb (PolarPoint.distance_mm p) 0 = true)
           (map normalize points) in
  exists bg fg clusters tr objs,
    Background.update (_background e) polar = Some bg /\
    Background.classify bg polar = Some fg /\
    Clustering.cluster_points sqrt
      (Math.polar_points_to_cartesian radians cos sin fg)
      (_cluster_eps e) (_cluster_min_samples e) (_max_cluster_radius e)
      = Some clusters /\
    Tracker.update sqrt (_tracker e) clusters = Some (tr, objs) /\
    e' = {| _background := bg;
            _cluster_eps := _cluster_eps e;
            _cluster_min_samples := _cluster_min_samples e;
            _max_cluster_radius := _max_cluster_radius e;
            _tracker := tr;
            _trajectories :=
              Trajectory.record_all (_trajectories e)
                (calls_of (_frame_count e) timestamp objs);
            _frame_count := _frame_count e + 1 |} /\
    frame = {| TrackingFrame.frame_number := _frame_count e;
               TrackingFrame.objects := objs;
               TrackingFrame.timestamp := timestamp |}.
Proof.
  intros Hscan polar. unfold process_scan in Hscan. fold polar in Hscan.
  destruct (Background.update (_background e) polar) as [bg|] eqn:Hbg; [|done].
  rewrite bind_Some_l in Hscan.
  destruct (Background.classify bg polar) as [fg|] eqn:Hfg; [|done].
  rewrite bind_Some_l in Hscan.
  destruct (Clustering.cluster_points _ _ _ _ _) as [clusters|] eqn:Hcl; [|done].
  rewrite bind_Some_l in Hscan.
  destruct (Tracker.update sqrt (_tracker e) clusters) as [[tr objs]|] eqn:Htr;
    [|done].
  rewrite bind_Some_l in Hscan. cbn [fst snd] in Hscan.
  rewrite record_objects in Hscan. injection Hscan as <- <-.
  by exists bg, fg, clusters, tr, objs.
Qed.

(** *** The invariant of a session *)

(** What holds of every engine reached from the one built from the
    configuration [c]: the parameters are those of [c], and the three
    components satisfy their own invariants. *)
Record session_inv (c : Config) (bg0 : Background.BackgroundModel)
    (e : TrackingEngine) : Prop := mkSessionInv {
  si_bg_wf : BackgroundFacts.wf (_background e);
  si_bg_config : BackgroundFacts.same_config bg0 (_background e);
  si_eps : _cluster_eps e = cluster_eps_mm c;
  si_min_samples : _cluster_min_samples e = cluster_min_samples c;
  si_radius : _max_cluster_radius e = max_cluster_radius_mm c;
  si_gate : Tracker._max_match_dist (_tracker e) = max_match_distance_mm c;
  si_missing : Tracker._max_missing (_tracker e) = max_missing_frames c;
  si_confirm : Tracker._min_confirm (_tracker e) = min_confirm_frames c;
  si_tracker : TrackerFacts.wf (_tracker e);
  si_store : TrajectoryFacts.store_inv (max_trajectory_length c)
               (_trajectories e) }.

Lemma init_session c e0 :
  init c = Some e0 ->
  Background.init (angle_bins c) (background_learning_rate c)
    (foreground_threshold_mm c) (min_learning_frames c)
    = Some (_background e0) /\
  session_inv c (_background e0) e0.
Proof.
  unfold init. intros Hinit.
  destruct (Background.init _ _ _ _) as [bg|] eqn:Hbg; [|done].
  rewrite bind_Some_l in Hinit. injection Hinit as <-.
  cbn [_background]. split; [done|].
  pose proof (BackgroundFacts.init_Some _ _ _ _ _ Hbg) as Hbins.
  destruct (BackgroundFacts.init_wf _ (background_learning_rate c)
              (foreground_threshold_mm c) (min_learning_frames c) Hbins)
    as (bg' & Hbg' & Hwf & _).
  assert (bg' = bg) as -> by congruence.
  constructor;
    [done|apply BackgroundMore.same_config_refl|done..
    |apply TrackerFacts.fresh_tracker_wf|apply TrajectoryFacts.init_inv].
Qed.

Lemma reset_same_config bg0 bg :
  BackgroundFacts.same_config bg0 bg ->
  BackgroundFacts.same_config bg0 (Background.reset bg).
Proof. done. Qed.

Lemma process_scan_session c bg0 e points timestamp e' frame :
  session_inv c bg0 e ->
  process_scan sqrt radians cos sin e points timestamp = Some (e', frame) ->
  session_inv c bg0 e'.
Proof.
  intros [] Hscan.
  destruct (process_scan_steps _ _ _ _ _ Hscan)
    as (bg & fg & clusters & tr & objs & Hbg & _ & _ & Htr & -> & _).
  destruct (BackgroundFacts.update_wf _
              (filter (fun p => Qgtb (PolarPoint.distance_mm p) 0 = true)
                      (map normalize points)) si_bg_wf0) as (bg1 & Hbg1 & ? & ? & _).
  rewrite Hbg in Hbg1. injection Hbg1 as <-.
  destruct (TrackerMore.update_config sqrt _ _ _ _ Htr) as (? & ? & ?).
  destruct (TrackerFacts.update_step sqrt (_tracker e) clusters si_tracker0)
    as (tr1 & objs1 & Htr1 & ? & _).
  assert (tr1 = tr) as -> by congruence.
  constructor;
    cbn [_background _cluster_eps _cluster_min_samples _max_cluster_radius
         _tracker _trajectories];
    [done|by eapply BackgroundMore.same_config_trans|congruence..|done
    |by apply TrajectoryFacts.record_all_inv].
Qed.

Lemma reachable_session c e0 e :
  init c = Some e0 -> reachable sqrt radians cos sin e0 e ->
  session_inv c (_background e0) e.
Proof.
  intros Hinit. destruct (init_session c e0 Hinit) as [_ H0].
  induction 1 as [|e pts ts e' frame _ IH Hscan|e _ IH|e _ IH].
  - done.
  - by eapply process_scan_session.
  - destruct IH. destruct si_store0 as [HB _].
    constructor;
      cbn [reset _background _cluster_eps _cluster_min_samples
           _max_cluster_radius _tracker _trajectories Tracker.init
           Tracker._max_match_dist Tracker._max_missing Tracker._min_confirm];
      [by apply BackgroundFacts.reset_wf|done..
      |apply TrackerFacts.fresh_tracker_wf
      |rewrite HB; apply TrajectoryFacts.init_inv].
  - destruct IH.
    constructor;
      cbn [reset_background _background _cluster_eps _cluster_min_samples
           _max_cluster_radius _tracker _trajectories];
      [by apply BackgroundFacts.reset_wf|done..].
Qed.

(** [reset] on a model with the configuration and the array sizes of a
    fresh one gives the fresh one. *)
Lemma reset_background_model bins lr T F bg0 bg :
  Background.init bins lr T F = Some bg0 ->
  BackgroundFacts.wf bg -> BackgroundFacts.same_config bg0 bg ->
  Background.reset bg = bg0.
Proof.
  intros H0 (_ & _ & Hl1 & Hl2) (Hn & Hw & Hlr & HT & HF).
  unfold Background.init in H0. destruct (bins <=? 0); [done|].
  injection H0 as <-. cbn in Hn, Hw, Hlr, HT, HF.
  unfold Background.reset. rewrite Hl1, Hl2, Hn, Hw, Hlr, HT, HF. done.
Qed.

(** X21.  [reset] brings back the constructed engine.  Whatever scans
    have been processed and whatever resets have been made since
    [__init__], [reset] leaves an engine equal, field by field, to the one
    [__init__] built; [reset_background] changes the background model
    only, and to the one [__init__] built. *)
Theorem reset_restores_engine (c : Config) (e0 e : TrackingEngine) :
  init c = Some e0 ->
  reachable sqrt radians cos sin e0 e ->
  reset e = e0 /\
  _background (reset_background e) = _background e0 /\
  _tracker (reset_background e) = _tracker e /\
  _trajectories (reset_background e) = _trajectories e /\
  frame_count (reset_background e) = frame_count e.
Proof.
  intros Hinit Hreach.
  destruct (init_session c e0 Hinit) as [Hbg0 _].
  destruct (reachable_session c e0 e Hinit Hreach).
  pose proof (reset_background_model _ _ _ _ _ _ Hbg0 si_bg_wf0 si_bg_config0)
    as Hreset.
  split; [|by split_and!].
  unfold reset. rewrite Hreset, si_eps0, si_min_samples0, si_radius0,
    si_gate0, si_missing0, si_confirm0.
  destruct si_store0 as [-> _].
  unfold init in Hinit. rewrite Hbg0, bind_Some_l in Hinit.
  by injection Hinit as <-.
Qed.

(** X22.  How [process_scan] reads its input.  A tuple
    [(angle_deg, distance_mm)] is treated as the [PolarPoint] with these
    fields, and points whose distance is not positive are dropped before
    anything else: the call gives the same result, and leaves the same
    engine, as the call on the points that pass the filter. *)
Theorem process_scan_normalises (e : TrackingEngine) (points : list scan_item)
    (timestamp : option Q) :
  let polar :=
    filter (fun p => Qgtb (PolarPoint.distance_mm p) 0 = true)
           (map normalize points) in
  process_scan sqrt radians cos sin e points timestamp
  = process_scan sqrt radians cos sin e (map Point polar) timestamp /\
  (forall a d,
     process_scan sqrt radians cos sin e (Pair a d :: points) timestamp
     = process_scan sqrt radians cos sin e
         (Point (PolarPoint.mk a d) :: points) timestamp) /\
  (forall a d, (d <= 0)%Q ->
     process_scan sqrt radians cos sin e (Pair a d :: points) timestamp
     = process_scan sqrt radians cos sin e points timestamp).
Proof.
  intros polar. split_and!.
  - unfold process_scan. rewrite map_map. cbn [normalize]. rewrite map_id.
    fold polar.
    assert (filter (fun p => Qgtb (PolarPoint.distance_mm p) 0 = true) polar
            = polar) as ->; [|done].
    apply TrackerFacts.filter_all. intros p Hp.
    by apply list_elem_of_filter in Hp as [? _].
  - done.
  - intros a d Hd. unfold process_scan. cbn [map normalize].
    rewrite filter_cons_False; [done|].
    cbn [PolarPoint.distance_mm]. apply Qgtb_false in Hd. congruence.
Qed.

(** During learning the engine only learns. *)
Lemma learning_scans c bg0 scans : forall e,
  session_inv c bg0 e ->
  1 <= cluster_min_samples c ->
  Tracker._tracks (_tracker e) = [] ->
  Background._frame_count (_background e) + Z.of_nat (length scans)
    < Background._min_frames (_background e) ->
  exists e' frames,
    process_scans sqrt radians cos sin e scans = Some (e', frames) /\
    Forall (fun f => TrackingFrame.objects f = []) frames /\
    _tracker e' = _tracker e /\ _trajectories e' = _trajectories e /\
    frame_count e' = frame_count e + Z.of_nat (length scans) /\
    background_ready e' = false.
Proof.
  induction scans as [|[pts ts] scans IH]; intros e Hinv Hmin Hempty Hlearn.
  - exists e, []. cbn [process_scans length]. split_and!; [done..|lia|].
    unfold background_ready, Background.is_ready.
    cbn [length] in Hlearn. lia.
  - cbn [length] in Hlearn. cbn [process_scans fst snd].
    assert (Hscan : exists bg,
              Background.update (_background e)
                (filter (fun p => Qgtb (PolarPoint.distance_mm p) 0 = true)
                        (map normalize pts)) = Some bg /\
              Background._frame_count bg
                = Background._frame_count (_background e) + 1 /\
              Background._min_frames bg
                = Background._min_frames (_background e) /\
              process_scan sqrt radians cos sin e pts ts
                = Some ({| _background := bg;
                           _cluster_eps := _cluster_eps e;
                           _cluster_min_samples := _cluster_min_samples e;
                           _max_cluster_radius := _max_cluster_radius e;
                           _tracker := _tracker e;
                           _trajectories := _trajectories e;
                           _frame_count := _frame_count e + 1 |},
                        {| TrackingFrame.frame_number := _frame_count e;
                           TrackingFrame.objects := [];
                           TrackingFrame.timestamp := ts |})).
    { destruct (BackgroundFacts.update_wf (_background e)
                  (filter (fun p => Qgtb (PolarPoint.distance_mm p) 0 = true)
                          (map normalize pts)) (si_bg_wf _ _ _ Hinv))
        as (bg & Hbg & _ & (_ & _ & _ & _ & HF) & Hfc).
      exists bg. split_and!; [done..|].
      unfold process_scan. rewrite Hbg, bind_Some_l.
      unfold Background.classify, Background.is_ready. rewrite HF, Hfc.
      destruct (Z.leb_spec (Background._min_frames (_background e))
                  (Background._frame_count (_background e) + 1)); [lia|].
      cbn [negb]. rewrite bind_Some_l. cbn [Math.polar_points_to_cartesian].
      unfold Clustering.cluster_points. cbn [length].
      rewrite (si_min_samples _ _ _ Hinv).
      destruct (Z.ltb_spec (Z.of_nat 0) (cluster_min_samples c)); [|lia].
      rewrite bind_Some_l, TrackerMore.update_no_clusters, bind_Some_l.
      rewrite Hempty. cbn [fst snd fmap list_fmap foldl].
      do 2 f_equal. destruct (_tracker e). cbn in Hempty. by subst. }
    destruct Hscan as (bg & Hbg & Hfc & HF & Hscan).
    rewrite Hscan, bind_Some_l. cbn [fst snd].
    set (e1 := {| _background := bg |}).
    destruct (IH e1) as (e' & frames & -> & Hall & Htr & Htraj & Hcount & Hready).
    + by apply (process_scan_session c bg0 e pts ts e1 _ Hinv Hscan).
    + done.
    + done.
    + cbn [e1 _background]. lia.
    + rewrite bind_Some_l. cbn [fst snd].
      eexists e', (_ :: frames). split_and!; [done| |done|done| |done].
      * by apply Forall_cons.
      * rewrite Hcount. unfold frame_count. cbn [e1 _frame_count length]. lia.
Qed.


(** X24.  Trajectories follow the published objects.  In a session, after
    a [process_scan] that returned a frame: the trajectory of each object
    of the frame ends with the point made of its centroid, the number of
    the frame and the timestamp of the call; the trajectory of every
    other id is as it was before the call, also when its track has been
    retired. *)
Theorem trajectories_follow_objects (c : Config) (e0 e : TrackingEngine)
    (points : list scan_item) (timestamp : option Q)
    (e' : TrackingEngine) (frame : TrackingFrame.t) :
  init c = Some e0 ->
  reachable sqrt radians cos sin e0 e ->
  process_scan sqrt radians cos sin e points timestamp = Some (e', frame) ->
  (forall o, o ∈ TrackingFrame.objects frame ->
     last (get_trajectory e' (TrackedObject.object_id o))
     = Some (TrajectoryPoint.mk
               (CartesianPoint.x (TrackedObject.centroid o))
               (CartesianPoint.y (TrackedObject.centroid o))
               (TrackingFrame.frame_number frame) timestamp)) /\
  (forall id,
     id ∉ TrackedObject.object_id <$> TrackingFrame.objects frame ->
     get_trajectory e' id = get_trajectory e id) /\
  NoDup (TrackedObject.object_id <$> TrackingFrame.objects frame).
Proof.
  intros Hinit Hreach Hscan.
  destruct (reachable_session c e0 e Hinit Hreach).
  destruct (process_scan_steps _ _ _ _ _ Hscan)
    as (bg & fg & clusters & tr & objs & _ & _ & _ & Htr & -> & ->).
  destruct (TrackerFacts.update_step sqrt (_tracker e) clusters si_tracker0)
    as (tr1 & objs1 & Htr1 & _ & _ & _ & Hnd & _).
  assert (objs1 = objs) as -> by congruence.
  unfold get_trajectory.
  cbn [TrackingFrame.objects TrackingFrame.frame_number _trajectories].
  split_and!; [| |done].
  - intros o Ho.
    apply (record_all_last (max_trajectory_length c)); [done| |].
    + by rewrite calls_of_ids.
    + unfold calls_of.
      match goal with
      | |- _ ∈ ?f <$> _ => change (f o ∈ f <$> objs)
      end.
      by apply list_elem_of_fmap_2.
  - intros id Hid. apply TrajectoryMore.get_record_all_other.
    by rewrite calls_of_ids.
Qed.

(** An object that [update] returns carries the points of a cluster. *)
Lemma published_points tr clusters tr' objs o :
  TrackerFacts.wf tr ->
  Tracker.update sqrt tr clusters = Some (tr', objs) ->
  o ∈ objs ->
  exists k, k ∈ clusters /\
    TrackedObject.points o = Cluster.points k /\
    TrackedObject.centroid o = Cluster.centroid k /\
    TrackedObject.bounding_radius_mm o = Cluster.bounding_radius_mm k.
Proof.
  intros Hwf Hupd Ho.
  destruct (Tracker._assign sqrt (Tracker._max_match_dist tr)
              (map Tracker.predict (Tracker._tracks tr)) clusters)
    as [[ms uts] ucs] eqn:E.
  destruct (TrackerFacts.update_anatomy sqrt tr clusters ms uts ucs tr' objs
              E Hupd) as (tracks2 & news & A).
  rewrite (TrackerFacts.an_objs _ _ _ _ _ _ _ _ A) in Ho.
  apply list_elem_of_fmap in Ho as (t' & -> & [[_ Hzero] Ht']%list_elem_of_filter).
  apply (TrackerFacts.elem_of_tracks' sqrt A) in Ht' as [_ [Ht'|Ht']].
  - apply list_elem_of_lookup in Ht' as [i Hi].
    destruct (TrackerFacts.tracks2_origin sqrt A i t' Hi) as (t & Ht & _ & Hcase).
    destruct Hcase as [(k & c0 & _ & Hc & ->)|[_ ->]].
    + exists c0. split; [by eapply list_elem_of_lookup_2|done].
    + destruct Hwf as (_ & Hids & _).
      apply list_elem_of_lookup_2, Hids in Ht.
      cbn [Tracker.aged_track Tracker._Track.missing_frames] in Hzero. lia.
  - apply list_elem_of_lookup in Ht' as [j Hj].
    destruct (TrackerFacts.an_new _ _ _ _ _ _ _ _ A _ _ Hj) as (c0 & Hc & ->).
    by exists c0.
Qed.

(** The points of a returned cluster are among the points given. *)
Lemma cluster_members pts eps ms R clusters k q :
  Clustering.cluster_points sqrt pts eps ms R = Some clusters ->
  k ∈ clusters -> q ∈ Cluster.points k -> q ∈ pts.
Proof.
  unfold Clustering.cluster_points.
  destruct (Z.of_nat (length pts) <? ms).
  { intros [= <-] ?%elem_of_nil. done. }
  destruct (Clustering._grid_dbscan _ eps ms) as [labels|]; [|done].
  rewrite bind_Some_l.
  destruct (Clustering.labels_max labels) as [top|]; [|done].
  rewrite bind_Some_l. intros Hemit Hk Hq.
  destruct (ClusteringFacts.emit_clusters_emitted sqrt _ _ _ _ _ _ Hemit Hk)
    as (label & _ & Hmk).
  apply ClusteringFacts.make_cluster_emitted in Hmk as (_ & _ & Hpts).
  rewrite Hpts in Hq.
  pose proof (ClusteringMore.masked_sublist
                (map (fun p => (CartesianPoint.x p, CartesianPoint.y p)) pts)
                labels label) as Hs.
  apply (fmap_sublist (fun row : Q * Q => CartesianPoint.mk row.1 row.2)) in Hs.
  rewrite <- !map_is_fmap in Hs. rewrite ClusteringMore.points_of_xy in Hs.
  by eapply elem_of_sublist.
Qed.

(** X25.  Published objects are made of this scan.  In a session, every
    point of every object of a returned frame is the Cartesian image
    [(d cos a, d sin a)] of a point of the call's input with a positive
    distance [d], one that lies closer than the learned background of its
    angular bin by more than the threshold; and this happens only once the
    background is ready. *)
Theorem objects_come_from_scan (c : Config) (e0 e : TrackingEngine)
    (points : list scan_item) (timestamp : option Q)
    (e' : TrackingEngine) (frame : TrackingFrame.t)
    (o : TrackedObject.t) (q : CartesianPoint.t) :
  init c = Some e0 ->
  reachable sqrt radians cos sin e0 e ->
  process_scan sqrt radians cos sin e points timestamp = Some (e', frame) ->
  o ∈ TrackingFrame.objects frame ->
  q ∈ TrackedObject.points o ->
  background_ready e' = true /\
  exists p,
    p ∈ map normalize points /\
    (0 < PolarPoint.distance_mm p)%Q /\
    BackgroundMore.closer (_background e') p /\
    q = CartesianPoint.mk
          (PolarPoint.distance_mm p * cos (radians (PolarPoint.angle_deg p)))
          (PolarPoint.distance_mm p * sin (radians (PolarPoint.angle_deg p))).
Proof.
  intros Hinit Hreach Hscan Ho Hq.
  destruct (reachable_session c e0 e Hinit Hreach).
  destruct (process_scan_steps _ _ _ _ _ Hscan)
    as (bg & fg & clusters & tr & objs & Hbg & Hfg & Hcl & Htr & -> & ->).
  cbn [TrackingFrame.objects] in Ho. cbn [_background]. unfold background_ready.
  cbn [_background].
  destruct (published_points _ _ _ _ _ si_tracker0 Htr Ho) as (k & Hk & Hpts & _).
  rewrite Hpts in Hq.
  pose proof (cluster_members _ _ _ _ _ _ _ Hcl Hk Hq) as Hin.
  destruct (BackgroundFacts.update_wf _
              (filter (fun p => Qgtb (PolarPoint.distance_mm p) 0 = true)
                      (map normalize points)) si_bg_wf0) as (bg1 & Hbg1 & Hwf & _).
  rewrite Hbg in Hbg1. injection Hbg1 as <-.
  unfold Background.classify in Hfg.
  destruct (Background.is_ready bg); cbn [negb] in Hfg.
  2: { injection Hfg as <-. by apply elem_of_nil in Hin. }
  split; [done|].
  destruct (BackgroundMore.classify_points_spec bg
              (filter (fun p => Qgtb (PolarPoint.distance_mm p) 0 = true)
                      (map normalize points)) Hwf)
    as (fg0 & Hfg0 & _ & Hchar).
  assert (fg0 = fg) as -> by congruence.
  unfold Math.polar_points_to_cartesian in Hin.
  destruct fg as [|p0 fg]; [by apply elem_of_nil in Hin|].
  rewrite map_is_fmap in Hin.
  apply list_elem_of_fmap in Hin as (p & -> & Hp).
  apply Hchar in Hp as [Hp Hcloser].
  apply list_elem_of_filter in Hp as [Hpos Hp].
  exists p. split_and!; [done|by apply Qgtb_true|done|done].
Qed.

End WithFloatLib.

(** *** Instances *)

(** A small configuration: four bins, one learning frame, clusters of one
    point, immediate confirmation. *)
Definition small_config : Config :=
  {| background_learning_rate := 1 # 2;
     foreground_threshold_mm := 150;
     min_learning_frames := 1;
     angle_bins := 4;
     cluster_eps_mm := 200;
     cluster_min_samples := 1;
     max_cluster_radius_mm := 500;
     max_match_distance_mm := 800;
     max_missing_frames := 10;
     min_confirm_frames := 1;
     max_trajectory_length := 0 |}.

Lemma reset_restores_engine_witness :
  exists e0 e' frame,
    init small_config = Some e0 /\
    process_scan Qsqrt Qradians Qcos Qsin e0 [Pair 0 5000] None
      = Some (e', frame) /\
    reset e' = e0 /\
    _background (reset_background e') = _background e0.
Proof.
  destruct (init small_config) as [e0|] eqn:E; [|by vm_compute in E].
  destruct (process_scan Qsqrt Qradians Qcos Qsin e0 [Pair 0 5000] None)
    as [[e' frame]|] eqn:Hscan.
  2: { exfalso.
       assert (init small_config
                 ≫= (fun e => process_scan Qsqrt Qradians Qcos Qsin e
                                [Pair 0 5000] None) <> None) as H
         by (vm_compute; discriminate).
       by rewrite E, bind_Some_l, Hscan in H. }
  exists e0, e', frame. split; [reflexivity|]. split; [exact Hscan|].
  destruct (reset_restores_engine Qsqrt Qradians Qcos Qsin small_config e0 e' E)
    as (H1 & H2 & _).
  - eapply reach_scan; [apply reach_init|exact Hscan].
  - split; [exact H1|exact H2].
Defined.


(** After one learning scan with a wall at 5 m, a point at 2 m is
    foreground, forms a cluster and is published at once. *)
Definition two_scans
    : option (TrackingEngine * TrackingEngine * TrackingFrame.t) :=
  e0 ← init small_config;
  r1 ← process_scan Qsqrt Qradians Qcos Qsin e0 [Pair 0 5000] None;
  r2 ← process_scan Qsqrt Qradians Qcos Qsin r1.1 [Pair 0 2000] (Some 1%Q);
  Some (e0, r1.1, r2.2).

Lemma two_scans_publish :
  option_map (fun r => map TrackedObject.object_id (TrackingFrame.objects r.2))
    two_scans = Some [1].
Proof. vm_compute. reflexivity. Qed.

Lemma trajectories_follow_objects_witness :
  exists e0 e e' frame o,
    init small_config = Some e0 /\
    process_scan Qsqrt Qradians Qcos Qsin e [Pair 0 2000] (Some 1%Q)
      = Some (e', frame) /\
    o ∈ TrackingFrame.objects frame /\
    last (get_trajectory e' (TrackedObject.object_id o))
    = Some (TrajectoryPoint.mk
              (CartesianPoint.x (TrackedObject.centroid o))
              (CartesianPoint.y (TrackedObject.centroid o))
              (TrackingFrame.frame_number frame) (Some 1%Q)).
Proof.
  pose proof two_scans_publish as Hpub. unfold two_scans in *.
  destruct (init small_config) as [e0|] eqn:E; [|done].
  rewrite bind_Some_l in Hpub.
  destruct (process_scan Qsqrt Qradians Qcos Qsin e0 [Pair 0 5000] None)
    as [[e1 f1]|] eqn:H1; [|done].
  rewrite bind_Some_l in Hpub. cbn [fst] in Hpub.
  destruct (process_scan Qsqrt Qradians Qcos Qsin e1 [Pair 0 2000] (Some 1%Q))
    as [[e2 f2]|] eqn:H2; [|done].
  rewrite bind_Some_l in Hpub. cbn [option_map snd] in Hpub.
  destruct (TrackingFrame.objects f2) as [|o os] eqn:Hobjs; [done|].
  exists e0, e1, e2, f2, o. split; [reflexivity|]. split; [exact H2|].
  rewrite Hobjs. split; [by left|].
  destruct (trajectories_follow_objects Qsqrt Qradians Qcos Qsin small_config
              e0 e1 [Pair 0 2000] (Some 1%Q) e2 f2 E) as (Hlast & _).
  - eapply reach_scan; [apply reach_init|exact H1].
  - exact H2.
  - apply Hlast. rewrite Hobjs. by left.
Defined.

Lemma objects_come_from_scan_witness :
  exists e0 e e' frame,
    init small_config = Some e0 /\
    process_scan Qsqrt Qradians Qcos Qsin e [Pair 0 2000] (Some 1%Q)
      = Some (e', frame) /\
    TrackingFrame.objects frame <> [] /\
    forall o q, o ∈ TrackingFrame.objects frame -> q ∈ TrackedObject.points o ->
      background_ready e' = true /\
      exists p,
        p ∈ map normalize [Pair 0 2000] /\
        (0 < PolarPoint.distance_mm p)%Q /\
        BackgroundMore.closer (_background e') p /\
        q = CartesianPoint.mk
              (PolarPoint.distance_mm p * Qcos (Qradians (PolarPoint.angle_deg p)))
              (PolarPoint.distance_mm p * Qsin (Qradians (PolarPoint.angle_deg p))).
Proof.
  pose proof two_scans_publish as Hpub. unfold two_scans in *.
  destruct (init small_config) as [e0|] eqn:E; [|done].
  rewrite bind_Some_l in Hpub.
  destruct (process_scan Qsqrt Qradians Qcos Qsin e0 [Pair 0 5000] None)
    as [[e1 f1]|] eqn:H1; [|done].
  rewrite bind_Some_l in Hpub. cbn [fst] in Hpub.
  destruct (process_scan Qsqrt Qradians Qcos Qsin e1 [Pair 0 2000] (Some 1%Q))
    as [[e2 f2]|] eqn:H2; [|done].
  rewrite bind_Some_l in Hpub. cbn [option_map snd] in Hpub.
  exists e0, e1, e2, f2. split; [reflexivity|]. split; [exact H2|].
  split; [by destruct (TrackingFrame.objects f2)|].
  intros o q Ho Hq.
  apply (objects_come_from_scan Qsqrt Qradians Qcos Qsin small_config e0 e1
           [Pair 0 2000] (Some 1%Q) e2 f2 o q E); [|exact H2|exact Ho|exact Hq].
  eapply reach_scan; [apply reach_init|exact H1].
Defined.

End EngineMore.

(** ** background.py: the angular bins *)

Module AngleBins.
Import Background BackgroundFacts.

(** [int(q)] of a non-negative float is its floor. *)
Lemma py_int_nonneg q : (0 <= q)%Q -> py_int q = Qfloor q.
Proof.
  intros Hq. unfold py_int. destruct q as [n d]. cbn [Qnum Qden Qfloor].
  apply Z.quot_div_nonneg; [|done].
  unfold Qle in Hq. cbn in Hq. lia.
Qed.

Lemma Qfloor_unique z q :
  (inject_Z z <= q)%Q -> (q < inject_Z (z + 1))%Q -> Qfloor q = z.
Proof.
  intros Hlo Hhi.
  pose proof (Qfloor_le q) as H1. pose proof (Qlt_floor q) as H2.
  assert (z < Qfloor q + 1) by (rewrite Zlt_Qlt; lra).
  assert (Qfloor q < z + 1) by (rewrite Zlt_Qlt; lra).
  lia.
Qed.



End AngleBins.

(** ** clustering.py: the clusters share no point *)

Module ClusterCount.
Import Clustering ClusteringFacts.

(** The number of points in a list of clusters. *)
Definition total_points (cs : list Cluster.t) : nat :=
  foldr (fun c n => (length (Cluster.points c) + n)%nat) 0%nat cs.

Lemma filter_disjoint_length {A} (P Q : A -> Prop)
    `{!forall x, Decision (P x)} `{!forall x, Decision (Q x)} (l : list A) :
  (forall x, P x -> Q x -> False) ->
  (length (filter P l) + length (filter Q l)
   = length (filter (fun x => P x \/ Q x) l))%nat.
Proof.
  intros Hdisj. induction l as [|x l IH]; [done|].
  rewrite !filter_cons.
  destruct (decide (P x)) as [HP|HP], (decide (Q x)) as [HQ|HQ].
  - destruct (Hdisj x HP HQ).
  - rewrite decide_True by tauto. cbn [length]. lia.
  - rewrite decide_True by tauto. cbn [length]. lia.
  - rewrite decide_False by tauto. lia.
Qed.

Lemma NoDup_py_range k : NoDup (py_range k).
Proof.
  unfold py_range. rewrite map_is_fmap.
  apply NoDup_fmap_2; [apply _|apply NoDup_seq].
Qed.

Lemma clusters_le_total cs :
  (forall c, c ∈ cs -> (1 <= length (Cluster.points c))%nat) ->
  (length cs <= total_points cs)%nat.
Proof.
  induction cs as [|c cs IH]; intros Hne; [done|].
  cbn [total_points foldr length]. fold (total_points cs).
  assert (1 <= length (Cluster.points c))%nat by (apply Hne; by left).
  assert (length cs <= total_points cs)%nat
    by (apply IH; intros; apply Hne; by right).
  lia.
Qed.

Section Count.
Variable sqrt : Q -> Q.

(** The loop over the labels puts each labelled point into at most one
    cluster. *)
Lemma emit_clusters_count xy labels R todo : forall cs,
  NoDup todo ->
  emit_clusters sqrt xy labels R todo = Some cs ->
  (total_points cs
   <= length (filter (fun pl : Q * Q * Z => pl.2 ∈ todo) (zip xy labels)))%nat.
Proof.
  induction todo as [|L todo IH]; intros cs Hnd; cbn [emit_clusters].
  - intros [= <-]. cbn. lia.
  - apply NoDup_cons in Hnd as [HL Hnd].
    destruct (make_cluster sqrt xy labels R L) as [oc|] eqn:E; [|done].
    rewrite bind_Some_l.
    destruct (emit_clusters sqrt xy labels R todo) as [cs'|]; [|done].
    rewrite bind_Some_l. intros [= <-].
    specialize (IH cs' Hnd eq_refl).
    pose proof (filter_disjoint_length
                  (fun pl : Q * Q * Z => pl.2 = L)
                  (fun pl : Q * Q * Z => pl.2 ∈ todo) (zip xy labels)) as Hsplit.
    rewrite (list_filter_iff (fun pl : Q * Q * Z => pl.2 ∈ L :: todo)
               (fun pl => pl.2 = L \/ pl.2 ∈ todo))
      by (intros pl; apply elem_of_cons).
    rewrite <- Hsplit by (intros pl -> ?; done).
    destruct oc as [c|]; [|lia].
    apply make_cluster_emitted in E as (_ & _ & Hpts).
    cbn [total_points foldr]. fold (total_points cs').
    rewrite Hpts, length_map. unfold masked. rewrite length_map. lia.
Qed.


End Count.


End ClusterCount.
